(** * zeninjector: the container of lib/container.js

    A shallow embedding of the dependency-injection container: the module
    registry ([register], [registerAndExport], [isRegistered]), the
    asynchronous resolution engine ([resolve]) with its promise callbacks,
    the partial-mock overlay ([performPartialMock]) and the text of the
    dependency graph ([saveGraphToFile]).

    JavaScript objects that the code shares by reference (module records,
    promises, plain objects, the closure variable of the overlay) live in
    explicit stores indexed by natural numbers.  The promise library is an
    external dependency; it is modelled here as a store of promises with
    reaction lists and one first-in first-out queue of pending reactions. *)

From stdpp Require Import base option list gmap strings pretty sorting.
From Stdlib Require Import ZArith Ascii.

(** ** JavaScript values *)

(** The values that flow through the container.  Objects and promises are
    references into the stores of the [world]; [VFun r] is a function taking
    no argument and returning the number [r]; [VErr msg] is an [Error] object
    carrying [msg].  Property reads see own data properties only: what
    JavaScript attaches through a prototype is not represented. *)
Inductive value :=
| VUndef
| VNull
| VNum (z : Z)
| VStr (s : string)
| VFun (r : Z)
| VErr (msg : string)
| VObj (o : nat)
| VPromise (p : nat).

Global Instance value_eq_dec : EqDecision value.
Proof. solve_decision. Defined.

(** What a call of a [define] function does: return a value (possibly a
    promise already in the store), throw, or return a fresh awaitable that
    the environment settles later. *)
Inductive def_result :=
| DReturn (v : value)
| DThrow (e : value)
| DAwait.

(** A function value handed to the container: its declared parameter names
    (read by the signature extractor) and its behaviour on arguments. *)
Record jsfun := mkFun {
  params : list string;
  body : list value → def_result }.

(** A plain object or an array: an insertion-ordered table of own enumerable
    properties.  An array with elements [v0 .. vn] has the keys "0" .. "n". *)
Record object := mkObject {
  is_array : bool;
  props : list (string * value) }.

Fixpoint assoc_get (k : string) (ps : list (string * value)) : option value :=
  match ps with
  | [] => None
  | (k', v) :: ps' => if decide (k' = k) then Some v else assoc_get k ps'
  end.

Fixpoint assoc_set (k : string) (v : value) (ps : list (string * value))
  : list (string * value) :=
  match ps with
  | [] => [(k, v)]
  | (k', v') :: ps' =>
      if decide (k' = k) then (k, v) :: ps' else (k', v') :: assoc_set k v ps'
  end.

Definition index_keys (n : nat) : list string := (λ i : nat, pretty i) <$> seq 0 n.

Definition mk_array (vs : list value) : object :=
  mkObject true (zip (index_keys (length vs)) vs).

Definition array_values (ob : object) : list value := snd <$> props ob.

(** ** Module records (container.js:40-59) *)

Inductive mstate := registered | resolving | resolved.

Global Instance mstate_eq_dec : EqDecision mstate.
Proof. solve_decision. Defined.

Record Module := mkModule {
  name : string;
  dependencies : list string;
  define : jsfun;
  state : mstate;
  exported : value;
  resolvingPromise : value }.

(** [new Module({name, dependencies, define})].  The constructor's three
    guards cannot fire on the arguments [register] passes. *)
Definition new_Module (n : string) (deps : list string) (fn : jsfun) : Module :=
  mkModule n deps fn registered VNull VUndef.

(** ** Promises *)

Inductive outcome :=
| Fulfilled (v : value)
| Rejected (e : value).

(** The closures container.js passes to [.then], defunctionalised:
    - [CbDefine m name] is the callback of line 211, closed over [module]
      and [name];
    - [CbPartial m cell] is the arrow function of line 223, closed over
      [module] and the variable [resolved_partial_module];
    - [CbOverlay cell] is the arrow function of line 226. *)
Inductive callback :=
| CbDefine (m : nat) (name : string)
| CbPartial (m : nat) (cell : nat)
| CbOverlay (cell : nat).

(** What happens when a promise settles: run a [.then] callback and resolve
    the promise [.then] returned, make a follower adopt the outcome
    ([.bind], a promise returned from a callback), or fill one slot of a
    [Promise.all]. *)
Inductive reaction :=
| RThen (cb : callback) (target : nat)
| RFollow (target : nat)
| RAll (target : nat) (idx : nat).

Record promise := mkPromise {
  settled : option outcome;
  reactions : list reaction;
  slots : list (option value);
  external : bool }.

Definition pending_promise : promise := mkPromise None [] [] false.

(** ** The container and the world around it *)

(** The options a container reads: the names set in [mock_modules] and in
    [partial_mock_modules]. *)
Record Options := mkOptions {
  mock_modules : list string;
  partial_mock_modules : list string }.

Record Container := mkContainer {
  _modules : gmap string nat;
  _partial_modules : gmap string nat;
  _cycles : option (list (list nat));
  options : Options }.

(** A recorded invocation of a [define] function: the module record and the
    arguments. *)
Inductive event := Called (m : nat) (args : list value).

Record world := mkWorld {
  container : Container;
  modules : list Module;
  promises : list promise;
  objects : list object;
  cells : list value;
  queue : list (reaction * outcome);
  trace : list event }.

Definition Container_new (opts : Options) : Container :=
  mkContainer ∅ ∅ None opts.

Definition world_init (opts : Options) (objs : list object) : world :=
  mkWorld (Container_new opts) [] [] objs [] [] [].

Definition set_container (c : Container) (w : world) : world :=
  mkWorld c (modules w) (promises w) (objects w) (cells w) (queue w) (trace w).
Definition set_modules (ms : list Module) (w : world) : world :=
  mkWorld (container w) ms (promises w) (objects w) (cells w) (queue w) (trace w).
Definition set_promises (ps : list promise) (w : world) : world :=
  mkWorld (container w) (modules w) ps (objects w) (cells w) (queue w) (trace w).
Definition set_objects (os : list object) (w : world) : world :=
  mkWorld (container w) (modules w) (promises w) os (cells w) (queue w) (trace w).
Definition set_cells (cs : list value) (w : world) : world :=
  mkWorld (container w) (modules w) (promises w) (objects w) cs (queue w) (trace w).
Definition set_queue (q : list (reaction * outcome)) (w : world) : world :=
  mkWorld (container w) (modules w) (promises w) (objects w) (cells w) q (trace w).
Definition set_trace (t : list event) (w : world) : world :=
  mkWorld (container w) (modules w) (promises w) (objects w) (cells w) (queue w) t.

Definition set__modules (ms : gmap string nat) (c : Container) : Container :=
  mkContainer ms (_partial_modules c) (_cycles c) (options c).
Definition set__partial_modules (ms : gmap string nat) (c : Container) : Container :=
  mkContainer (_modules c) ms (_cycles c) (options c).
Definition set__cycles (cs : option (list (list nat))) (c : Container) : Container :=
  mkContainer (_modules c) (_partial_modules c) cs (options c).

(** [this._modules[name]] and [this._partial_modules[name]] as the module
    record they refer to. *)
Definition module_at (reg : gmap string nat) (n : string) (w : world)
  : option (nat * Module) :=
  m ← reg !! n; md ← modules w !! m; Some (m, md).

Definition update_module (m : nat) (f : Module → Module) (w : world) : world :=
  set_modules (alter f m (modules w)) w.

Definition set_state (s : mstate) (md : Module) : Module :=
  mkModule (name md) (dependencies md) (define md) s (exported md) (resolvingPromise md).
Definition set_exported (v : value) (md : Module) : Module :=
  mkModule (name md) (dependencies md) (define md) (state md) v (resolvingPromise md).
Definition set_resolvingPromise (v : value) (md : Module) : Module :=
  mkModule (name md) (dependencies md) (define md) (state md) (exported md) v.

(** ** Synchronous code: state, exceptions, fuel *)

(** A synchronous call runs on the world and either returns, or throws, or
    (in this embedding only) runs out of the fuel that bounds recursion. *)
Inductive res (A : Type) :=
| Ret (a : A)
| Thrown (e : value).
Arguments Ret {A} a.
Arguments Thrown {A} e.

Definition M (A : Type) : Type := world → option (res A * world).

Definition retM {A} (a : A) : M A := λ w, Some (Ret a, w).
Definition throwM {A} (e : value) : M A := λ w, Some (Thrown e, w).
Definition out_of_fuel {A} : M A := λ _, None.
Definition bindM {A B} (m : M A) (k : A → M B) : M B := λ w,
  match m w with
  | Some (Ret a, w') => k a w'
  | Some (Thrown e, w') => Some (Thrown e, w')
  | None => None
  end.
Definition getM : M world := λ w, Some (Ret w, w).
Definition modifyM (f : world → world) : M unit := λ w, Some (Ret tt, f w).
Definition liftM {A} (f : world → A * world) : M A := λ w,
  let '(a, w') := f w in Some (Ret a, w').

Notation "'let*' x ':=' c1 'in' c2" := (bindM c1 (λ x, c2))
  (at level 10, x name, c1 at level 100, c2 at level 200).
Notation "c1 ';;' c2" := (bindM c1 (λ _, c2))
  (at level 100, c2 at level 200, right associativity).

Fixpoint mapM_M {A B} (f : A → M B) (l : list A) : M (list B) :=
  match l with
  | [] => retM []
  | x :: l' => let* y := f x in let* ys := mapM_M f l' in retM (y :: ys)
  end.

(** ** The promise library *)

Definition new_promise (p : promise) (w : world) : nat * world :=
  (length (promises w), set_promises (promises w ++ [p]) w).

(** Settling a pending promise hands each of its reactions to the queue, in
    the order they were attached; a settled promise never changes. *)
Definition settle (p : nat) (o : outcome) (w : world) : world :=
  match promises w !! p with
  | Some pr =>
      match settled pr with
      | None =>
          set_queue (queue w ++ ((λ r, (r, o)) <$> reactions pr))
            (set_promises
               (<[p := mkPromise (Some o) [] (slots pr) (external pr)]> (promises w)) w)
      | Some _ => w
      end
  | None => w
  end.

(** Attaching a reaction: kept with a pending promise, queued at once for a
    settled one. *)
Definition subscribe (p : nat) (r : reaction) (w : world) : world :=
  match promises w !! p with
  | Some pr =>
      match settled pr with
      | None =>
          set_promises
            (<[p := mkPromise None (reactions pr ++ [r]) (slots pr) (external pr)]>
               (promises w)) w
      | Some o => set_queue (queue w ++ [(r, o)]) w
      end
  | None => w
  end.

(** Resolving promise [t] with [x]: follow [x] when it is a promise, fulfil
    with [x] otherwise. *)
Definition resolve_with (t : nat) (x : value) (w : world) : world :=
  match x with
  | VPromise q => subscribe q (RFollow t) w
  | _ => settle t (Fulfilled x) w
  end.

(** [Promise.resolve(x)]: a promise is returned as it is. *)
Definition Promise_resolve (x : value) (w : world) : value * world :=
  match x with
  | VPromise q => (VPromise q, w)
  | _ => let '(p, w') := new_promise (mkPromise (Some (Fulfilled x)) [] [] false) w in
         (VPromise p, w')
  end.

(** [Promise.reject(e)]. *)
Definition Promise_reject (e : value) (w : world) : value * world :=
  let '(p, w') := new_promise (mkPromise (Some (Rejected e)) [] [] false) w in
  (VPromise p, w').

(** If every slot of the aggregate [t] is filled, fulfil it with the array
    of the collected values, in slot order. *)
Definition finish_all (t : nat) (w : world) : world :=
  match promises w !! t with
  | Some pr =>
      match mapM id (slots pr) with
      | Some vs =>
          settle t (Fulfilled (VObj (length (objects w))))
            (set_objects (objects w ++ [mk_array vs]) w)
      | None => w
      end
  | None => w
  end.

Fixpoint subscribe_all (t : nat) (i : nat) (arr : list value) (w : world) : world :=
  match arr with
  | [] => w
  | VPromise q :: arr' => subscribe_all t (S i) arr' (subscribe q (RAll t i) w)
  | _ :: arr' => subscribe_all t (S i) arr' w
  end.

Definition slot_of (x : value) : option value :=
  match x with VPromise _ => None | _ => Some x end.

(** [Promise.all(arr)]: one slot per element, in the order of [arr]. *)
Definition Promise_all (arr : list value) (w : world) : value * world :=
  let '(t, w1) := new_promise (mkPromise None [] (slot_of <$> arr) false) w in
  (VPromise t, finish_all t (subscribe_all t 0 arr w1)).

(** [p.bind(this)]: a new promise that follows [p]. *)
Definition Promise_bind (p : value) (w : world) : value * world :=
  let '(b, w1) := new_promise pending_promise w in
  (VPromise b, resolve_with b p w1).

(** [p.then(cb)]; calling [.then] on something that is not a promise throws
    a [TypeError]. *)
Definition Promise_then (p : value) (cb : callback) : M value := λ w,
  match p with
  | VPromise q =>
      let '(t, w1) := new_promise pending_promise w in
      Some (Ret (VPromise t), subscribe q (RThen cb t) w1)
  | _ => Some (Thrown (VErr "TypeError: Cannot read property 'then'"), w)
  end.

(** ** Cycle detection *)

Section cycle_detection.
(** The dependency graph: a registered name and its declared
    dependencies. *)
Variable graph : string → option (list string).

(** The part of the path from the first occurrence of [n] on. *)
Fixpoint path_from (n : string) (path : list string) : list string :=
  match path with
  | [] => []
  | x :: rest => if decide (x = n) then path else path_from n rest
  end.

(** Depth-first traversal from [n] below the current [path]; [done] are
    the names already fully explored and free of cycles.  Returns the
    cycles met and the extended [done]. *)
Fixpoint visit (fuel : nat) (path done : list string) (n : string)
  : list (list string) * list string :=
  match fuel with
  | 0 => ([], done)
  | S fuel' =>
      if decide (n ∈ path) then ([path_from n path], done)
      else if decide (n ∈ done) then ([], done)
      else match graph n with
           | None => ([], done)
           | Some deps =>
               let '(cs, done') :=
                 foldl (λ acc dep,
                          let '(c, d) := visit fuel' (path ++ [n]) acc.2 dep in
                          (acc.1 ++ c, d))
                       ([], done) deps in
               (cs, match cs with [] => n :: done' | _ => done' end)
           end
  end.

Definition traverse (names : list string) : list (list string) * list string :=
  foldl (λ acc n,
           let '(c, d) := visit (S (length names)) [] acc.2 n in (acc.1 ++ c, d))
        ([], []) names.

Definition rotations (c : list string) : list (list string) :=
  (λ i, drop i c ++ take i c) <$> seq 0 (length c).

Definition same_cycle (c1 c2 : list string) : bool :=
  bool_decide (c2 ∈ rotations c1).

Definition distinct (cs : list (list string)) : list (list string) :=
  foldl (λ acc c, if existsb (same_cycle c) acc then acc else acc ++ [c]) [] cs.

Definition find_cycles (names : list string) : list (list string) :=
  distinct (traverse names).1.
End cycle_detection.

Definition graph_of (w : world) (n : string) : option (list string) :=
  '(_, md) ← module_at (_modules (container w)) n w; Some (dependencies md).

(** Modelled from the spec: lib/cycleDetection.js is not part of the
    sources at hand.  Following section 4.2: a depth-first traversal from
    every module that tracks the current path; a cycle is recorded when the
    traversal reaches a name already on the path, as the sub-path from that
    name's first occurrence to the current node; names fully explored
    without meeting a cycle are remembered across traversals; the result is
    the collection of distinct cycles, here as the module records on each.
    The result type leaves room for the exception that [resolve] guards
    against; the traversal described by the spec raises none. *)
Definition detectCycle (w : world) : value + list (list nat) :=
  let ms := _modules (container w) in
  inr (map (λ cyc : list string, omap (λ n, ms !! n) cyc)
           (find_cycles (graph_of w) (map fst (map_to_list ms)))).

(** ** Registration (container.js:61-140) *)

(** What [register] receives as [deps]: nothing, a function, or an array of
    names that may end with the function. *)
Inductive decl :=
| DeclNone
| DeclFn (f : jsfun)
| DeclArr (names : list string) (fn : option jsfun).

(** Modelled from the spec: lib/extractDep.js, which [extractDependencies]
    calls on a function, is not among the sources; by section 6 of the spec
    it yields the ordered parameter names of the callable. *)
Definition extractor (fn : jsfun) : list string := params fn.

(** [extractDependencies(deps)]: the dependency names and, when the
    declaration provides one, the function. *)
Definition extractDependencies (deps : decl) : list string * option jsfun :=
  match deps with
  | DeclFn fn => (extractor fn, Some fn)
  | DeclArr names (Some fn) => (names, Some fn)
  | DeclArr names None => (removelast names, None)
  | DeclNone => ([], None)
  end.

Definition in_names (n : string) (l : list string) : bool := bool_decide (n ∈ l).

Definition new_module (md : Module) (w : world) : nat * world :=
  (length (modules w), set_modules (modules w ++ [md]) w).

Definition register (name : value) (deps : decl) : M unit :=
  modifyM (λ w, set_container (set__cycles None (container w)) w) ;;
  match name with
  | VStr n =>
      if decide (n = "") then throwM (VErr "Must have a name")
      else
        match deps with
        | DeclNone => throwM (VErr ("Must give a function for module " +:+ n))
        | _ =>
            let '(dependencies, fn) := extractDependencies deps in
            match fn with
            | None => throwM (VErr ("Must give a function for module " +:+ n))
            | Some fn =>
                let install : M unit :=
                  let* m := liftM (new_module (new_Module n dependencies fn)) in
                  modifyM (λ w, set_container
                                  (set__modules (<[n := m]> (_modules (container w)))
                                     (container w)) w) in
                let* w := getM in
                let this := container w in
                match _modules this !! n with
                | Some old =>
                    if in_names n (mock_modules (options this)) then retM tt
                    else if in_names n (partial_mock_modules (options this)) then
                      modifyM (λ w, set_container
                                      (set__partial_modules
                                         (<[n := old]> (_partial_modules (container w)))
                                         (container w)) w) ;;
                      install
                    else throwM (VErr (n +:+ " already registered"))
                | None => install
                end
            end
        end
  | _ => throwM (VErr "Must have a name")
  end.

Definition isRegistered (moduleName : string) (w : world) : bool :=
  bool_decide (is_Some (_modules (container w) !! moduleName)).

Definition registerAndExport (name : value) (obj : value) : M value :=
  register name (DeclFn (mkFun [] (λ _, DReturn obj))) ;;
  match name with
  | VStr n =>
      let* w := getM in
      match _modules (container w) !! n with
      | Some m =>
          modifyM (update_module m (set_state resolved)) ;;
          modifyM (update_module m (set_exported obj)) ;;
          retM obj
      | None => retM obj
      end
  | _ => retM obj
  end.

(** ** Resolution (container.js:142-233) *)

Definition nl : string := String "010"%char "".

Definition msg_missing (n : string) : string := "Missing dependency `" +:+ n +:+ "`".
Definition msg_not_found (dep n : string) : string :=
  "Dependency not found " +:+ dep +:+ " for module " +:+ n.

Definition name_of (w : world) (m : nat) : string :=
  match modules w !! m with Some md => name md | None => "" end.

(** One cycle rendered as [m1 -> m2 -> ... -> m1]. *)
Definition prettyCycle (w : world) (cycle : list nat) : string :=
  String.concat " -> " ((name_of w <$> cycle) ++ (name_of w <$> take 1 cycle)).

Definition prettyCycles (w : world) (cycles : list (list nat)) : string :=
  String.concat nl (prettyCycle w <$> cycles).

Definition msg_circular (w : world) (n : string) (cycles : list (list nat)) : string :=
  "Circular dependency detected with " +:+ n +:+ ":" +:+ nl +:+ prettyCycles w cycles.

(** Lines 172-177: the cycles of the current graph, computed at most once
    between two registrations. *)
Definition ensure_cycles (w : world) : (value + list (list nat)) * world :=
  match _cycles (container w) with
  | Some cycles => (inr cycles, w)
  | None =>
      match detectCycle w with
      | inr cycles => (inr cycles, set_container (set__cycles (Some cycles) (container w)) w)
      | inl err => (inl err, w)
      end
  end.

(** The first declared dependency that is not registered (lines 160-169). *)
Definition first_missing (w : world) (deps : list string) : option string :=
  snd <$> list_find (λ dep, _modules (container w) !! dep = None) deps.

Definition new_cell (w : world) : nat * world :=
  (length (cells w), set_cells (cells w ++ [VUndef]) w).

Fixpoint resolve (fuel : nat) (name : string) (partial : bool) {struct fuel} : M value :=
  match fuel with
  | 0 => out_of_fuel
  | S fuel' =>
      let* w := getM in
      let this := container w in
      match module_at (if partial then _partial_modules this else _modules this) name w with
      | None => liftM (Promise_reject (VErr (msg_missing name)))
      | Some (m, module) =>
          match state module with
          | resolved => liftM (Promise_resolve (exported module))
          | st =>
              match first_missing w (dependencies module) with
              | Some dep => liftM (Promise_reject (VErr (msg_not_found dep name)))
              | None =>
                  let* found := liftM ensure_cycles in
                  match found with
                  | inl err => liftM (Promise_reject err)
                  | inr [] =>
                      match st with
                      | resolving => retM (resolvingPromise module)
                      | _ =>
                          modifyM (update_module m (set_state resolving)) ;;
                          let deps := omap (λ dep, _modules this !! dep) (dependencies module) in
                          let* dependencies :=
                            mapM_M (λ dep, let* w := getM in
                                           resolve fuel' (name_of w dep) false) deps in
                          let* all := liftM (Promise_all dependencies) in
                          let* bound := liftM (Promise_bind all) in
                          let* handle := Promise_then bound (CbDefine m name) in
                          modifyM (update_module m (set_resolvingPromise handle)) ;;
                          let* w := getM in
                          if bool_decide (is_Some (_partial_modules (container w) !! name))
                             && negb partial
                          then
                            let* cell := liftM new_cell in
                            let* shadow := resolve fuel' name true in
                            let* first := Promise_then shadow (CbPartial m cell) in
                            Promise_then first (CbOverlay cell)
                          else retM handle
                      end
                  | inr cycles =>
                      let* w := getM in
                      liftM (Promise_reject (VErr (msg_circular w name cycles)))
                  end
              end
          end
      end
  end.

(** ** The partial-mock overlay (container.js:235-241) *)

(** [Object.keys(v)]; [None] stands for the [TypeError] on [undefined] and
    [null]. *)
Definition own_keys (w : world) (v : value) : option (list string) :=
  match v with
  | VUndef | VNull => None
  | VObj o => Some (match objects w !! o with Some ob => fst <$> props ob | None => [] end)
  | VStr s => Some (index_keys (String.length s))
  | _ => Some []
  end.

Definition str_prop (s k : string) : value :=
  if decide (k = "length") then VNum (Z.of_nat (String.length s))
  else match list_find (λ i : nat, pretty i = k) (seq 0 (String.length s)) with
       | Some (i, _) =>
           match String.get i s with Some c => VStr (String c "") | None => VUndef end
       | None => VUndef
       end.

(** [v[k]]; [None] stands for the [TypeError] on [undefined] and [null]. *)
Definition get_prop (w : world) (v : value) (k : string) : option value :=
  match v with
  | VUndef | VNull => None
  | VObj o =>
      match objects w !! o with
      | Some ob =>
          Some (match assoc_get k (props ob) with
                | Some x => x
                | None => if is_array ob && bool_decide (k = "length")
                          then VNum (Z.of_nat (length (props ob))) else VUndef
                end)
      | None => Some VUndef
      end
  | VStr s => Some (str_prop s k)
  | VErr msg => Some (if decide (k = "message") then VStr msg else VUndef)
  | _ => Some VUndef
  end.

(** [v[k] = x] in strict mode; [None] stands for the [TypeError] on a
    primitive. *)
Definition set_prop (v : value) (k : string) (x : value) (w : world) : option world :=
  match v with
  | VObj o =>
      Some (set_objects
              (alter (λ ob, mkObject (is_array ob) (assoc_set k x (props ob))) o (objects w)) w)
  | _ => None
  end.

(** [x != undefined]. *)
Definition not_undefined (x : value) : bool :=
  match x with VUndef | VNull => false | _ => true end.

Fixpoint overlay_keys (keys : list string) (original_module partial_module : value)
    (w : world) : option world :=
  match keys with
  | [] => Some w
  | key :: keys' =>
      x ← get_prop w partial_module key;
      w' ← (if not_undefined x then set_prop original_module key x w else Some w);
      overlay_keys keys' original_module partial_module w'
  end.

Definition performPartialMock (original_module partial_module : value) (w : world)
  : option world :=
  keys ← own_keys w original_module;
  overlay_keys keys original_module partial_module w.

(** ** Running the callbacks *)

(** The arguments [Promise.try(fn, deps)] applies [fn] to: the elements of
    [deps] when it is an array, [deps] itself otherwise. *)
Definition call_args (deps : value) (w : world) : list value :=
  match deps with
  | VObj o =>
      match objects w !! o with
      | Some ob => if is_array ob then array_values ob else [deps]
      | None => [deps]
      end
  | _ => [deps]
  end.

(** [Promise.try(module.define, deps)] for the module record [m]. *)
Definition Promise_try (m : nat) (fn : jsfun) (deps : value) (w : world) : value * world :=
  let args := call_args deps w in
  let w0 := set_trace (Called m args :: trace w) w in
  match body fn args with
  | DReturn x =>
      let '(e, w1) := new_promise pending_promise w0 in
      (VPromise e, resolve_with e x w1)
  | DThrow err => Promise_reject err w0
  | DAwait =>
      let '(x, w1) := new_promise (mkPromise None [] [] true) w0 in
      let '(e, w2) := new_promise pending_promise w1 in
      (VPromise e, subscribe x (RFollow e) w2)
  end.

(** Running callback [cb] on the value [v]; [tgt] is the promise that
    [.then(cb)] returned. *)
Definition run_callback (cb : callback) (v : value) (tgt : nat) (w : world) : world :=
  match cb with
  | CbDefine m name =>
      match modules w !! m with
      | Some module =>
          let '(exported, w1) := Promise_try m (define module) v w in
          let w2 := update_module m (set_state resolved) w1 in
          let w3 := update_module m (set_exported exported) w2 in
          let w4 := set_container
                      (set__modules (<[name := m]> (_modules (container w3)))
                         (container w3)) w3 in
          resolve_with tgt exported w4
      | None => w
      end
  | CbPartial m cell =>
      let w1 := set_cells (<[cell := v]> (cells w)) w in
      let handle := match modules w !! m with
                    | Some module => resolvingPromise module
                    | None => VUndef
                    end in
      let '(x, w2) := Promise_resolve handle w1 in
      resolve_with tgt x w2
  | CbOverlay cell =>
      let resolved_partial_module := default VUndef (cells w !! cell) in
      match performPartialMock v resolved_partial_module w with
      | Some w1 => resolve_with tgt v w1
      | None => settle tgt (Rejected (VErr "TypeError")) w
      end
  end.

Definition fill_slot (t i : nat) (v : value) (w : world) : world :=
  match promises w !! t with
  | Some pr =>
      set_promises
        (<[t := mkPromise (settled pr) (reactions pr) (<[i := Some v]> (slots pr))
                  (external pr)]> (promises w)) w
  | None => w
  end.

Definition run_job (j : reaction * outcome) (w : world) : world :=
  match j with
  | (RThen cb tgt, Fulfilled v) => run_callback cb v tgt w
  | (RThen cb tgt, Rejected e) => settle tgt (Rejected e) w
  | (RFollow tgt, o) => settle tgt o w
  | (RAll tgt i, Fulfilled v) => finish_all tgt (fill_slot tgt i v w)
  | (RAll tgt i, Rejected e) => settle tgt (Rejected e) w
  end.

(** One turn of the event loop: the oldest queued reaction runs. *)
Definition tick (w : world) : option world :=
  match queue w with
  | [] => None
  | j :: q => Some (run_job j (set_queue q w))
  end.

Fixpoint run (fuel : nat) (w : world) : world :=
  match fuel with
  | 0 => w
  | S fuel' => match tick w with Some w' => run fuel' w' | None => w end
  end.

(** The environment settles an awaitable that a [define] returned. *)
Definition env_settle (p : nat) (o : outcome) (w : world) : world :=
  match promises w !! p, o with
  | Some pr, Fulfilled (VPromise _) => w
  | Some pr, _ => if external pr then settle p o w else w
  | None, _ => w
  end.

(** ** Operations on a container, as a client and the event loop perform
    them *)

Definition resolve_fuel (w : world) : nat := S (length (modules w)).

Definition exec {A} (m : M A) (w : world) : world :=
  match m w with Some (_, w') => w' | None => w end.

Inductive op :=
| OpRegister (name : value) (deps : decl)
| OpRegisterAndExport (name : value) (obj : value)
| OpResolve (name : string)
| OpTick
| OpSettle (p : nat) (o : outcome).

Definition apply_op (o : op) (w : world) : world :=
  match o with
  | OpRegister n d => exec (register n d) w
  | OpRegisterAndExport n obj => exec (registerAndExport n obj) w
  | OpResolve n => exec (resolve (resolve_fuel w) n false) w
  | OpTick => match tick w with Some w' => w' | None => w end
  | OpSettle p o => env_settle p o w
  end.

Definition apply_ops (ops : list op) (w : world) : world :=
  foldl (λ w o, apply_op o w) w ops.

(** The outcome of promise [p], if it has settled. *)
Definition outcome_of (w : world) (v : value) : option outcome :=
  match v with
  | VPromise p => pr ← promises w !! p; settled pr
  | _ => None
  end.

(** How often the [define] of module record [m] has been invoked. *)
Definition event_module (e : event) : nat :=
  match e with Called m _ => m end.

Definition calls_of (m : nat) (w : world) : nat :=
  length (filter (λ e, event_module e = m) (trace w)).

(** ** The dependency graph as text (container.js:286-303) *)

(** The order [_.sortBy] puts the records in: by [name], strings compared
    unit by unit as JavaScript does. *)
Definition name_le (a b : Module) : Prop := String.le (name a) (name b).

Definition name_le_dec (a b : Module) : Decision (name_le a b) :=
  decide (String.le (name a) (name b)).

(** [_.sortBy(modules, 'name')] *)
Definition sortBy_name (ms : list Module) : list Module :=
  @merge_sort Module name_le name_le_dec ms.

(** The values of [this._modules].  They are enumerated here in the order
    of the finite map; the records under different names have different
    names, so the sorted list does not depend on that order. *)
Definition registered_modules (w : world) : list Module :=
  omap (λ kv : string * nat, modules w !! kv.2) (map_to_list (_modules (container w))).

(** The dependencies a clause lists: all of them without an ignore list,
    those not in the list otherwise (an empty list is an ignore list
    too). *)
Definition listed (ignoreList : option (list string)) (deps : list string) : list string :=
  match ignoreList with
  | Some l => filter (λ dep, dep ∉ l) deps
  | None => deps
  end.

(** The callback of [_.reduce]. *)
Definition add_clause (ignoreList : option (list string)) (str : string) (module : Module)
  : string :=
  str +:+ name module +:+ " -> { "
      +:+ String.concat " " (listed ignoreList (dependencies module)) +:+ " } ".

Definition dotGraphSource (ignoreList : option (list string)) (w : world) : string :=
  foldl (add_clause ignoreList) "digraph DI { " (sortBy_name (registered_modules w)) +:+ " }".

(** [saveGraphToFile(path, ignoreList)]: the arguments it hands to
    [fs.writeFile]. *)
Definition saveGraphToFile (path : string) (ignoreList : option (list string)) (w : world)
  : string * string :=
  (path, dotGraphSource ignoreList w).

(** * The vocabulary of the properties *)

(** ** Error messages and the patterns the tests match them with *)

Definition lower_char (c : ascii) : ascii :=
  let n := nat_of_ascii c in
  if (65 <=? n)%nat && (n <=? 90)%nat then ascii_of_nat (n + 32) else c.

Fixpoint lower (s : string) : string :=
  match s with
  | EmptyString => EmptyString
  | String c s' => String (lower_char c) (lower s')
  end.

(** [msg] matches the pattern [/pat/i], for a pattern of plain lower-case
    text. *)
Definition matches_ci (pat msg : string) : Prop :=
  ∃ pre post, lower msg = pre +:+ pat +:+ post.

(** ** Registration *)

(** What every call of [register] does first: forget the cached cycles. *)
Definition invalidate (w : world) : world :=
  set_container (set__cycles None (container w)) w.

(** The name is a non-empty string. *)
Definition valid_name (name : value) : Prop :=
  ∃ n, name = VStr n ∧ n ≠ "".

(** The function a declaration provides, if any. *)
Definition callable_of (deps : decl) : option jsfun := (extractDependencies deps).2.

(** ** Resolution: the checks that come before any asynchronous work *)

(** The registry [resolve] looks the name up in. *)
Definition registry (partial : bool) (w : world) : gmap string nat :=
  if partial then _partial_modules (container w) else _modules (container w).

(** ** Cycle detection finds a cycle exactly when there is one *)

(** [n] is among the declared dependencies of the registered name [z]. *)
Definition dep_of (graph : string → option (list string)) (z n : string) : Prop :=
  ∃ deps, graph z = Some deps ∧ n ∈ deps.

(** An edge of the dependency graph: a declared dependency that is itself
    registered. *)
Definition edge (graph : string → option (list string)) (a b : string) : Prop :=
  dep_of graph a b ∧ is_Some (graph b).

Definition has_cycle (graph : string → option (list string)) : Prop :=
  ∃ x, tc (edge graph) x x.

(** The names explored so far, latest first: every edge of a name leads to
    a name explored before it. *)
Inductive topo (graph : string → option (list string)) : list string → Prop :=
| topo_nil : topo graph []
| topo_cons x rest :
    topo graph rest → x ∉ rest → (∀ y, edge graph x y → y ∈ rest) →
    topo graph (x :: rest).

(** ** The detector on the graph of a container *)

(** The cache of cycles, when filled, agrees with the current graph. *)
Definition cycles_coherent (w : world) : Prop := (ensure_cycles w).1 = detectCycle w.

(** A synchronous step that schedules nothing and runs no [define]: only
    the cycle cache and the store of promises may differ. *)
Definition nothing_started (w w' : world) : Prop :=
  modules w' = modules w ∧ queue w' = queue w ∧ trace w' = trace w
  ∧ objects w' = objects w ∧ cells w' = cells w
  ∧ _modules (container w') = _modules (container w)
  ∧ _partial_modules (container w') = _partial_modules (container w)
  ∧ (∀ p pr, promises w !! p = Some pr → promises w' !! p = Some pr).

(** ** Example containers, after the test suite *)

Definition str_of (v : value) : string :=
  match v with VStr s => s | _ => "?" end.

(** The string passed as argument number [i]. *)
Definition arg (i : nat) (args : list value) : string :=
  str_of (default VUndef (args !! i)).

(** A function with the given parameters that returns a string computed
    from its arguments. *)
Definition str_fun (ps : list string) (f : list value → string) : jsfun :=
  mkFun ps (λ args, DReturn (VStr (f args))).

Definition empty_world : world := world_init (mkOptions [] []) [].



(** The diamond [a -> {b, c}], [b -> d], [c -> d]; the module records of
    [d], [b], [c], [a] are numbers 0, 1, 2, 3. *)
Definition diamond_world (fa fb fc fd : list value → string) : world :=
  apply_ops
    [OpRegister (VStr "d") (DeclFn (str_fun [] fd));
     OpRegister (VStr "b") (DeclFn (str_fun ["d"] fb));
     OpRegister (VStr "c") (DeclFn (str_fun ["d"] fc));
     OpRegister (VStr "a") (DeclFn (str_fun ["b"; "c"] fa))]
    empty_world.

(** [resolve(n)] followed by the event loop until nothing is queued:
    the promise returned and the world reached. *)
Definition resolve_and_run (n : string) (w : world) : option (value * world) :=
  match resolve (resolve_fuel w) n false w with
  | Some (Ret v, w') => Some (v, run 100 w')
  | _ => None
  end.

(** The outcome [resolve(n)] settles with once the event loop has run and
    nothing is left queued. *)
Definition outcome_after (n : string) (w : world) : option outcome :=
  match resolve_and_run n w with
  | Some (v, w') => match queue w' with [] => outcome_of w' v | _ => None end
  | None => None
  end.

(** The world reached by [resolve(n)] and the event loop. *)
Definition world_after (n : string) (w : world) : world :=
  match resolve_and_run n w with Some (_, w') => w' | None => w end.


(** [mock_modules: {first: true}], then [first] registered twice. *)
Definition mock_world : world :=
  apply_ops
    [OpRegister (VStr "first") (DeclFn (str_fun [] (λ _, "mock")));
     OpRegister (VStr "first") (DeclFn (str_fun [] (λ _, "orig")))]
    (world_init (mkOptions ["first"] []) []).

(** [partial_mock_modules: {foo: true}]; the mock of [foo] returns object 0
    with [get_x() -> 150]; the real [foo], registered second, returns object
    1 with [get_x() -> 1] and [get_y() -> 2]. *)
Definition partial_mock_world : world :=
  apply_ops
    [OpRegister (VStr "foo") (DeclFn (mkFun [] (λ _, DReturn (VObj 0))));
     OpRegister (VStr "foo") (DeclFn (mkFun [] (λ _, DReturn (VObj 1))))]
    (world_init (mkOptions [] ["foo"])
       [mkObject false [("get_x", VFun 150)];
        mkObject false [("get_x", VFun 1); ("get_y", VFun 2)]]).

(** ** Registration errors (claim C8) *)

(** [first] registered once, with no mock set. *)
Definition first_world : world :=
  apply_ops [OpRegister (VStr "first") (DeclFn (str_fun [] (λ _, "one")))] empty_world.

(** ** Sharing an in-flight resolution (claim C2) *)

(** The diamond with [resolve("a")] called and the event loop not yet run:
    every module is in state [resolving]. *)
Definition diamond_started : world :=
  let w := diamond_world (λ _, "a") (λ _, "b") (λ _, "c") (λ _, "d") in
  exec (resolve (resolve_fuel w) "a" false) w.

(** ** The partial-mock overlay (claim C5) *)

(** What the overlay leaves under key [k] of the original object, whose
    value there was [v]: the value [G k] read from the other object unless
    that is [undefined] or [null]. *)
Definition overlay_value (G : string → value) (k : string) (v : value) : value :=
  if not_undefined (G k) then G k else v.

Definition overlay_table (G : string → value) (ps : list (string * value))
  : list (string * value) :=
  (λ kv, (kv.1, overlay_value G kv.1 kv.2)) <$> ps.

Definition overlay_step (G : string → value) (ps : list (string * value)) (k : string)
  : list (string * value) :=
  if not_undefined (G k) then assoc_set k (G k) ps else ps.

(** The value read from object [p] in world [w] under each key. *)
Definition reads (w : world) (p : nat) (k : string) : value :=
  default VUndef (get_prop w (VObj p) k).



(** ** What the promise library leaves alone *)

(** Two worlds with the same module records, registries, options and
    invocation trace: only promises, queue, objects, cells and the cycle
    cache may differ. *)
Definition same_registry (w w' : world) : Prop :=
  modules w' = modules w ∧ trace w' = trace w
  ∧ _modules (container w') = _modules (container w)
  ∧ _partial_modules (container w') = _partial_modules (container w)
  ∧ options (container w') = options (container w).

(** ** The life cycle of module records (claim C10) *)

Definition rank (s : mstate) : nat :=
  match s with registered => 0 | resolving => 1 | resolved => 2 end.

(** Every module record of [w] is still there in [w'], unchanged in name,
    dependencies and [define], and in the same or a later state. *)
Definition advances (w w' : world) : Prop :=
  ∀ m md, modules w !! m = Some md →
    ∃ md', modules w' !! m = Some md'
           ∧ rank (state md) ≤ rank (state md')
           ∧ name md' = name md ∧ dependencies md' = dependencies md
           ∧ define md' = define md.

(** [exported] still has its initial [null] in every record that is not
    resolved. *)
Definition unexported_until_resolved (w : world) : Prop :=
  ∀ m md, modules w !! m = Some md → state md ≠ resolved → exported md = VNull.

(** [exported] is not [null] in any resolved record. *)
Definition exported_once_resolved (w : world) : Prop :=
  ∀ m md, modules w !! m = Some md → state md = resolved → exported md ≠ VNull.

(** The claim as the spec words it. *)
Definition exported_iff_resolved (w : world) : Prop :=
  ∀ m md, modules w !! m = Some md → (exported md ≠ VNull ↔ state md = resolved).

Definition count_registered (w : world) : nat :=
  length (filter (λ md, state md = registered) (modules w)).

(** What a step of the container may do to the module records. *)
Definition lifecycle_step (w w' : world) : Prop :=
  advances w w'
  ∧ (unexported_until_resolved w → unexported_until_resolved w')
  ∧ (exported_once_resolved w → exported_once_resolved w').

(** What a synchronous call of [resolve] may do: besides, it registers
    nothing and runs no [define]. *)
Definition sync_step (w w' : world) : Prop :=
  lifecycle_step w w'
  ∧ count_registered w' ≤ count_registered w
  ∧ trace w' = trace w
  ∧ _modules (container w') = _modules (container w)
  ∧ _partial_modules (container w') = _partial_modules (container w)
  ∧ options (container w') = options (container w).

(** ** [resolve] returns, and what it may change *)

(** [m] returns from [w] (normally or by throwing) in a world that
    satisfies [Q]. *)
Definition returns {A} (m : M A) (w : world) (Q : world → Prop) : Prop :=
  ∃ r w', m w = Some (r, w') ∧ Q w'.

(** [m] returns from every world with fewer than [k] records in state
    [registered], by a [sync_step]. *)
Definition sync (k : nat) {A} (m : M A) : Prop :=
  ∀ w, count_registered w < k → returns m w (sync_step w).

(** What [resolve] does once it has put the module in state [resolving]
    (lines 198-232), with [rec] for the recursive calls. *)
Definition resolve_started (rec : string → bool → M value) (m : nat) (module : Module)
    (name : string) (partial : bool) (this : Container) : M value :=
  let deps := omap (λ dep, _modules this !! dep) (dependencies module) in
  let* dependencies :=
    mapM_M (λ dep, let* w := getM in rec (name_of w dep) false) deps in
  let* all := liftM (Promise_all dependencies) in
  let* bound := liftM (Promise_bind all) in
  let* handle := Promise_then bound (CbDefine m name) in
  modifyM (update_module m (set_resolvingPromise handle)) ;;
  let* w := getM in
  if bool_decide (is_Some (_partial_modules (container w) !! name)) && negb partial
  then
    let* cell := liftM new_cell in
    let* shadow := rec name true in
    let* first := Promise_then shadow (CbPartial m cell) in
    Promise_then first (CbOverlay cell)
  else retM handle.

(** Marking record [m] resolved and storing [v] in [exported] (lines 137-138
    and 213-214). *)
Definition mark_resolved (m : nat) (v : value) (w : world) : world :=
  update_module m (set_exported v) (update_module m (set_state resolved) w).

(** The operation does not hand [null] to [registerAndExport]. *)
Definition exports_nonnull (o : op) : Prop :=
  match o with OpRegisterAndExport _ obj => obj ≠ VNull | _ => True end.

(** ** Failed resolutions stay failed (claim C6) *)



(** ** Dependencies reach [define] in declared order (claim C7) *)










(** ** Each [define] runs at most once *)

(** Whether running callback [cb] invokes the [define] of record [m]. *)
Definition cb_weight (m : nat) (cb : callback) : nat :=
  match cb with
  | CbDefine m' _ => if decide (m' = m) then 1 else 0
  | _ => 0
  end.

Definition weight (m : nat) (r : reaction) : nat :=
  match r with RThen cb _ => cb_weight m cb | _ => 0 end.

(** The callbacks of line 211 for record [m] that are waiting: attached to a
    pending promise, or queued. *)
Definition pending_define (m : nat) (w : world) : nat :=
  sum_list_with (λ pr, sum_list_with (weight m) (reactions pr)) (promises w)
  + sum_list_with (λ j : reaction * outcome, weight m j.1) (queue w).

(** 1 while record [m] has not left state [registered] (or does not exist
    yet). *)
Definition unstarted (m : nat) (w : world) : nat :=
  match modules w !! m with
  | Some md => if decide (state md = registered) then 1 else 0
  | None => 1
  end.

(** Invocations of the [define] of [m] so far, plus those that can still
    come. *)
Definition budget (m : nat) (w : world) : nat :=
  pending_define m w + calls_of m w + unstarted m w.

(** From [w] to [w'] the budget of each record [m] grows by at most
    [s m]. *)
Definition budget_step (s : nat → nat) (w w' : world) : Prop :=
  ∀ m, budget m w' ≤ budget m w + s m.

Definition no_slack : nat → nat := λ _, 0.

Definition keeps_at (s : nat → nat) {A} (c : M A) (w : world) : Prop :=
  ∀ r w', c w = Some (r, w') → budget_step s w w'.

Definition keeps (s : nat → nat) {A} (c : M A) : Prop := ∀ w, keeps_at s c w.

(** ** Resolving again (claims C1 and C2) *)

(** The outcome a promise made by [Promise.resolve(x)] has or takes over. *)
Definition outcome_of_value (w : world) (x : value) : option outcome :=
  match x with
  | VPromise q => outcome_of w (VPromise q)
  | _ => Some (Fulfilled x)
  end.

(** ** Successful registrations (container.js:108-124) *)

(** Lines 119-123: a new record for [n] is appended to the store and
    [this._modules[n]] is pointed at it.  The registries are finite maps
    from names to records: as for property reads, the names every
    JavaScript object inherits ([toString], [constructor], ...) are not
    represented. *)
Definition install (n : string) (ds : list string) (fn : jsfun) (w : world) : world :=
  let w1 := set_modules (modules w ++ [new_Module n ds fn]) w in
  set_container (set__modules (<[n := length (modules w)]> (_modules (container w1)))
                   (container w1)) w1.

(** Line 113: the active record of [n] becomes its shadow. *)
Definition shadow (n : string) (old : nat) (w : world) : world :=
  set_container (set__partial_modules (<[n := old]> (_partial_modules (container w)))
                   (container w)) w.

(** ** Names stay registered *)

(** Every name registered in [w], as an active or as a shadow module, is
    still registered in [w'], and the options are the same. *)
Definition registrations_kept (w w' : world) : Prop :=
  (∀ n, is_Some (_modules (container w) !! n) → is_Some (_modules (container w') !! n))
  ∧ (∀ n, is_Some (_partial_modules (container w) !! n) →
          is_Some (_partial_modules (container w') !! n))
  ∧ options (container w') = options (container w).

(** ** [registerAndExport] (container.js:135-140) *)

(** The function [registerAndExport] wraps the object in (line 136). *)
Definition constant_fn (obj : value) : jsfun := mkFun [] (λ _, DReturn obj).

(** ** The text of the dependency graph *)


(** Two containers with the same two modules, registered in either
    order. *)
Definition graph_world (first second : string) : world :=
  apply_ops
    [OpRegister (VStr first) (DeclArr ["z"] (Some (mkFun [] (λ _, DReturn VNull))));
     OpRegister (VStr second) (DeclArr ["z"] (Some (mkFun [] (λ _, DReturn VNull))))]
    empty_world.

(** ** What the waiting callbacks refer to *)

(** Reaction [r] is attached to a promise or queued. *)
Definition waiting (w : world) (r : reaction) : Prop :=
  (∃ p pr, promises w !! p = Some pr ∧ r ∈ reactions pr) ∨ (∃ o, (r, o) ∈ queue w).

(** A callback of line 211 for record [m] and name [n] is waiting. *)
Definition define_waiting (w : world) (m : nat) (n : string) : Prop :=
  ∃ t, waiting w (RThen (CbDefine m n) t).

(** A step of the promise library: container and module records stay, and
    no callback of line 211 is added. *)
Definition quiet_step (w w' : world) : Prop :=
  container w' = container w ∧ modules w' = modules w
  ∧ ∀ m n, define_waiting w' m n → define_waiting w m n.

(** [r] is not a callback of line 211. *)
Definition other_reaction (r : reaction) : Prop :=
  match r with RThen (CbDefine _ _) _ => False | _ => True end.

(** *** The invariants *)

(** Record [m] exists and is called [n]. *)
Definition named (w : world) (m : nat) (n : string) : Prop :=
  ∃ md, modules w !! m = Some md ∧ name md = n.

(** Each registry maps a name to a record of that name, and every waiting
    callback of line 211 holds a record and its name. *)
Definition well_named (w : world) : Prop :=
  (∀ n m, _modules (container w) !! n = Some m → named w m n)
  ∧ (∀ n m, _partial_modules (container w) !! n = Some m → named w m n)
  ∧ (∀ m n, define_waiting w m n → named w m n).

Definition no_partial_mocks (w : world) : Prop :=
  partial_mock_modules (options (container w)) = [].

(** There is no shadow module, every waiting callback of line 211 holds the
    active record of its name, and the cached cycles are those of the
    current graph. *)
Definition cache_fresh (w : world) : Prop :=
  _partial_modules (container w) = ∅
  ∧ (∀ m n, define_waiting w m n → _modules (container w) !! n = Some m)
  ∧ cycles_coherent w.

Definition container_inv (w : world) : Prop :=
  well_named w ∧ (no_partial_mocks w → cache_fresh w).

(** ** The registries and the cycle cache in reachable worlds *)

(** [a] waits for [b]; [c] is resolved, which fills the cache of cycles;
    then [b] is registered and closes the cycle [a -> b -> a]. *)
Definition late_cycle_ops : list op :=
  [OpRegister (VStr "a") (DeclFn (str_fun ["b"] (arg 0)));
   OpRegister (VStr "c") (DeclFn (str_fun [] (λ _, "c")));
   OpResolve "c"; OpTick; OpTick; OpTick;
   OpRegister (VStr "b") (DeclFn (str_fun ["a"] (arg 0)))].

(** ** A module without dependencies, from [resolve] to its value *)

(** The world [resolve] leaves for a module without dependencies (record
    [m], name [n]) that is in state [registered]: the aggregate of no
    promise is fulfilled with the empty array at once, its follower from
    [.bind] is queued to adopt that, and the callback of line 211 waits on
    the follower. *)
Definition started (m : nat) (n : string) (w : world) : world :=
  let P := length (promises w) in
  let O := length (objects w) in
  mkWorld (container w)
    (alter (set_resolvingPromise (VPromise (P + 2))) m
       (alter (set_state resolving) m (modules w)))
    (promises w ++ [mkPromise (Some (Fulfilled (VObj O))) [] [] false;
                    mkPromise None [RThen (CbDefine m n) (P + 2)] [] false;
                    pending_promise])
    (objects w ++ [mk_array []]) (cells w)
    (queue w ++ [(RFollow (P + 1), Fulfilled (VObj O))]) (trace w).

(** [x] is not a promise. *)
Definition plain (x : value) : Prop := ∀ q, x ≠ VPromise q.

(** The world three turns of the event loop later, when the queue was empty
    and [define], applied to no argument, returned [x]: the follower has
    adopted the empty array, the callback of line 211 has run [define],
    marked the record resolved, stored the promise of [Promise.try] in
    [exported] and re-pointed [_modules[n]], and the promise [resolve]
    returned has adopted the value. *)
Definition finished (m : nat) (n : string) (x : value) (w : world) : world :=
  let P := length (promises w) in
  let O := length (objects w) in
  mkWorld (set__modules (<[n := m]> (_modules (container w))) (container w))
    (alter (set_exported (VPromise (P + 3))) m
       (alter (set_state resolved) m
          (alter (set_resolvingPromise (VPromise (P + 2))) m
             (alter (set_state resolving) m (modules w)))))
    (promises w ++ [mkPromise (Some (Fulfilled (VObj O))) [] [] false;
                    mkPromise (Some (Fulfilled (VObj O))) [] [] false;
                    mkPromise (Some (Fulfilled x)) [] [] false;
                    mkPromise (Some (Fulfilled x)) [] [] false])
    (objects w ++ [mk_array []]) (cells w) [] (Called m [] :: trace w).

(** * Properties *)

Ltac unfold_M :=
  unfold bindM, retM, throwM, getM, modifyM, liftM, out_of_fuel in *.

(** ** Error messages and the patterns the tests match them with *)

Lemma append_cons (c : ascii) (s t : string) : String c s +:+ t = String c (s +:+ t).
Proof. reflexivity. Qed.

Lemma lower_app (s t : string) : lower (s +:+ t) = lower s +:+ lower t.
Proof.
  induction s as [|c s IH]; [done|].
  rewrite append_cons. simpl. by rewrite IH, append_cons.
Qed.


(** ** Registration *)

Lemma register_no_name (name : value) (deps : decl) (w : world) :
  ¬ valid_name name →
  register name deps w = Some (Thrown (VErr "Must have a name"), invalidate w).
Proof.
  intros Hn. unfold register. unfold_M. simpl.
  destruct name; try done.
  destruct (decide (s = "")) as [->|Hs]; [done|].
  exfalso. apply Hn. by exists s.
Qed.

Lemma register_no_function (n : string) (deps : decl) (w : world) :
  n ≠ "" → callable_of deps = None →
  register (VStr n) deps w
  = Some (Thrown (VErr ("Must give a function for module " +:+ n)), invalidate w).
Proof.
  intros Hn Hc. unfold register. unfold_M. simpl.
  destruct (decide (n = "")) as [|_]; [done|].
  unfold callable_of in Hc.
  destruct deps as [|f|names [f|]]; simpl in *; try done.
Qed.

Lemma register_duplicate (n : string) (deps : decl) (fn : jsfun) (old : nat) (w : world) :
  n ≠ "" → callable_of deps = Some fn →
  _modules (container w) !! n = Some old →
  n ∉ mock_modules (options (container w)) →
  n ∉ partial_mock_modules (options (container w)) →
  register (VStr n) deps w
  = Some (Thrown (VErr (n +:+ " already registered")), invalidate w).
Proof.
  intros Hn Hc Hold Hm Hp. unfold register. unfold_M. simpl.
  destruct (decide (n = "")) as [|_]; [done|].
  unfold callable_of in Hc. unfold in_names.
  destruct deps as [|f|names [f|]]; simpl in *; try done;
    rewrite Hold; rewrite !bool_decide_eq_false_2 by done; done.
Qed.

(** A registration of a registered name in the full-mock set is dropped. *)
Lemma register_mocked (n : string) (deps : decl) (fn : jsfun) (old : nat) (w : world) :
  n ≠ "" → callable_of deps = Some fn →
  _modules (container w) !! n = Some old →
  n ∈ mock_modules (options (container w)) →
  register (VStr n) deps w = Some (Ret tt, invalidate w).
Proof.
  intros Hn Hc Hold Hm. unfold register. unfold_M. simpl.
  destruct (decide (n = "")) as [|_]; [done|].
  unfold callable_of in Hc. unfold in_names.
  destruct deps as [|f|names [f|]]; simpl in *; try done;
    rewrite Hold; rewrite bool_decide_eq_true_2 by done; done.
Qed.

(** ** Resolution: the checks that come before any asynchronous work *)


Lemma resolve_cached (fuel : nat) (n : string) (partial : bool) (w : world)
    (m : nat) (md : Module) :
  module_at (registry partial w) n w = Some (m, md) →
  state md = resolved →
  resolve (S fuel) n partial w
  = Some (Ret (Promise_resolve (exported md) w).1, (Promise_resolve (exported md) w).2).
Proof.
  intros Hm Hs. simpl. unfold_M. unfold registry in Hm.
  destruct partial; simpl in *; rewrite Hm, Hs;
    by destruct (Promise_resolve (exported md) w).
Qed.


Lemma resolve_circular (fuel : nat) (n : string) (partial : bool) (w : world)
    (m : nat) (md : Module) (c : list nat) (cycles : list (list nat)) :
  module_at (registry partial w) n w = Some (m, md) →
  state md ≠ resolved →
  first_missing w (dependencies md) = None →
  (ensure_cycles w).1 = inr (c :: cycles) →
  let w1 := (ensure_cycles w).2 in
  resolve (S fuel) n partial w
  = Some (Ret (VPromise (length (promises w1))),
          set_promises
            (promises w1
               ++ [mkPromise (Some (Rejected (VErr (msg_circular w1 n (c :: cycles))))) [] [] false])
            w1).
Proof.
  intros Hm Hs Hd Hc w1. subst w1. simpl. unfold_M. unfold registry in Hm.
  destruct (ensure_cycles w) as [found w1] eqn:He. simpl in Hc. subst found.
  destruct partial; simpl in *; rewrite Hm, Hd; destruct (state md); try done;
    rewrite He; done.
Qed.

Lemma resolve_in_flight (fuel : nat) (n : string) (partial : bool) (w : world)
    (m : nat) (md : Module) :
  module_at (registry partial w) n w = Some (m, md) →
  state md = resolving →
  first_missing w (dependencies md) = None →
  (ensure_cycles w).1 = inr [] →
  resolve (S fuel) n partial w = Some (Ret (resolvingPromise md), (ensure_cycles w).2).
Proof.
  intros Hm Hs Hd Hc. simpl. unfold_M. unfold registry in Hm.
  destruct (ensure_cycles w) as [found w1] eqn:He. simpl in Hc. subst found.
  destruct partial; simpl in *; rewrite Hm, Hd, Hs, He; done.
Qed.

(** [ensure_cycles] touches nothing but the cache. *)
Lemma ensure_cycles_frame (w : world) :
  let w' := (ensure_cycles w).2 in
  modules w' = modules w ∧ promises w' = promises w ∧ objects w' = objects w
  ∧ cells w' = cells w ∧ queue w' = queue w ∧ trace w' = trace w
  ∧ _modules (container w') = _modules (container w)
  ∧ _partial_modules (container w') = _partial_modules (container w)
  ∧ options (container w') = options (container w).
Proof.
  unfold ensure_cycles. destruct (_cycles (container w)); simpl; [done|].
  destruct (detectCycle w); simpl; done.
Qed.

(** ** Cycle detection finds a cycle exactly when there is one *)

Section cycle_facts.
Variable graph : string → option (list string).
Variable names : list string.
Hypothesis names_complete : ∀ x, is_Some (graph x) → x ∈ names.

Lemma topo_closed (l : list string) (x y : string) :
  topo graph l → x ∈ l → edge graph x y → y ∈ l.
Proof.
  induction 1 as [|x0 rest Ht IH Hx0 Hout]; intros Hx He.
  - by apply elem_of_nil in Hx.
  - apply elem_of_cons in Hx as [->|Hx]; apply elem_of_cons; right; auto.
Qed.

Lemma topo_closed_tc (l : list string) (x y : string) :
  topo graph l → x ∈ l → tc (edge graph) x y → y ∈ l.
Proof.
  intros Ht Hx Htc. induction Htc as [x y He|x y z He Htc IH].
  - eauto using topo_closed.
  - apply IH. eauto using topo_closed.
Qed.

Lemma topo_acyclic (l : list string) (x : string) :
  topo graph l → x ∈ l → ¬ tc (edge graph) x x.
Proof.
  induction 1 as [|x0 rest Ht IH Hx0 Hout]; intros Hx Htc.
  - by apply elem_of_nil in Hx.
  - apply elem_of_cons in Hx as [->|Hx]; [|by apply IH].
    apply Hx0. inversion Htc as [? ? He|? y ? He Hrest]; subst.
    + by apply Hout.
    + eapply topo_closed_tc; [done| |done]. by apply Hout.
Qed.

(** The step of the two folds in [visit] and [traverse]. *)
Definition explore (fuel : nat) (path : list string)
    (acc : list (list string) * list string) (dep : string)
  : list (list string) * list string :=
  let '(c, d) := visit graph fuel path acc.2 dep in (acc.1 ++ c, d).

Lemma visit_step (fuel : nat) (path done : list string) (n : string) :
  visit graph (S fuel) path done n
  = if decide (n ∈ path) then ([path_from n path], done)
    else if decide (n ∈ done) then ([], done)
    else match graph n with
         | None => ([], done)
         | Some deps =>
             let '(cs, done') := foldl (explore fuel (path ++ [n])) ([], done) deps in
             (cs, match cs with [] => n :: done' | _ => done' end)
         end.
Proof. reflexivity. Qed.

Definition visit_pre (fuel : nat) (path done : list string) : Prop :=
  topo graph done ∧ NoDup path ∧ (∀ x, x ∈ path → is_Some (graph x))
  ∧ (∀ x, x ∈ path → x ∉ done) ∧ length names < fuel + length path.

Definition visit_post (path done : list string) (n : string)
    (r : list (list string) * list string) : Prop :=
  topo graph r.2 ∧ (∀ x, x ∈ done → x ∈ r.2) ∧ (∀ x, x ∈ path → x ∉ r.2)
  ∧ (r.1 = [] → is_Some (graph n) → n ∈ r.2).

Lemma path_bounded (path : list string) :
  NoDup path → (∀ x, x ∈ path → is_Some (graph x)) → length path ≤ length names.
Proof.
  intros Hnd Hreg. apply submseteq_length, NoDup_submseteq; [done|].
  intros x Hx. apply names_complete, Hreg, Hx.
Qed.

Lemma explore_fold_ok (fuel : nat) (path : list string) (deps : list string) :
  (∀ done n, visit_pre fuel path done →
             visit_post path done n (visit graph fuel path done n)) →
  ∀ acc,
    topo graph acc.2 → NoDup path → (∀ x, x ∈ path → is_Some (graph x)) →
    (∀ x, x ∈ path → x ∉ acc.2) → length names < fuel + length path →
    let r := foldl (explore fuel path) acc deps in
    topo graph r.2 ∧ (∀ x, x ∈ acc.2 → x ∈ r.2) ∧ (∀ x, x ∈ path → x ∉ r.2)
    ∧ (r.1 = [] → acc.1 = [] ∧ ∀ d, d ∈ deps → is_Some (graph d) → d ∈ r.2).
Proof.
  intros Hvisit. induction deps as [|d ds IH]; intros acc Ht Hnd Hreg Hdisj Hfuel; simpl.
  - repeat split; try done. intros d Hd. by apply elem_of_nil in Hd.
  - destruct (Hvisit acc.2 d) as (Ht1 & Hsub1 & Hdisj1 & Hin1); [by repeat split|].
    destruct (visit graph fuel path acc.2 d) as [c dn] eqn:Hv.
    assert (Hexp : explore fuel path acc d = (acc.1 ++ c, dn))
      by (unfold explore; by rewrite Hv).
    rewrite Hexp. simpl in *.
    destruct (IH (acc.1 ++ c, dn)) as (Ht2 & Hsub2 & Hdisj2 & Hin2); try done.
    split; [done|]. split; [|split; [done|]].
    + intros x Hx. apply Hsub2, Hsub1, Hx.
    + intros Hnil. destruct (Hin2 Hnil) as [Happ Hds]. simpl in *.
      apply app_eq_nil in Happ as [Hacc ->]. split; [done|].
      intros d' Hd' Hreg'.
      apply elem_of_cons in Hd' as [->|Hd']; [|by apply Hds].
      apply Hsub2. simpl. by apply Hin1.
Qed.

Lemma visit_ok (fuel : nat) (path done : list string) (n : string) :
  visit_pre fuel path done → visit_post path done n (visit graph fuel path done n).
Proof.
  revert path done n. induction fuel as [|fuel IH]; intros path done n (Ht & Hnd & Hreg & Hdisj & Hfuel).
  - pose proof (path_bounded path Hnd Hreg). lia.
  - rewrite visit_step.
    destruct (decide (n ∈ path)) as [Hin|Hnin]; [by repeat split|].
    destruct (decide (n ∈ done)) as [Hdone|Hndone]; [by repeat split|].
    destruct (graph n) as [deps|] eqn:Hg.
    2: { unfold visit_post. simpl. split_and!; try done.
         intros _ [? Hsome]. rewrite Hg in Hsome. discriminate. }
    assert (Hnd' : NoDup (path ++ [n])).
    { apply NoDup_app. repeat split; [done| |apply NoDup_singleton].
      intros x Hx ->%list_elem_of_singleton. done. }
    assert (Hreg' : ∀ x, x ∈ path ++ [n] → is_Some (graph x)).
    { intros x [Hx| ->%list_elem_of_singleton]%elem_of_app; [by apply Hreg|by rewrite Hg]. }
    assert (Hdisj' : ∀ x, x ∈ path ++ [n] → x ∉ done).
    { intros x [Hx| ->%list_elem_of_singleton]%elem_of_app; [by apply Hdisj|done]. }
    assert (Hfuel' : length names < fuel + length (path ++ [n])).
    { rewrite length_app. simpl. lia. }
    destruct (explore_fold_ok fuel (path ++ [n]) deps (IH (path ++ [n])) ([], done))
      as (Ht2 & Hsub2 & Hdisj2 & Hin2); try done.
    destruct (foldl (explore fuel (path ++ [n])) ([], done) deps) as [cs done'] eqn:Hf.
    simpl in *. destruct cs as [|c cs].
    + destruct (Hin2 eq_refl) as [_ Hdeps]. simpl. repeat split.
      * constructor; [done| |].
        -- apply Hdisj2, elem_of_app. right. by apply list_elem_of_singleton.
        -- intros y [(deps' & Hg' & Hy) Hyreg]. rewrite Hg in Hg'. injection Hg' as <-.
           by apply Hdeps.
      * intros x Hx. apply elem_of_cons. right. by apply Hsub2.
      * intros x Hx [->|Hx']%elem_of_cons; [done|].
        eapply Hdisj2; [|done]. apply elem_of_app. by left.
      * intros _ _. apply elem_of_cons. by left.
    + simpl. repeat split; try done.
      intros x Hx. apply Hdisj2, elem_of_app. by left.
Qed.




Lemma traverse_explore (ns : list string) :
  traverse graph ns = foldl (explore (S (length ns)) []) ([], []) ns.
Proof. reflexivity. Qed.

Lemma traverse_complete : has_cycle graph → (traverse graph names).1 ≠ [].
Proof.
  intros [x Hx] Hnil. rewrite traverse_explore in Hnil.
  remember (S (length names)) as fuel eqn:Hfuel.
  destruct (explore_fold_ok fuel [] names (λ seen n, visit_ok fuel [] seen n) ([], []))
    as (Ht & _ & _ & Hin).
  - constructor.
  - constructor.
  - intros y Hy. by apply elem_of_nil in Hy.
  - intros y Hy. by apply elem_of_nil in Hy.
  - simpl. lia.
  - destruct (Hin Hnil) as [_ Hall].
    assert (Hreg : is_Some (graph x)).
    { inversion Hx as [? ? [(deps & Hg & _) _]|? ? ? [(deps & Hg & _) _] _]; subst;
        by rewrite Hg. }
    eapply topo_acyclic; [exact Ht| |exact Hx].
    apply Hall; [|exact Hreg]. by apply names_complete.
Qed.


Lemma distinct_nil (cs : list (list string)) : distinct cs = [] ↔ cs = [].
Proof.
  split; [|by intros ->].
  unfold distinct.
  assert (Hkeep : ∀ l acc, acc ≠ [] →
    foldl (λ acc c, if existsb (same_cycle c) acc then acc else acc ++ [c]) acc l ≠ []).
  { induction l as [|c l IH]; intros acc Hacc; simpl; [done|].
    apply IH. destruct (existsb (same_cycle c) acc); [done|].
    intros [_ ?]%app_eq_nil. done. }
  destruct cs as [|c cs]; [done|]. simpl. intros Hnil. exfalso.
  by eapply (Hkeep cs [c]).
Qed.

Lemma find_cycles_complete : has_cycle graph → find_cycles graph names ≠ [].
Proof.
  intros Hc Hnil. unfold find_cycles in Hnil.
  apply (proj1 (distinct_nil _)) in Hnil.
  exact (traverse_complete Hc Hnil).
Qed.


End cycle_facts.

(** ** The detector on the graph of a container *)

Lemma graph_of_names (w : world) (x : string) :
  is_Some (graph_of w x) → x ∈ map fst (map_to_list (_modules (container w))).
Proof.
  intros [deps Hg]. unfold graph_of, module_at in Hg.
  destruct (_modules (container w) !! x) as [m|] eqn:Hm; [|done].
  apply list_elem_of_fmap. exists (x, m). split; [done|].
  by apply elem_of_map_to_list.
Qed.

Lemma detectCycle_complete (w : world) :
  has_cycle (graph_of w) → ∃ c cycles, detectCycle w = inr (c :: cycles).
Proof.
  intros Hc. unfold detectCycle.
  pose proof (find_cycles_complete (graph_of w) _ (graph_of_names w) Hc) as Hne.
  destruct (find_cycles (graph_of w) (map fst (map_to_list (_modules (container w)))))
    as [|c cs]; [done|].
  simpl. eauto.
Qed.


Lemma cycles_coherent_fresh (w : world) :
  _cycles (container w) = None → cycles_coherent w.
Proof.
  intros Hc. unfold cycles_coherent, ensure_cycles. rewrite Hc.
  by destruct (detectCycle w).
Qed.

Lemma outcome_of_new (w : world) (pr : promise) :
  outcome_of (set_promises (promises w ++ [pr]) w) (VPromise (length (promises w)))
  = settled pr.
Proof. unfold outcome_of. simpl. by rewrite list_lookup_middle. Qed.



Lemma nothing_started_ensure (w : world) : nothing_started w (ensure_cycles w).2.
Proof.
  destruct (ensure_cycles_frame w) as (? & Hp & ? & ? & ? & ? & ? & ? & ?).
  repeat split; try done. intros p pr. by rewrite Hp.
Qed.

(** ** Missing dependencies (claim C4) *)





(** ** Circular dependencies (claim C3) *)

Lemma msg_circular_frame (w w' : world) (n : string) (cycles : list (list nat)) :
  modules w' = modules w → msg_circular w' n cycles = msg_circular w n cycles.
Proof.
  intros Hm. unfold msg_circular, prettyCycles. do 5 f_equal.
  assert (Hn : ∀ l : list nat, name_of w' <$> l = name_of w <$> l).
  { intros l. apply list_fmap_ext. intros i m _. unfold name_of. by rewrite Hm. }
  apply list_fmap_ext. intros i cycle _. unfold prettyCycle. by rewrite !Hn.
Qed.



Lemma diamond_world_resolves (fa fb fc fd : list value → string) :
  outcome_after "a" (diamond_world fa fb fc fd)
  = Some (Fulfilled (VStr (fa [VStr (fb [VStr (fd [])]); VStr (fc [VStr (fd [])])]))).
Proof. vm_compute. reflexivity. Qed.



(** ** Registration errors (claim C8) *)

(** C8.  [register] throws synchronously: "Must have a name" when the name
    is not a non-empty string; "Must give a function for module name" when
    the name is valid and the declaration provides no function; "name
    already registered" when the name is valid, the declaration provides a
    function, and the name is registered without being in the full-mock or
    the partial-mock set.  Each message matches the pattern the tests use.
    Nothing but the cached cycles changes. *)
Theorem register_errors_are_thrown (name : value) (deps : decl) (w : world) :
  (¬ valid_name name →
   register name deps w = Some (Thrown (VErr "Must have a name"), invalidate w)
   ∧ matches_ci "must have a name" "Must have a name")
  ∧ (∀ n, name = VStr n → n ≠ "" → callable_of deps = None →
     register name deps w
     = Some (Thrown (VErr ("Must give a function for module " +:+ n)), invalidate w)
     ∧ matches_ci "must give a function" ("Must give a function for module " +:+ n))
  ∧ (∀ n fn old, name = VStr n → n ≠ "" → callable_of deps = Some fn →
     _modules (container w) !! n = Some old →
     n ∉ mock_modules (options (container w)) →
     n ∉ partial_mock_modules (options (container w)) →
     register name deps w
     = Some (Thrown (VErr (n +:+ " already registered")), invalidate w)
     ∧ matches_ci "already registered" (n +:+ " already registered")).
Proof.
  split; [|split].
  - intros Hn. split; [by apply register_no_name|]. by exists "", "".
  - intros n -> Hn Hc. split; [by apply register_no_function|].
    exists "", (" for module " +:+ lower n). by rewrite lower_app.
  - intros n fn old -> Hn Hc Hold Hm Hp. split; [by eapply register_duplicate|].
    exists (lower n +:+ " "), "". rewrite lower_app.
    induction (lower n) as [|c s IH]; [done|]. by rewrite !append_cons, IH.
Qed.

Lemma register_errors_witness :
  register (VObj 0) DeclNone empty_world
  = Some (Thrown (VErr "Must have a name"), invalidate empty_world)
  ∧ register (VStr "foo") DeclNone empty_world
    = Some (Thrown (VErr "Must give a function for module foo"), invalidate empty_world)
  ∧ register (VStr "first") (DeclFn (str_fun [] (λ _, "two"))) first_world
    = Some (Thrown (VErr "first already registered"), invalidate first_world).
Proof.
  split; [|split].
  - destruct (register_errors_are_thrown (VObj 0) DeclNone empty_world) as (H & _).
    apply H. intros (n & Hn & _). discriminate.
  - destruct (register_errors_are_thrown (VStr "foo") DeclNone empty_world) as (_ & H & _).
    by apply (H "foo").
  - destruct (register_errors_are_thrown (VStr "first") (DeclFn (str_fun [] (λ _, "two")))
                first_world) as (_ & _ & H).
    apply (H "first" (str_fun [] (λ _, "two")) 0); try done.
    + apply not_elem_of_nil.
    + apply not_elem_of_nil.
Defined.

(** ** Full mocks (claim C9) *)

Lemma mock_world_keeps_first : outcome_after "first" mock_world = Some (Fulfilled (VStr "mock")).
Proof. vm_compute. reflexivity. Qed.

(** Whatever is declared, registering a registered name of the full-mock
    set changes neither the registries nor any module record. *)
Lemma register_mocked_frame (n : string) (deps : decl) (old : nat) (w : world) :
  _modules (container w) !! n = Some old →
  n ∈ mock_modules (options (container w)) →
  ∃ r, register (VStr n) deps w = Some (r, invalidate w).
Proof.
  intros Hold Hm. unfold register. unfold_M. simpl.
  destruct (decide (n = "")); [by eexists|].
  unfold in_names.
  destruct deps as [|f|names [f|]]; simpl; try by eexists.
  all: rewrite Hold, bool_decide_eq_true_2 by done; by eexists.
Qed.

(** C9.  If a name is registered and in the full-mock set, a further
    [register] call for it that declares a function returns without
    throwing and changes nothing but the cached cycles: the name still maps
    to the same module record, with the same [define].  This holds for any
    number of further registrations, so the first one stays; in the test's
    container, [resolve("first")] yields "mock". *)
Theorem full_mock_first_registration_wins :
  (∀ (n : string) (deps : decl) (fn : jsfun) (old : nat) (w : world),
     n ≠ "" → callable_of deps = Some fn →
     _modules (container w) !! n = Some old →
     n ∈ mock_modules (options (container w)) →
     register (VStr n) deps w = Some (Ret tt, invalidate w)
     ∧ _modules (container (invalidate w)) = _modules (container w)
     ∧ _partial_modules (container (invalidate w)) = _partial_modules (container w)
     ∧ modules (invalidate w) = modules w)
  ∧ (∀ (n : string) (ds : list decl) (old : nat) (w : world),
       _modules (container w) !! n = Some old →
       n ∈ mock_modules (options (container w)) →
       let w' := apply_ops (OpRegister (VStr n) <$> ds) w in
       _modules (container w') = _modules (container w) ∧ modules w' = modules w)
  ∧ outcome_after "first" mock_world = Some (Fulfilled (VStr "mock")).
Proof.
  split; [|split; [|apply mock_world_keeps_first]].
  - intros n deps fn old w Hn Hc Hold Hm. split; [by eapply register_mocked|done].
  - intros n ds old. induction ds as [|d ds IH]; intros w Hold Hm; [done|].
    destruct (register_mocked_frame n d old w Hold Hm) as [r Hr].
    assert (Hstep : apply_ops (OpRegister (VStr n) <$> d :: ds) w
                    = apply_ops (OpRegister (VStr n) <$> ds) (invalidate w)).
    { unfold apply_ops. simpl. unfold exec. by rewrite Hr. }
    cbv zeta. rewrite Hstep.
    destruct (IH (invalidate w)) as [H1 H2]; [done|done|].
    by rewrite H1, H2.
Qed.

Lemma full_mock_witness :
  register (VStr "first") (DeclFn (str_fun [] (λ _, "orig")))
    (apply_ops [OpRegister (VStr "first") (DeclFn (str_fun [] (λ _, "mock")))]
       (world_init (mkOptions ["first"] []) []))
  = Some (Ret tt,
          invalidate (apply_ops [OpRegister (VStr "first") (DeclFn (str_fun [] (λ _, "mock")))]
                        (world_init (mkOptions ["first"] []) []))).
Proof.
  destruct full_mock_first_registration_wins as (H & _).
  apply (H "first" _ (str_fun [] (λ _, "orig")) 0); try done.
  apply list_elem_of_here.
Defined.

(** ** Sharing an in-flight resolution (claim C2) *)

Lemma diamond_defines_d_once (fa fb fc fd : list value → string) :
  calls_of 0 (world_after "a" (diamond_world fa fb fc fd)) = 1.
Proof. vm_compute. reflexivity. Qed.

(** ** The partial-mock overlay (claim C5) *)

Lemma alter_as_insert {A} (f : A → A) (l : list A) (i : nat) (x : A) :
  l !! i = Some x → alter f i l = <[i := f x]> l.
Proof.
  revert i. induction l as [|y l IH]; intros [|i] Hl; simpl in *; try done.
  - by injection Hl as ->.
  - f_equal. by apply IH.
Qed.

Lemma assoc_set_fresh (k : string) (x v : value) (pre ps : list (string * value)) :
  k ∉ pre.*1 → assoc_set k x (pre ++ (k, v) :: ps) = pre ++ (k, x) :: ps.
Proof.
  induction pre as [|[k' v'] pre IH]; intros Hk; simpl.
  - by rewrite decide_True.
  - rewrite fmap_cons, not_elem_of_cons in Hk. destruct Hk as [Hne Hk]. simpl in Hne.
    rewrite decide_False by done. f_equal. by apply IH.
Qed.

Lemma overlay_fold (G : string → value) (ps pre : list (string * value)) :
  NoDup (pre ++ ps).*1 →
  foldl (overlay_step G) (pre ++ ps) ps.*1 = pre ++ overlay_table G ps.
Proof.
  revert pre. induction ps as [|[k v] ps IH]; intros pre Hnd; [done|].
  simpl. assert (Hk : k ∉ pre.*1).
  { rewrite fmap_app in Hnd. apply NoDup_app in Hnd as (_ & Hdisj & _).
    intros Hin. apply (Hdisj k Hin). rewrite fmap_cons. apply list_elem_of_here. }
  assert (Hstep : overlay_step G (pre ++ (k, v) :: ps) k
                  = (pre ++ [(k, overlay_value G k v)]) ++ ps).
  { unfold overlay_step, overlay_value. rewrite <- app_assoc. simpl.
    destruct (not_undefined (G k)); [by apply assoc_set_fresh|done]. }
  rewrite Hstep, IH; [by rewrite <- app_assoc|].
  rewrite <- app_assoc. rewrite fmap_app in *. simpl in *. done.
Qed.

Lemma foldl_pointwise {A B} (f g : A → B → A) (l : list B) (a : A) :
  (∀ a x, f a x = g a x) → foldl f a l = foldl g a l.
Proof.
  intros Hfg. revert a. induction l as [|x l IH]; intros a; simpl; [done|].
  by rewrite Hfg, IH.
Qed.

Lemma get_prop_other_object (w : world) (o p : nat) (ob' : object) (k : string) :
  o ≠ p →
  get_prop (set_objects (<[o := ob']> (objects w)) w) (VObj p) k = get_prop w (VObj p) k.
Proof. intros Hne. unfold get_prop. simpl. by rewrite list_lookup_insert_ne. Qed.

Lemma get_prop_object (w : world) (p : nat) (k : string) :
  get_prop w (VObj p) k = Some (reads w p k).
Proof. unfold reads, get_prop. by destruct (objects w !! p). Qed.

Lemma overlay_keys_cons (key : string) (keys : list string) (orig part : value) (w : world) :
  overlay_keys (key :: keys) orig part w
  = x ← get_prop w part key;
    w' ← (if not_undefined x then set_prop orig key x w else Some w);
    overlay_keys keys orig part w'.
Proof. reflexivity. Qed.

Lemma overlay_keys_object (keys : list string) (o p : nat) (ob : object) (w : world) :
  o ≠ p → objects w !! o = Some ob →
  overlay_keys keys (VObj o) (VObj p) w
  = Some (set_objects
            (<[o := mkObject (is_array ob) (foldl (overlay_step (reads w p)) (props ob) keys)]>
               (objects w)) w).
Proof.
  intros Hne. revert w ob. induction keys as [|key keys IH]; intros w ob Hob.
  - simpl. destruct ob. rewrite list_insert_id by done. by destruct w.
  - rewrite overlay_keys_cons, get_prop_object. simpl.
    unfold overlay_step at 2.
    destruct (not_undefined (reads w p key)) eqn:Hdef; simpl.
    + rewrite (alter_as_insert _ _ _ _ Hob).
      rewrite (IH _ (mkObject (is_array ob) (assoc_set key (reads w p key) (props ob)))).
      2:{ simpl. apply list_lookup_insert_eq. by eapply lookup_lt_Some. }
      rewrite (foldl_pointwise (overlay_step (reads (set_objects _ w) p))
                 (overlay_step (reads w p)))
        by (intros; unfold overlay_step, reads; by rewrite get_prop_other_object).
      simpl. by rewrite list_insert_insert_eq.
    + by rewrite (IH w ob).
Qed.


Lemma overlay_table_keys (G : string → value) (ps : list (string * value)) :
  (overlay_table G ps).*1 = ps.*1.
Proof. unfold overlay_table. rewrite <- list_fmap_compose. by apply list_fmap_ext. Qed.

Lemma performPartialMock_objects (o p : nat) (ob : object) (w : world) :
  o ≠ p → objects w !! o = Some ob → NoDup (props ob).*1 →
  performPartialMock (VObj o) (VObj p) w
  = Some (set_objects
            (<[o := mkObject (is_array ob) (overlay_table (reads w p) (props ob))]>
               (objects w)) w).
Proof.
  intros Hne Hob Hnd. unfold performPartialMock, own_keys. rewrite Hob. simpl.
  rewrite (overlay_keys_object _ o p ob) by done.
  pose proof (overlay_fold (reads w p) (props ob) [] Hnd) as Hfold.
  simpl in Hfold. by rewrite Hfold.
Qed.





(** ** What the promise library leaves alone *)

Lemma same_registry_refl (w : world) : same_registry w w.
Proof. by repeat split. Qed.

Lemma same_registry_trans (w1 w2 w3 : world) :
  same_registry w1 w2 → same_registry w2 w3 → same_registry w1 w3.
Proof.
  intros (? & ? & ? & ? & ?) (? & ? & ? & ? & ?). repeat split; congruence.
Qed.

Ltac frame_tac :=
  intros; unfold same_registry; repeat case_match; simpl; repeat split; try done.

Lemma settle_frame (p : nat) (o : outcome) (w : world) : same_registry w (settle p o w).
Proof. unfold settle. frame_tac. Qed.

Lemma subscribe_frame (p : nat) (r : reaction) (w : world) :
  same_registry w (subscribe p r w).
Proof. unfold subscribe. frame_tac. Qed.

Lemma resolve_with_frame (t : nat) (x : value) (w : world) :
  same_registry w (resolve_with t x w).
Proof. unfold resolve_with. destruct x; auto using settle_frame, subscribe_frame. Qed.

Lemma new_promise_frame (pr : promise) (w : world) : same_registry w (new_promise pr w).2.
Proof. unfold new_promise. frame_tac. Qed.

Lemma Promise_resolve_frame (x : value) (w : world) :
  same_registry w (Promise_resolve x w).2.
Proof. unfold Promise_resolve, new_promise. frame_tac. Qed.

Lemma Promise_reject_frame (e : value) (w : world) :
  same_registry w (Promise_reject e w).2.
Proof. unfold Promise_reject, new_promise. frame_tac. Qed.

Lemma finish_all_frame (t : nat) (w : world) : same_registry w (finish_all t w).
Proof.
  unfold finish_all. destruct (promises w !! t) as [pr|]; [|apply same_registry_refl].
  destruct (mapM id (slots pr)); [|apply same_registry_refl].
  eapply same_registry_trans; [|apply settle_frame]. by repeat split.
Qed.

Lemma subscribe_all_frame (t i : nat) (arr : list value) (w : world) :
  same_registry w (subscribe_all t i arr w).
Proof.
  revert i w. induction arr as [|x arr IH]; intros i w; simpl.
  - apply same_registry_refl.
  - destruct x; try apply IH.
    eapply same_registry_trans; [apply subscribe_frame|apply IH].
Qed.

Lemma Promise_all_frame (arr : list value) (w : world) :
  same_registry w (Promise_all arr w).2.
Proof.
  unfold Promise_all. simpl.
  eapply same_registry_trans; [|apply finish_all_frame].
  eapply same_registry_trans; [|apply subscribe_all_frame].
  by repeat split.
Qed.

Lemma Promise_bind_frame (p : value) (w : world) : same_registry w (Promise_bind p w).2.
Proof.
  unfold Promise_bind. simpl.
  eapply same_registry_trans; [|apply resolve_with_frame]. by repeat split.
Qed.

Lemma Promise_then_frame (p : value) (cb : callback) (w : world) :
  ∃ r w', Promise_then p cb w = Some (r, w') ∧ same_registry w w'.
Proof.
  unfold Promise_then. destruct p; try (eexists _, _; split; [done|apply same_registry_refl]).
  eexists _, _. split; [done|].
  eapply same_registry_trans; [|apply subscribe_frame]. by repeat split.
Qed.

Lemma ensure_cycles_registry (w : world) : same_registry w (ensure_cycles w).2.
Proof.
  destruct (ensure_cycles_frame w) as (? & ? & ? & ? & ? & ? & ? & ? & ?).
  by repeat split.
Qed.

Lemma new_cell_frame (w : world) : same_registry w (new_cell w).2.
Proof. by repeat split. Qed.

(** ** The life cycle of module records (claim C10) *)

Lemma advances_refl (w : world) : advances w w.
Proof. intros m md Hm. by exists md. Qed.

Lemma advances_trans (w1 w2 w3 : world) : advances w1 w2 → advances w2 w3 → advances w1 w3.
Proof.
  intros H12 H23 m md Hm.
  destruct (H12 m md Hm) as (md2 & Hm2 & Hr2 & Hn2 & Hd2 & Hf2).
  destruct (H23 m md2 Hm2) as (md3 & Hm3 & Hr3 & Hn3 & Hd3 & Hf3).
  exists md3. repeat split; [done|lia|congruence..].
Qed.

Lemma lifecycle_step_refl (w : world) : lifecycle_step w w.
Proof. split; [apply advances_refl|done]. Qed.

Lemma lifecycle_step_trans (w1 w2 w3 : world) :
  lifecycle_step w1 w2 → lifecycle_step w2 w3 → lifecycle_step w1 w3.
Proof.
  intros (Ha & Hu & He) (Ha' & Hu' & He').
  split; [by eapply advances_trans|]. split; auto.
Qed.

Lemma lifecycle_step_modules (w w' : world) : modules w' = modules w → lifecycle_step w w'.
Proof.
  intros Hm. unfold lifecycle_step, advances, unexported_until_resolved,
    exported_once_resolved. rewrite Hm. split; [|done].
  intros m md Hl. by exists md.
Qed.

Lemma sync_step_refl (w : world) : sync_step w w.
Proof. split; [apply lifecycle_step_refl|done]. Qed.

Lemma sync_step_trans (w1 w2 w3 : world) : sync_step w1 w2 → sync_step w2 w3 → sync_step w1 w3.
Proof.
  intros (Hl & Hc & Ht & Hm & Hp & Ho) (Hl' & Hc' & Ht' & Hm' & Hp' & Ho').
  split; [by eapply lifecycle_step_trans|]. repeat split; [lia|congruence..].
Qed.

Lemma same_registry_sync (w w' : world) : same_registry w w' → sync_step w w'.
Proof.
  intros (Hm & Ht & Hms & Hp & Ho).
  split; [by apply lifecycle_step_modules|].
  unfold count_registered. rewrite Hm. by repeat split.
Qed.

Lemma filter_alter_same {A} (P : A → Prop) `{∀ x, Decision (P x)} (f : A → A)
    (l : list A) (i : nat) :
  (∀ x, P (f x) ↔ P x) → length (filter P (alter f i l)) = length (filter P l).
Proof.
  intros Hf. revert i. induction l as [|x l IH]; intros [|i]; try done.
  - change (alter f 0 (x :: l)) with (f x :: l). rewrite !filter_cons.
    destruct (decide (P (f x))) as [H1|H1], (decide (P x)) as [H2|H2]; simpl; try done.
    + exfalso. apply H2, Hf, H1.
    + exfalso. apply H1, Hf, H2.
  - change (alter f (S i) (x :: l)) with (x :: alter f i l). rewrite !filter_cons.
    destruct (decide (P x)); simpl; by rewrite IH.
Qed.

Lemma filter_alter_drop {A} (P : A → Prop) `{∀ x, Decision (P x)} (f : A → A)
    (l : list A) (i : nat) (x : A) :
  l !! i = Some x → P x → ¬ P (f x) →
  S (length (filter P (alter f i l))) = length (filter P l).
Proof.
  revert i. induction l as [|y l IH]; intros [|i] Hl Hx Hfx; try done.
  - simpl in Hl. injection Hl as ->. change (alter f 0 (x :: l)) with (f x :: l).
    rewrite !filter_cons.
    rewrite decide_False, decide_True by done. done.
  - change (alter f (S i) (y :: l)) with (y :: alter f i l). rewrite !filter_cons.
    simpl in Hl.
    destruct (decide (P y)); simpl; by rewrite <- (IH i).
Qed.

Lemma set_resolving_step (m : nat) (md : Module) (w : world) :
  modules w !! m = Some md → state md = registered →
  sync_step w (update_module m (set_state resolving) w)
  ∧ S (count_registered (update_module m (set_state resolving) w)) = count_registered w.
Proof.
  intros Hm Hs.
  assert (Hcount : S (count_registered (update_module m (set_state resolving) w))
                   = count_registered w).
  { unfold count_registered. simpl. by eapply filter_alter_drop. }
  split; [|done]. split; [split; [|split]|].
  - intros m' md' Hm'. simpl. rewrite list_lookup_alter.
    destruct (decide (m = m')) as [<-|]; [|by exists md'].
    rewrite Hm in Hm'. injection Hm' as <-. rewrite Hm. simpl. eexists. split; [done|].
    rewrite Hs. simpl. repeat split. lia.
  - intros Hu m' md' Hm' Hs'. simpl in Hm'. rewrite list_lookup_alter in Hm'.
    destruct (decide (m = m')) as [<-|]; [|by eapply Hu].
    rewrite Hm in Hm'. injection Hm' as <-. simpl. apply (Hu m md Hm). by rewrite Hs.
  - intros He m' md' Hm' Hs'. simpl in Hm'. rewrite list_lookup_alter in Hm'.
    destruct (decide (m = m')) as [<-|]; [|by eapply He].
    rewrite Hm in Hm'. by injection Hm' as <-.
  - repeat split; try done. lia.
Qed.

Lemma set_resolvingPromise_step (m : nat) (h : value) (w : world) :
  sync_step w (update_module m (set_resolvingPromise h) w).
Proof.
  split; [split; [|split]|].
  - intros m' md' Hm'. simpl. rewrite list_lookup_alter.
    destruct (decide (m = m')) as [<-|]; [|by exists md'].
    rewrite Hm'. simpl. eexists. by repeat split.
  - intros Hu m' md' Hm' Hs'. simpl in Hm'. rewrite list_lookup_alter in Hm'.
    destruct (decide (m = m')) as [<-|]; [|by eapply Hu].
    destruct (modules w !! m) as [md|] eqn:Hm; [|done].
    injection Hm' as <-. simpl in *. by apply (Hu m md Hm).
  - intros He m' md' Hm' Hs'. simpl in Hm'. rewrite list_lookup_alter in Hm'.
    destruct (decide (m = m')) as [<-|]; [|by eapply He].
    destruct (modules w !! m) as [md|] eqn:Hm; [|done].
    injection Hm' as <-. simpl in *. by apply (He m md Hm).
  - unfold count_registered. simpl. rewrite filter_alter_same; [done|].
    by intros [].
Qed.

(** ** [resolve] returns, and what it may change *)

Lemma sync_ret (k : nat) {A} (a : A) : sync k (retM a).
Proof. intros w _. eexists _, _. split; [done|apply sync_step_refl]. Qed.

Lemma sync_get (k : nat) : sync k getM.
Proof. intros w _. eexists _, _. split; [done|apply sync_step_refl]. Qed.

Lemma sync_lift (k : nat) {A} (f : world → A * world) :
  (∀ w, same_registry w (f w).2) → sync k (liftM f).
Proof.
  intros Hf w _. unfold returns, liftM. specialize (Hf w). destruct (f w) as [a w'].
  simpl in Hf. eexists _, _. split; [reflexivity|]. by apply same_registry_sync.
Qed.

Lemma sync_modify (k : nat) (f : world → world) :
  (∀ w, sync_step w (f w)) → sync k (modifyM f).
Proof. intros Hf w _. eexists _, _. split; [done|apply Hf]. Qed.

Lemma sync_bind (k : nat) {A B} (m : M A) (f : A → M B) :
  sync k m → (∀ a, sync k (f a)) → sync k (bindM m f).
Proof.
  intros Hm Hf w Hc. destruct (Hm w Hc) as (r & w1 & Hr & Hs).
  unfold returns, bindM. rewrite Hr. destruct r as [a|e].
  - destruct (Hf a w1) as (r' & w2 & Hr' & Hs').
    { destruct Hs as (_ & Hle & _). lia. }
    eexists _, _. split; [done|]. by eapply sync_step_trans.
  - by eexists _, _.
Qed.

Lemma sync_mapM (k : nat) {A B} (f : A → M B) (l : list A) :
  (∀ x, sync k (f x)) → sync k (mapM_M f l).
Proof.
  intros Hf. induction l as [|x l IH]; simpl; [apply sync_ret|].
  apply sync_bind; [apply Hf|]. intros y.
  apply sync_bind; [apply IH|]. intros ys. apply sync_ret.
Qed.

Lemma sync_then (k : nat) (p : value) (cb : callback) : sync k (Promise_then p cb).
Proof.
  intros w _. destruct (Promise_then_frame p cb w) as (r & w' & Hr & Hs).
  eexists _, _. split; [done|]. by apply same_registry_sync.
Qed.

Lemma resolve_S (fuel : nat) (name : string) (partial : bool) :
  resolve (S fuel) name partial
  = let* w := getM in
    let this := container w in
    match module_at (if partial then _partial_modules this else _modules this) name w with
    | None => liftM (Promise_reject (VErr (msg_missing name)))
    | Some (m, module) =>
        match state module with
        | resolved => liftM (Promise_resolve (exported module))
        | st =>
            match first_missing w (dependencies module) with
            | Some dep => liftM (Promise_reject (VErr (msg_not_found dep name)))
            | None =>
                let* found := liftM ensure_cycles in
                match found with
                | inl err => liftM (Promise_reject err)
                | inr [] =>
                    match st with
                    | resolving => retM (resolvingPromise module)
                    | _ =>
                        modifyM (update_module m (set_state resolving)) ;;
                        resolve_started (resolve fuel) m module name partial this
                    end
                | inr cycles =>
                    let* w := getM in
                    liftM (Promise_reject (VErr (msg_circular w name cycles)))
                end
            end
        end
    end.
Proof. reflexivity. Qed.

Lemma resolve_started_sync (k : nat) (rec : string → bool → M value) (m : nat)
    (module : Module) (name : string) (partial : bool) (this : Container) :
  (∀ n p, sync k (rec n p)) →
  sync k (resolve_started rec m module name partial this).
Proof.
  intros Hrec. unfold resolve_started.
  apply sync_bind.
  { apply sync_mapM. intros dep. apply sync_bind; [apply sync_get|]. intros w. apply Hrec. }
  intros dependencies. apply sync_bind; [apply sync_lift, Promise_all_frame|].
  intros all. apply sync_bind; [apply sync_lift, Promise_bind_frame|].
  intros bound. apply sync_bind; [apply sync_then|].
  intros handle. apply sync_bind; [apply sync_modify, set_resolvingPromise_step|].
  intros _. apply sync_bind; [apply sync_get|].
  intros w. destruct (_ && _); [|apply sync_ret].
  apply sync_bind; [apply sync_lift, new_cell_frame|].
  intros cell. apply sync_bind; [apply Hrec|].
  intros shadow. apply sync_bind; apply sync_then || (intros; apply sync_then).
Qed.

Lemma module_at_lookup (reg : gmap string nat) (n : string) (w : world) (m : nat)
    (md : Module) :
  module_at reg n w = Some (m, md) → reg !! n = Some m ∧ modules w !! m = Some md.
Proof.
  unfold module_at. destruct (reg !! n) as [m'|]; [|done]. simpl.
  destruct (modules w !! m') as [md'|] eqn:Hmd; [|done]. simpl.
  intros [= <- <-]. done.
Qed.

Lemma returns_get {A} (k : world → M A) (w : world) (Q : world → Prop) :
  returns (k w) w Q → returns (bindM getM k) w Q.
Proof. done. Qed.

Lemma returns_lift {A B} (f : world → A * world) (k : A → M B) (w : world)
    (Q : world → Prop) :
  returns (k (f w).1) (f w).2 Q → returns (bindM (liftM f) k) w Q.
Proof. unfold returns, bindM, liftM. by destruct (f w). Qed.

Lemma returns_modify {B} (f : world → world) (k : unit → M B) (w : world)
    (Q : world → Prop) :
  returns (k tt) (f w) Q → returns (bindM (modifyM f) k) w Q.
Proof. done. Qed.

Lemma returns_after {A} (m : M A) (w0 w : world) :
  sync_step w0 w → returns m w (sync_step w) → returns m w (sync_step w0).
Proof.
  intros H0 (r & w' & Hr & Hs). exists r, w'. split; [done|]. by eapply sync_step_trans.
Qed.

Lemma resolve_sync (k : nat) (n : string) (partial : bool) : sync k (resolve k n partial).
Proof.
  revert n partial. induction k as [|k IH]; intros n partial w Hc; [lia|].
  rewrite resolve_S. apply returns_get. cbv zeta.
  destruct (module_at _ n w) as [[m md]|] eqn:Hmod.
  2:{ by apply (sync_lift (S k)); [apply Promise_reject_frame|]. }
  apply module_at_lookup in Hmod as [_ Hmd].
  destruct (state md) eqn:Hst.
  3:{ by apply (sync_lift (S k)); [apply Promise_resolve_frame|]. }
  all: destruct (first_missing w (dependencies md)).
  all: try by apply (sync_lift (S k)); [apply Promise_reject_frame|].
  all: apply returns_lift.
  all: pose proof (ensure_cycles_registry w) as Hens.
  all: destruct (ensure_cycles w) as [found w1].
  all: simpl in Hens |- *; apply same_registry_sync in Hens as Hsync.
  all: assert (Hc1 : count_registered w1 < S k)
         by (destruct Hsync as (_ & ? & _); lia).
  all: apply (returns_after _ w w1 Hsync).
  all: destruct found as [err|[|c cycles]].
  all: try by apply (sync_lift (S k)); [apply Promise_reject_frame|].
  - (* registered: the resolution starts *)
    destruct Hens as (Hmods & _).
    destruct (set_resolving_step m md w1) as [Hstep Hcount]; [by rewrite Hmods|done|].
    apply returns_modify. apply (returns_after _ w1 _ Hstep).
    apply (resolve_started_sync k (resolve k) m md n partial (container w) IH). lia.
  - apply returns_get. by apply (sync_lift (S k)); [apply Promise_reject_frame|].
  - by apply (sync_ret (S k)).
  - apply returns_get. by apply (sync_lift (S k)); [apply Promise_reject_frame|].
Qed.

Lemma count_registered_bound (w : world) : count_registered w < resolve_fuel w.
Proof.
  unfold count_registered, resolve_fuel.
  pose proof (length_filter (λ md, state md = registered) (modules w)). lia.
Qed.

(** [resolve] returns with the fuel the operations give it. *)
Lemma resolve_total (n : string) (partial : bool) (w : world) :
  returns (resolve (resolve_fuel w) n partial) w (sync_step w).
Proof. apply resolve_sync, count_registered_bound. Qed.

Lemma new_module_lifecycle (n : string) (deps : list string) (fn : jsfun) (w : world) :
  lifecycle_step w (new_module (new_Module n deps fn) w).2.
Proof.
  split; [|split].
  - intros m md Hm. exists md. split; [|done]. simpl. by apply lookup_app_l_Some.
  - intros Hu m md Hm Hs. simpl in Hm. apply lookup_app_Some in Hm as [Hm|[_ Hm]].
    + by eapply Hu.
    + apply list_lookup_singleton_Some in Hm as [_ <-]. done.
  - intros He m md Hm Hs. simpl in Hm. apply lookup_app_Some in Hm as [Hm|[_ Hm]].
    + by eapply He.
    + apply list_lookup_singleton_Some in Hm as [_ <-]. done.
Qed.

Lemma lifecycle_step_by_modules (w1 w1' w2 w2' : world) :
  modules w1' = modules w1 → modules w2' = modules w2 →
  lifecycle_step w1 w2 → lifecycle_step w1' w2'.
Proof.
  intros H1 H2. unfold lifecycle_step, advances, unexported_until_resolved,
    exported_once_resolved. by rewrite H1, H2.
Qed.

(** [register] returns or throws, and treats the module records as the life
    cycle allows. *)
Lemma register_lifecycle (name : value) (deps : decl) (w : world) :
  returns (register name deps) w (lifecycle_step w).
Proof.
  unfold returns, register. unfold_M. simpl.
  destruct name as [| | |n| | | |];
    try (eexists _, _; split; [done|by apply lifecycle_step_modules]).
  destruct (decide (n = ""));
    [eexists _, _; split; [done|by apply lifecycle_step_modules]|].
  destruct deps as [|f|names [f|]]; simpl;
    try (eexists _, _; split; [done|by apply lifecycle_step_modules]).
  all: destruct (_modules (container w) !! n) as [old|].
  all: try destruct (in_names n (mock_modules (options (container w)))).
  all: try destruct (in_names n (partial_mock_modules (options (container w)))).
  all: try (eexists _, _; split; [done|by apply lifecycle_step_modules]).
  all: eexists _, _; split; [done|].
  all: eapply lifecycle_step_by_modules; [| |eapply (new_module_lifecycle n)];
    [reflexivity|reflexivity].
Qed.

Lemma mark_resolved_lookup (m m' : nat) (v : value) (w : world) (md' : Module) :
  modules (mark_resolved m v w) !! m' = Some md' →
  (m' ≠ m ∧ modules w !! m' = Some md')
  ∨ (m' = m ∧ ∃ md, modules w !! m = Some md
                    ∧ md' = set_exported v (set_state resolved md)).
Proof.
  unfold mark_resolved. simpl.
  destruct (decide (m = m')) as [<-|Hne].
  - rewrite !list_lookup_alter_eq.
    destruct (modules w !! m) as [md|]; [|done]. simpl. intros [= <-].
    right. split; [done|]. by exists md.
  - rewrite !list_lookup_alter_ne by done. intros Hm. left. by split.
Qed.

Lemma mark_resolved_step (m : nat) (v : value) (w : world) :
  advances w (mark_resolved m v w)
  ∧ (unexported_until_resolved w → unexported_until_resolved (mark_resolved m v w))
  ∧ (v ≠ VNull → exported_once_resolved w → exported_once_resolved (mark_resolved m v w)).
Proof.
  split; [|split].
  - intros m' md Hm. unfold mark_resolved. simpl.
    destruct (decide (m = m')) as [<-|].
    2:{ rewrite !list_lookup_alter_ne by done. by exists md. }
    rewrite !list_lookup_alter_eq, Hm. simpl. eexists. split; [done|]. simpl.
    repeat split. destruct (state md); simpl; lia.
  - intros Hu m' md' Hm' Hs.
    apply mark_resolved_lookup in Hm' as [[_ Hm']|[_ (md & _ & ->)]]; [by eapply Hu|done].
  - intros Hv He m' md' Hm' Hs.
    apply mark_resolved_lookup in Hm' as [[_ Hm']|[_ (md & _ & ->)]]; [by eapply He|done].
Qed.

Lemma registerAndExport_lifecycle (name obj : value) (w : world) :
  ∃ r w', registerAndExport name obj w = Some (r, w')
          ∧ advances w w'
          ∧ (unexported_until_resolved w → unexported_until_resolved w')
          ∧ (obj ≠ VNull → exported_once_resolved w → exported_once_resolved w').
Proof.
  unfold registerAndExport.
  destruct (register_lifecycle name (DeclFn (mkFun [] (λ _, DReturn obj))) w)
    as (r & w1 & Hr & Ha & Hu & He).
  unfold bindM at 1. rewrite Hr.
  destruct r as [[]|e]; [|exists (Thrown e), w1; by auto].
  destruct name as [| | |n| | | |]; try (exists (Ret obj), w1; by auto).
  unfold_M. destruct (_modules (container w1) !! n) as [m|];
    [|exists (Ret obj), w1; by auto].
  destruct (mark_resolved_step m obj w1) as (Ha' & Hu' & He').
  exists (Ret obj), (mark_resolved m obj w1). split; [reflexivity|].
  split; [by eapply advances_trans|]. split; auto.
Qed.

Lemma same_registry_modules (w w' : world) : same_registry w w' → modules w' = modules w.
Proof. by intros [? _]. Qed.

Lemma Promise_try_modules (m : nat) (fn : jsfun) (deps : value) (w : world) :
  modules (Promise_try m fn deps w).2 = modules w
  ∧ ∃ e, (Promise_try m fn deps w).1 = VPromise e.
Proof.
  unfold Promise_try. destruct (body fn (call_args deps w)) as [x|err|]; simpl.
  - split; [|by eexists].
    by rewrite (same_registry_modules _ _ (resolve_with_frame _ _ _)).
  - split; [done|by eexists].
  - split; [|by eexists].
    by rewrite (same_registry_modules _ _ (subscribe_frame _ _ _)).
Qed.

Lemma overlay_keys_modules (keys : list string) (orig part : value) (w w' : world) :
  overlay_keys keys orig part w = Some w' → modules w' = modules w.
Proof.
  revert w. induction keys as [|key keys IH]; intros w; simpl; [by intros [= <-]|].
  destruct (get_prop w part key) as [x|]; [|done]. simpl.
  destruct (not_undefined x); simpl; [|apply IH].
  destruct (set_prop orig key x w) as [w1|] eqn:Hset; [|done]. simpl.
  intros Hk. rewrite (IH _ Hk). unfold set_prop in Hset. by destruct orig; simplify_eq.
Qed.

Lemma performPartialMock_modules (orig part : value) (w w' : world) :
  performPartialMock orig part w = Some w' → modules w' = modules w.
Proof.
  unfold performPartialMock. destruct (own_keys w orig); [|done]. simpl.
  apply overlay_keys_modules.
Qed.

Lemma run_callback_lifecycle (cb : callback) (v : value) (tgt : nat) (w : world) :
  lifecycle_step w (run_callback cb v tgt w).
Proof.
  destruct cb as [m nm|m cell|cell]; simpl.
  - destruct (modules w !! m) as [md|]; [|apply lifecycle_step_refl].
    destruct (Promise_try_modules m (define md) v w) as [Hmods [e He]].
    destruct (Promise_try m (define md) v w) as [exported w1]. simpl in *. subst exported.
    destruct (mark_resolved_step m (VPromise e) w1) as (Ha & Hu & He).
    eapply lifecycle_step_by_modules; [symmetry; exact Hmods| |].
    2:{ split; [exact Ha|]. split; [exact Hu|]. by apply He. }
    by rewrite (same_registry_modules _ _ (resolve_with_frame _ _ _)).
  - destruct (Promise_resolve _ _) as [x w2] eqn:Hx.
    apply lifecycle_step_modules.
    rewrite (same_registry_modules _ _ (resolve_with_frame _ _ _)).
    pose proof (Promise_resolve_frame
                  (match modules w !! m with
                   | Some module => resolvingPromise module
                   | None => VUndef
                   end) (set_cells (<[cell:=v]> (cells w)) w)) as Hf.
    rewrite Hx in Hf. by apply same_registry_modules in Hf.
  - destruct (performPartialMock _ _ _) as [w1|] eqn:Hp; apply lifecycle_step_modules.
    + rewrite (same_registry_modules _ _ (resolve_with_frame _ _ _)).
      by eapply performPartialMock_modules.
    + by rewrite (same_registry_modules _ _ (settle_frame _ _ _)).
Qed.

Lemma run_job_lifecycle (j : reaction * outcome) (w : world) :
  lifecycle_step w (run_job j w).
Proof.
  destruct j as [[cb tgt|tgt|tgt i] [v|e]]; simpl;
    try apply run_callback_lifecycle; apply lifecycle_step_modules.
  - by rewrite (same_registry_modules _ _ (settle_frame _ _ _)).
  - by rewrite (same_registry_modules _ _ (settle_frame _ _ _)).
  - by rewrite (same_registry_modules _ _ (settle_frame _ _ _)).
  - rewrite (same_registry_modules _ _ (finish_all_frame _ _)).
    unfold fill_slot. by destruct (promises w !! tgt).
  - by rewrite (same_registry_modules _ _ (settle_frame _ _ _)).
Qed.

Lemma apply_op_lifecycle (o : op) (w : world) :
  advances w (apply_op o w)
  ∧ (unexported_until_resolved w → unexported_until_resolved (apply_op o w))
  ∧ (exports_nonnull o → exported_once_resolved w → exported_once_resolved (apply_op o w)).
Proof.
  destruct o as [n d|n obj|n| |p o]; unfold apply_op, exports_nonnull.
  - destruct (register_lifecycle n d w) as (r & w' & Hr & Ha & Hu & He).
    unfold exec. rewrite Hr. auto.
  - destruct (registerAndExport_lifecycle n obj w) as (r & w' & Hr & Ha & Hu & He).
    unfold exec. rewrite Hr. auto.
  - destruct (resolve_total n false w) as (r & w' & Hr & (Ha & Hu & He) & _).
    unfold exec. rewrite Hr. auto.
  - unfold tick. destruct (queue w) as [|j q].
    + destruct (lifecycle_step_refl w) as (Ha & Hu & He). auto.
    + destruct (lifecycle_step_by_modules (set_queue q w) w _ _ eq_refl eq_refl
                  (run_job_lifecycle j (set_queue q w))) as (Ha & Hu & He). auto.
  - assert (Hm : modules (env_settle p o w) = modules w).
    { unfold env_settle. destruct (promises w !! p) as [pr|]; [|done].
      destruct o as [[]|]; try done; destruct (external pr); try done;
        by rewrite (same_registry_modules _ _ (settle_frame _ _ _)). }
    destruct (lifecycle_step_modules w _ Hm) as (Ha & Hu & He). auto.
Qed.

Lemma apply_ops_lifecycle (ops : list op) (w : world) :
  advances w (apply_ops ops w)
  ∧ (unexported_until_resolved w → unexported_until_resolved (apply_ops ops w))
  ∧ (Forall exports_nonnull ops → exported_once_resolved w →
     exported_once_resolved (apply_ops ops w)).
Proof.
  revert w. induction ops as [|o ops IH]; intros w.
  - split; [apply advances_refl|]. by split.
  - destruct (apply_op_lifecycle o w) as (Ha & Hu & He).
    destruct (IH (apply_op o w)) as (Ha' & Hu' & He').
    change (apply_ops (o :: ops) w) with (apply_ops ops (apply_op o w)).
    split; [by eapply advances_trans|]. split; [auto|].
    intros Hall Hw. apply Forall_cons in Hall as [Ho Hall]. auto.
Qed.

(** C10 as stated fails when [registerAndExport] is handed [null]: the
    record is resolved and its [exported] is still [null]. *)
Lemma export_of_null_not_populated :
  ¬ exported_iff_resolved
      (apply_ops [OpRegisterAndExport (VStr "a") VNull] empty_world).
Proof.
  intros H.
  destruct (H 0 (mkModule "a" [] (mkFun [] (λ _, DReturn VNull)) resolved VNull VUndef))
    as [_ Hback]; [by vm_compute|].
  by apply Hback.
Qed.

(** C10, amended.  In every world reached from a new container by
    [register], [registerAndExport], [resolve], turns of the event loop and
    settlements by the environment:
    - a record whose [exported] is not [null] is in state [resolved];
    - if [registerAndExport] was never handed [null], [exported] is not
      [null] exactly in the records in state [resolved];
    - every further operation leaves each record in place, with its name,
      dependencies and [define], in the same state or one further along
      [registered], [resolving], [resolved];
    - [resolve] returns. *)
Theorem module_lifecycle (opts : Options) (objs : list object) (ops : list op) :
  let w := apply_ops ops (world_init opts objs) in
  (∀ m md, modules w !! m = Some md → exported md ≠ VNull → state md = resolved)
  ∧ (Forall exports_nonnull ops → exported_iff_resolved w)
  ∧ (∀ o, advances w (apply_op o w))
  ∧ (∀ n, ∃ r w', resolve (resolve_fuel w) n false w = Some (r, w')).
Proof.
  intros w.
  destruct (apply_ops_lifecycle ops (world_init opts objs)) as (_ & Hu & He).
  assert (Hu' : unexported_until_resolved w) by (apply Hu; by intros [] ?).
  split; [|split; [|split]].
  - intros m md Hm Hx. destruct (decide (state md = resolved)) as [|Hs]; [done|].
    by specialize (Hu' m md Hm Hs).
  - intros Hall m md Hm. split.
    + intros Hx. destruct (decide (state md = resolved)) as [|Hs]; [done|].
      by specialize (Hu' m md Hm Hs).
    + intros Hs. eapply He; [done| |done..]. by intros [] ?.
  - intros o. apply apply_op_lifecycle.
  - intros n. destruct (resolve_total n false w) as (r & w' & Hr & _). by exists r, w'.
Qed.

Lemma module_lifecycle_witness :
  Forall exports_nonnull
    [OpRegisterAndExport (VStr "a") (VStr "a");
     OpRegister (VStr "b") (DeclFn (str_fun ["a"] (λ args, arg 0 args +:+ "b")));
     OpResolve "b"; OpTick; OpTick]
  ∧ exported_iff_resolved
      (apply_ops
         [OpRegisterAndExport (VStr "a") (VStr "a");
          OpRegister (VStr "b") (DeclFn (str_fun ["a"] (λ args, arg 0 args +:+ "b")));
          OpResolve "b"; OpTick; OpTick]
         empty_world).
Proof.
  assert (Hall : Forall exports_nonnull
    [OpRegisterAndExport (VStr "a") (VStr "a");
     OpRegister (VStr "b") (DeclFn (str_fun ["a"] (λ args, arg 0 args +:+ "b")));
     OpResolve "b"; OpTick; OpTick]).
  { repeat constructor. discriminate. }
  split; [exact Hall|].
  destruct (module_lifecycle (mkOptions [] []) []
              [OpRegisterAndExport (VStr "a") (VStr "a");
               OpRegister (VStr "b") (DeclFn (str_fun ["a"] (λ args, arg 0 args +:+ "b")));
               OpResolve "b"; OpTick; OpTick]) as (_ & H & _).
  exact (H Hall).
Defined.

(** ** Failed resolutions stay failed (claim C6) *)







Lemma settle_pending (t : nat) (o : outcome) (w : world) (pr : promise) :
  promises w !! t = Some pr → settled pr = None →
  outcome_of (settle t o w) (VPromise t) = Some o.
Proof.
  intros Ht Hs. unfold settle, outcome_of. rewrite Ht, Hs. simpl.
  rewrite list_lookup_insert_eq by (by eapply lookup_lt_Some). done.
Qed.







(** ** Dependencies reach [define] in declared order (claim C7) *)
































(** ** Each [define] runs at most once *)

Lemma sum_list_with_insert {A} (f : A → nat) (l : list A) (i : nat) (x y : A) :
  l !! i = Some x →
  sum_list_with f (<[i := y]> l) + f x = sum_list_with f l + f y.
Proof.
  revert i. induction l as [|a l IH]; intros [|i] Hl; simpl in *; try done.
  - injection Hl as ->. lia.
  - specialize (IH i Hl). lia.
Qed.

Lemma sum_list_with_fmap {A B} (f : B → nat) (g : A → B) (l : list A) :
  sum_list_with f (g <$> l) = sum_list_with (λ x, f (g x)) l.
Proof.
  induction l as [|a l IH]; [done|].
  rewrite fmap_cons. change (f (g a) + sum_list_with f (g <$> l) = f (g a) + sum_list_with (λ x, f (g x)) l).
  by rewrite IH.
Qed.

Lemma budget_step_refl (w : world) : budget_step no_slack w w.
Proof. intros m. unfold no_slack. lia. Qed.

Lemma budget_step_weaken (s s' : nat → nat) (w w' : world) :
  (∀ m, s m ≤ s' m) → budget_step s w w' → budget_step s' w w'.
Proof. intros Hs H m. specialize (Hs m). specialize (H m). lia. Qed.

Lemma budget_step_trans (s : nat → nat) (w1 w2 w3 : world) :
  budget_step no_slack w1 w2 → budget_step s w2 w3 → budget_step s w1 w3.
Proof. intros H1 H2 m. specialize (H1 m). specialize (H2 m). unfold no_slack in *. lia. Qed.

Lemma budget_step_trans_r (s : nat → nat) (w1 w2 w3 : world) :
  budget_step s w1 w2 → budget_step no_slack w2 w3 → budget_step s w1 w3.
Proof. intros H1 H2 m. specialize (H1 m). specialize (H2 m). unfold no_slack in *. lia. Qed.

(** Steps that keep module records and trace change the budget through the
    waiting callbacks only. *)
Lemma budget_step_frame (s : nat → nat) (w w' : world) :
  same_registry w w' →
  (∀ m, pending_define m w' ≤ pending_define m w + s m) →
  budget_step s w w'.
Proof.
  intros (Hm & Ht & _) Hp m. specialize (Hp m).
  assert (calls_of m w' = calls_of m w) as Hc by (unfold calls_of; by rewrite Ht).
  assert (unstarted m w' = unstarted m w) as Hu by (unfold unstarted; by rewrite Hm).
  unfold budget. lia.
Qed.

Lemma pending_settle (m p : nat) (o : outcome) (w : world) :
  pending_define m (settle p o w) = pending_define m w.
Proof.
  unfold settle. destruct (promises w !! p) as [pr|] eqn:Hp; [|done].
  destruct (settled pr); [done|].
  unfold pending_define. simpl.
  pose proof (sum_list_with_insert
                (λ pr, sum_list_with (weight m) (reactions pr)) (promises w) p pr
                (mkPromise (Some o) [] (slots pr) (external pr)) Hp) as Hi.
  simpl in Hi. rewrite sum_list_with_app, sum_list_with_fmap. simpl.
  change (λ x : reaction, weight m x) with (weight m). lia.
Qed.

Lemma pending_subscribe (m p : nat) (r : reaction) (w : world) :
  pending_define m (subscribe p r w) ≤ pending_define m w + weight m r.
Proof.
  unfold subscribe. destruct (promises w !! p) as [pr|] eqn:Hp; [|lia].
  destruct (settled pr).
  - unfold pending_define. simpl. rewrite sum_list_with_app. simpl. lia.
  - unfold pending_define. simpl.
    pose proof (sum_list_with_insert
                  (λ pr, sum_list_with (weight m) (reactions pr)) (promises w) p pr
                  (mkPromise None (reactions pr ++ [r]) (slots pr) (external pr)) Hp) as Hi.
    simpl in Hi. rewrite sum_list_with_app in Hi. simpl in Hi. lia.
Qed.

Lemma pending_new_promise (m : nat) (pr : promise) (w : world) :
  reactions pr = [] → pending_define m (new_promise pr w).2 = pending_define m w.
Proof.
  intros Hr. unfold pending_define, new_promise. simpl.
  rewrite sum_list_with_app. simpl. rewrite Hr. simpl. lia.
Qed.

Lemma pending_fill_slot (m t i : nat) (v : value) (w : world) :
  pending_define m (fill_slot t i v w) = pending_define m w.
Proof.
  unfold fill_slot. destruct (promises w !! t) as [pr|] eqn:Hp; [|done].
  unfold pending_define. simpl.
  pose proof (sum_list_with_insert
                (λ pr, sum_list_with (weight m) (reactions pr)) (promises w) t pr
                (mkPromise (settled pr) (reactions pr) (<[i := Some v]> (slots pr))
                   (external pr)) Hp) as Hi.
  simpl in Hi. lia.
Qed.

Lemma settle_budget (p : nat) (o : outcome) (w : world) :
  budget_step no_slack w (settle p o w).
Proof.
  apply budget_step_frame; [apply settle_frame|].
  intros m. rewrite pending_settle. unfold no_slack. lia.
Qed.

Lemma subscribe_budget (p : nat) (r : reaction) (w : world) :
  budget_step (λ m, weight m r) w (subscribe p r w).
Proof. apply budget_step_frame; [apply subscribe_frame|]. intros m. apply pending_subscribe. Qed.

Lemma resolve_with_budget (t : nat) (x : value) (w : world) :
  budget_step no_slack w (resolve_with t x w).
Proof.
  unfold resolve_with. destruct x; try apply settle_budget.
  eapply budget_step_weaken; [|apply subscribe_budget]. done.
Qed.

Lemma new_promise_budget (pr : promise) (w : world) :
  reactions pr = [] → budget_step no_slack w (new_promise pr w).2.
Proof.
  intros Hr. apply budget_step_frame; [apply new_promise_frame|].
  intros m. rewrite pending_new_promise by done. unfold no_slack. lia.
Qed.

Lemma Promise_resolve_budget (x : value) (w : world) :
  budget_step no_slack w (Promise_resolve x w).2.
Proof.
  unfold Promise_resolve. destruct x; try apply budget_step_refl.
  all: by apply (new_promise_budget (mkPromise _ [] [] false)).
Qed.

Lemma Promise_reject_budget (e : value) (w : world) :
  budget_step no_slack w (Promise_reject e w).2.
Proof. by apply (new_promise_budget (mkPromise _ [] [] false)). Qed.

Lemma finish_all_budget (t : nat) (w : world) : budget_step no_slack w (finish_all t w).
Proof.
  unfold finish_all. destruct (promises w !! t) as [pr|]; [|apply budget_step_refl].
  destruct (mapM id (slots pr)); [|apply budget_step_refl].
  eapply budget_step_trans; [|apply settle_budget]. intros m. unfold no_slack. simpl.
  change (budget m (set_objects _ w)) with (budget m w). lia.
Qed.

Lemma subscribe_all_budget (t i : nat) (arr : list value) (w : world) :
  budget_step no_slack w (subscribe_all t i arr w).
Proof.
  revert i w. induction arr as [|x arr IH]; intros i w; simpl.
  - apply budget_step_refl.
  - destruct x; try apply IH.
    eapply budget_step_trans; [|apply IH].
    eapply budget_step_weaken; [|apply subscribe_budget]. done.
Qed.

Lemma Promise_all_budget (arr : list value) (w : world) :
  budget_step no_slack w (Promise_all arr w).2.
Proof.
  unfold Promise_all.
  pose proof (new_promise_budget (mkPromise None [] (slot_of <$> arr) false) w eq_refl) as Hn.
  destruct (new_promise _ w) as [t w1]. simpl in *.
  eapply budget_step_trans; [exact Hn|].
  eapply budget_step_trans; [apply subscribe_all_budget|apply finish_all_budget].
Qed.

Lemma Promise_bind_budget (p : value) (w : world) :
  budget_step no_slack w (Promise_bind p w).2.
Proof.
  unfold Promise_bind.
  pose proof (new_promise_budget pending_promise w eq_refl) as Hn.
  destruct (new_promise _ w) as [t w1]. simpl in *.
  eapply budget_step_trans; [exact Hn|apply resolve_with_budget].
Qed.

Lemma Promise_then_budget (p : value) (cb : callback) :
  keeps (λ m, cb_weight m cb) (Promise_then p cb).
Proof.
  intros w r w' H. unfold Promise_then in H.
  destruct p; try (injection H as <- <-; intros m; lia).
  pose proof (new_promise_budget pending_promise w eq_refl) as Hn.
  destruct (new_promise _ w) as [t w1]. simpl in *. injection H as <- <-.
  eapply budget_step_trans; [exact Hn|]. apply (subscribe_budget _ (RThen cb t)).
Qed.

Lemma keeps_ret {A} (a : A) : keeps no_slack (retM a).
Proof. intros w r w' [= <- <-]. apply budget_step_refl. Qed.

Lemma keeps_get : keeps no_slack getM.
Proof. intros w r w' [= <- <-]. apply budget_step_refl. Qed.

Lemma keeps_throw {A} (e : value) : keeps no_slack (@throwM A e).
Proof. intros w r w' [= <- <-]. apply budget_step_refl. Qed.

Lemma keeps_lift {A} (f : world → A * world) :
  (∀ w, budget_step no_slack w (f w).2) → keeps no_slack (liftM f).
Proof.
  intros Hf w r w'. unfold liftM. specialize (Hf w). destruct (f w) as [a w1].
  by intros [= <- <-].
Qed.

Lemma keeps_modify (f : world → world) :
  (∀ w, budget_step no_slack w (f w)) → keeps no_slack (modifyM f).
Proof. intros Hf w r w' [= <- <-]. apply Hf. Qed.

Lemma keeps_at_bind (s : nat → nat) {A B} (c : M A) (k : A → M B) (w : world) :
  keeps_at no_slack c w → (∀ a w1, keeps_at s (k a) w1) → keeps_at s (bindM c k) w.
Proof.
  intros Hc Hk r w'. unfold bindM. destruct (c w) as [[[a|e] w1]|] eqn:Hcw; [| |done].
  - intros Hr. eapply budget_step_trans; [by eapply Hc|by eapply Hk].
  - intros [= <- <-]. eapply budget_step_weaken; [|by eapply Hc]. unfold no_slack. lia.
Qed.

Lemma keeps_bind (s : nat → nat) {A B} (c : M A) (k : A → M B) :
  keeps no_slack c → (∀ a, keeps s (k a)) → keeps s (bindM c k).
Proof. intros Hc Hk w. apply keeps_at_bind; [apply Hc|]. intros a w1. apply Hk. Qed.

(** The step that spends the slack comes first, the rest adds nothing. *)
Lemma keeps_bind_l (s : nat → nat) {A B} (c : M A) (k : A → M B) :
  keeps s c → (∀ a, keeps no_slack (k a)) → keeps s (bindM c k).
Proof.
  intros Hc Hk w r w'. unfold bindM. destruct (c w) as [[[a|e] w1]|] eqn:Hcw; [| |done].
  - intros Hr. eapply budget_step_trans_r; [by eapply Hc|by eapply Hk].
  - intros [= <- <-]. by eapply Hc.
Qed.

Lemma keeps_mapM {A B} (f : A → M B) (l : list A) :
  (∀ x, keeps no_slack (f x)) → keeps no_slack (mapM_M f l).
Proof.
  intros Hf. induction l as [|x l IH]; simpl; [apply keeps_ret|].
  apply keeps_bind; [apply Hf|]. intros y.
  apply keeps_bind; [apply IH|]. intros ys. apply keeps_ret.
Qed.

Lemma keeps_weaken (s s' : nat → nat) {A} (c : M A) :
  (∀ m, s m ≤ s' m) → keeps s c → keeps s' c.
Proof. intros Hs Hc w r w' Hr. eapply budget_step_weaken; [exact Hs|by eapply Hc]. Qed.

(** Changing a record without moving it back to [registered]. *)
Lemma update_module_budget (m : nat) (f : Module → Module) (w : world) :
  (∀ md, state md ≠ registered → state (f md) ≠ registered) →
  budget_step no_slack w (update_module m f w).
Proof.
  intros Hf m'. unfold no_slack, budget.
  change (pending_define m' (update_module m f w)) with (pending_define m' w).
  change (calls_of m' (update_module m f w)) with (calls_of m' w).
  assert (unstarted m' (update_module m f w) ≤ unstarted m' w); [|lia].
  unfold unstarted, update_module. simpl.
  destruct (decide (m' = m)) as [->|Hne].
  - rewrite list_lookup_alter_eq. destruct (modules w !! m) as [md|]; simpl; [|done].
    destruct (decide (state md = registered)) as [|Hns].
    + destruct (decide (state (f md) = registered)); lia.
    + destruct (decide (state (f md) = registered)) as [Hs|]; [|done]. by apply Hf in Hs.
  - by rewrite list_lookup_alter_ne.
Qed.

(** Leaving state [registered] frees the budget that the callback of line
    211 takes up. *)
Lemma start_budget (m : nat) (n : string) (md : Module) (w : world) :
  modules w !! m = Some md → state md = registered →
  ∀ m', budget m' (update_module m (set_state resolving) w) + cb_weight m' (CbDefine m n)
        ≤ budget m' w.
Proof.
  intros Hm Hs m'. unfold budget.
  change (pending_define m' (update_module m (set_state resolving) w))
    with (pending_define m' w).
  change (calls_of m' (update_module m (set_state resolving) w)) with (calls_of m' w).
  assert (unstarted m' (update_module m (set_state resolving) w)
          + cb_weight m' (CbDefine m n) ≤ unstarted m' w); [|lia].
  unfold unstarted, update_module. simpl.
  destruct (decide (m = m')) as [<-|Hne].
  - rewrite list_lookup_alter_eq, Hm. simpl. rewrite Hs.
    by destruct (decide (registered = registered)).
  - rewrite list_lookup_alter_ne by done.
    destruct (decide (m = m')); [done|]. lia.
Qed.

Lemma ensure_cycles_budget (w : world) : budget_step no_slack w (ensure_cycles w).2.
Proof.
  apply budget_step_frame; [apply ensure_cycles_registry|].
  intros m. unfold no_slack.
  destruct (ensure_cycles_frame w) as (_ & Hp & _ & _ & Hq & _).
  unfold pending_define. rewrite Hp, Hq. lia.
Qed.

Lemma new_cell_budget (w : world) : budget_step no_slack w (new_cell w).2.
Proof. intros m. unfold no_slack. change (budget m (new_cell w).2) with (budget m w). lia. Qed.

Lemma resolve_started_budget (rec : string → bool → M value) (m : nat)
    (module : Module) (name : string) (partial : bool) (this : Container) :
  (∀ n p, keeps no_slack (rec n p)) →
  keeps (λ m', cb_weight m' (CbDefine m name))
    (resolve_started rec m module name partial this).
Proof.
  intros Hrec. unfold resolve_started.
  apply keeps_bind.
  { apply keeps_mapM. intros dep. apply keeps_bind; [apply keeps_get|]. intros w. apply Hrec. }
  intros dependencies. apply keeps_bind; [apply keeps_lift, Promise_all_budget|].
  intros all. apply keeps_bind; [apply keeps_lift, Promise_bind_budget|].
  intros bound. apply keeps_bind_l; [apply Promise_then_budget|].
  intros handle. apply keeps_bind.
  { apply keeps_modify. intros w. apply update_module_budget. intros ? ?; simpl; done. }
  intros _. apply keeps_bind; [apply keeps_get|].
  intros w. destruct (_ && _); [|apply keeps_ret].
  apply keeps_bind; [apply keeps_lift, new_cell_budget|].
  intros cell. apply keeps_bind; [apply Hrec|].
  intros shadow. apply keeps_bind.
  { eapply keeps_weaken; [|apply Promise_then_budget]. done. }
  intros first. eapply keeps_weaken; [|apply Promise_then_budget]. done.
Qed.

Lemma keeps_at_get (s : nat → nat) {A} (k : world → M A) (w : world) :
  keeps_at s (k w) w → keeps_at s (bindM getM k) w.
Proof. done. Qed.

Lemma keeps_at_lift (s : nat → nat) {A B} (f : world → A * world) (k : A → M B)
    (w : world) :
  budget_step no_slack w (f w).2 → keeps_at s (k (f w).1) (f w).2 →
  keeps_at s (bindM (liftM f) k) w.
Proof.
  intros Hf Hk r w'. unfold bindM, liftM. destruct (f w) as [a w1]. simpl in *.
  intros Hr. eapply budget_step_trans; [exact Hf|by eapply Hk].
Qed.

(** [resolve] does not grow any budget: it attaches the callback of line
    211 only for the record it moved out of state [registered]. *)
Lemma resolve_budget (fuel : nat) (n : string) (partial : bool) :
  keeps no_slack (resolve fuel n partial).
Proof.
  revert n partial. induction fuel as [|k IH]; intros n partial w; [done|].
  rewrite resolve_S. apply keeps_at_get. cbv zeta.
  destruct (module_at _ n w) as [[m md]|] eqn:Hmod.
  2:{ apply keeps_lift, Promise_reject_budget. }
  apply module_at_lookup in Hmod as [_ Hmd].
  destruct (state md) eqn:Hst.
  3:{ apply keeps_lift, Promise_resolve_budget. }
  all: destruct (first_missing w (dependencies md)).
  all: try apply keeps_lift, Promise_reject_budget.
  all: apply keeps_at_lift; [apply ensure_cycles_budget|].
  all: destruct (ensure_cycles_frame w) as (Hmods & _).
  all: destruct (ensure_cycles w) as [[err|[|c cycles]] w1]; simpl in *.
  all: try apply keeps_lift, Promise_reject_budget.
  all: try (apply keeps_at_get; apply keeps_lift, Promise_reject_budget).
  - (* registered: the resolution starts *)
    intros r w' Hr. unfold bindM at 1, modifyM in Hr.
    apply (resolve_started_budget (resolve k) m md n partial (container w) IH) in Hr.
    rewrite <- Hmods in Hmd.
    intros m'. pose proof (start_budget m n md w1 Hmd Hst m') as Hstart.
    specialize (Hr m'). unfold no_slack. cbv beta in Hr. lia.
  - apply keeps_ret.
Qed.

Lemma calls_of_cons (m m' : nat) (args : list value) (w : world) :
  calls_of m' (set_trace (Called m args :: trace w) w)
  = calls_of m' w + cb_weight m' (CbDefine m "").
Proof.
  unfold calls_of, cb_weight. simpl. rewrite filter_cons. simpl.
  destruct (decide (m = m')); simpl; lia.
Qed.

(** Invoking [define] is the one step that adds to the trace. *)
Lemma Promise_try_budget (m : nat) (fn : jsfun) (deps : value) (w : world) :
  budget_step (λ m', cb_weight m' (CbDefine m "")) w (Promise_try m fn deps w).2.
Proof.
  unfold Promise_try.
  set (w0 := set_trace (Called m (call_args deps w) :: trace w) w).
  assert (H0 : budget_step (λ m', cb_weight m' (CbDefine m "")) w w0).
  { intros m'. unfold budget. unfold w0 at 2. rewrite calls_of_cons.
    change (pending_define m' w0) with (pending_define m' w).
    change (unstarted m' w0) with (unstarted m' w). lia. }
  destruct (body fn (call_args deps w)) as [x|err|].
  - pose proof (new_promise_budget pending_promise w0 eq_refl) as Hn.
    destruct (new_promise pending_promise w0) as [e w1]. simpl in *.
    eapply budget_step_trans_r; [exact H0|].
    eapply budget_step_trans; [exact Hn|apply resolve_with_budget].
  - eapply budget_step_trans_r; [exact H0|apply Promise_reject_budget].
  - pose proof (new_promise_budget (mkPromise None [] [] true) w0 eq_refl) as Hn.
    destruct (new_promise (mkPromise None [] [] true) w0) as [x w1]. simpl in Hn.
    pose proof (new_promise_budget pending_promise w1 eq_refl) as Hn'.
    destruct (new_promise pending_promise w1) as [e w2]. simpl in *.
    eapply budget_step_trans_r; [exact H0|].
    eapply budget_step_trans; [exact Hn|].
    eapply budget_step_trans; [exact Hn'|].
    eapply budget_step_weaken; [|apply subscribe_budget]. done.
Qed.

Lemma set_container_budget (c : Container) (w : world) :
  budget_step no_slack w (set_container c w).
Proof. intros m. unfold no_slack. change (budget m (set_container c w)) with (budget m w). lia. Qed.

Lemma overlay_keys_only_objects (keys : list string) (orig part : value) (w w' : world) :
  overlay_keys keys orig part w = Some w' → w' = set_objects (objects w') w.
Proof.
  revert w. induction keys as [|key keys IH]; intros w; simpl.
  - intros [= <-]. by destruct w.
  - destruct (get_prop w part key) as [x|]; [|done]. simpl.
    destruct (not_undefined x); simpl; [|apply IH].
    destruct (set_prop orig key x w) as [w1|] eqn:Hset; [|done]. simpl.
    intros Hk. rewrite (IH _ Hk). unfold set_prop in Hset.
    destruct orig; simplify_eq. done.
Qed.

Lemma performPartialMock_budget (v p : value) (w w' : world) :
  performPartialMock v p w = Some w' → budget_step no_slack w w'.
Proof.
  unfold performPartialMock. destruct (own_keys w v) as [keys|]; [|done]. simpl.
  intros H. apply overlay_keys_only_objects in H. rewrite H.
  intros m. unfold no_slack. change (budget m (set_objects _ w)) with (budget m w). lia.
Qed.

Lemma run_callback_budget (cb : callback) (v : value) (tgt : nat) (w : world) :
  budget_step (λ m, cb_weight m cb) w (run_callback cb v tgt w).
Proof.
  destruct cb as [m nm|m cell|cell]; simpl.
  - destruct (modules w !! m) as [md|]; [|intros m'; lia].
    pose proof (Promise_try_budget m (define md) v w) as Ht.
    destruct (Promise_try m (define md) v w) as [x w1]. simpl in Ht.
    eapply budget_step_trans_r.
    { eapply budget_step_weaken; [|exact Ht]. intros m'. simpl. done. }
    eapply budget_step_trans; [|apply resolve_with_budget].
    eapply budget_step_trans; [|apply set_container_budget].
    eapply budget_step_trans; [|apply update_module_budget; intros ? ?; simpl; done].
    apply update_module_budget. intros ? ?; simpl; done.
  - set (w1 := set_cells (<[cell := v]> (cells w)) w).
    pose proof (Promise_resolve_budget
                  (match modules w !! m with
                   | Some module => resolvingPromise module
                   | None => VUndef
                   end) w1) as Hp.
    destruct (Promise_resolve _ w1) as [x w2]. simpl in Hp.
    eapply budget_step_trans; [|apply resolve_with_budget].
    eapply budget_step_trans; [|exact Hp].
    intros m'. unfold no_slack. change (budget m' w1) with (budget m' w). lia.
  - destruct (performPartialMock v _ w) as [w1|] eqn:Hp; [|apply settle_budget].
    eapply budget_step_trans; [by eapply performPartialMock_budget|apply resolve_with_budget].
Qed.

Lemma fill_slot_budget (t i : nat) (v : value) (w : world) :
  budget_step no_slack w (fill_slot t i v w).
Proof.
  apply budget_step_frame.
  - unfold fill_slot. destruct (promises w !! t); by repeat split.
  - intros m. rewrite pending_fill_slot. unfold no_slack. lia.
Qed.

Lemma run_job_budget (j : reaction * outcome) (w : world) :
  budget_step (λ m, weight m j.1) w (run_job j w).
Proof.
  destruct j as [[cb tgt|tgt|tgt i] [v|e]]; simpl.
  - apply run_callback_budget.
  - eapply budget_step_weaken; [|apply settle_budget]. intros m. unfold no_slack. lia.
  - apply settle_budget.
  - apply settle_budget.
  - eapply budget_step_trans; [apply fill_slot_budget|apply finish_all_budget].
  - apply settle_budget.
Qed.

Lemma tick_budget (w w' : world) : tick w = Some w' → budget_step no_slack w w'.
Proof.
  unfold tick. destruct (queue w) as [|j q] eqn:Hq; [done|]. intros [= <-] m.
  pose proof (run_job_budget j (set_queue q w) m) as Hj. cbv beta in Hj.
  assert (budget m (set_queue q w) + weight m j.1 = budget m w); [|unfold no_slack; lia].
  unfold budget, pending_define.
  change (calls_of m (set_queue q w)) with (calls_of m w).
  change (unstarted m (set_queue q w)) with (unstarted m w).
  simpl. rewrite Hq. simpl. lia.
Qed.

Lemma env_settle_budget (p : nat) (o : outcome) (w : world) :
  budget_step no_slack w (env_settle p o w).
Proof.
  unfold env_settle. destruct (promises w !! p) as [pr|]; [|apply budget_step_refl].
  destruct o as [[]|]; try apply budget_step_refl;
    destruct (external pr); try apply budget_step_refl; apply settle_budget.
Qed.

(** A new record takes the place, and the budget, of the record that was
    not there yet. *)
Lemma new_module_budget (n : string) (deps : list string) (fn : jsfun) (w : world) :
  budget_step no_slack w (new_module (new_Module n deps fn) w).2.
Proof.
  intros m. unfold no_slack, budget. simpl.
  change (pending_define m (set_modules _ w)) with (pending_define m w).
  change (calls_of m (set_modules _ w)) with (calls_of m w).
  assert (unstarted m (set_modules (modules w ++ [new_Module n deps fn]) w)
          ≤ unstarted m w); [|lia].
  unfold unstarted. simpl.
  destruct (modules w !! m) as [md|] eqn:Hm.
  - by rewrite (lookup_app_l_Some _ _ _ _ Hm).
  - destruct ((modules w ++ [new_Module n deps fn]) !! m) as [md'|] eqn:Hm'; [|done].
    apply lookup_app_Some in Hm' as [Hm'|[_ Hm']]; [congruence|].
    apply list_lookup_singleton_Some in Hm' as [_ <-]. done.
Qed.

Lemma register_budget (name : value) (deps : decl) : keeps no_slack (register name deps).
Proof.
  unfold register. apply keeps_bind.
  { apply keeps_modify. intros w. apply set_container_budget. }
  intros _. destruct name as [| | |n| | | |]; try apply keeps_throw.
  destruct (decide (n = "")); [apply keeps_throw|].
  assert (Hinstall : ∀ ds fn,
    keeps no_slack
      (let* m := liftM (new_module (new_Module n ds fn)) in
       modifyM (λ w, set_container
                       (set__modules (<[n := m]> (_modules (container w)))
                          (container w)) w))).
  { intros ds fn. apply keeps_bind; [apply keeps_lift, new_module_budget|].
    intros m. apply keeps_modify. intros w. apply set_container_budget. }
  destruct deps as [|f|names [f|]]; simpl; try apply keeps_throw.
  all: intros w; apply keeps_at_get.
  all: destruct (_modules (container w) !! n) as [old|]; [|apply Hinstall].
  all: destruct (in_names n (mock_modules (options (container w)))); [apply keeps_ret|].
  all: destruct (in_names n (partial_mock_modules (options (container w))));
         [|apply keeps_throw].
  all: apply keeps_bind; [|intros _; apply Hinstall].
  all: apply keeps_modify; intros w0; apply set_container_budget.
Qed.

Lemma registerAndExport_budget (name obj : value) :
  keeps no_slack (registerAndExport name obj).
Proof.
  unfold registerAndExport. apply keeps_bind; [apply register_budget|].
  intros _. destruct name; try apply keeps_ret.
  intros w. apply keeps_at_get.
  destruct (_modules (container w) !! s) as [m|]; [|apply keeps_ret].
  apply keeps_bind;
    [apply keeps_modify; intros w0; apply update_module_budget; intros ? ?; simpl; done|].
  intros _. apply keeps_bind;
    [apply keeps_modify; intros w0; apply update_module_budget; intros ? ?; simpl; done|].
  intros _. apply keeps_ret.
Qed.

Lemma exec_budget {A} (c : M A) (w : world) :
  keeps no_slack c → budget_step no_slack w (exec c w).
Proof.
  intros Hc. unfold exec. destruct (c w) as [[r w']|] eqn:Hr; [|apply budget_step_refl].
  by eapply Hc.
Qed.

Lemma apply_op_budget (o : op) (w : world) : budget_step no_slack w (apply_op o w).
Proof.
  destruct o as [n d|n obj|n| |p o]; unfold apply_op.
  - apply exec_budget, register_budget.
  - apply exec_budget, registerAndExport_budget.
  - apply exec_budget, resolve_budget.
  - destruct (tick w) as [w'|] eqn:Ht; [by apply tick_budget|apply budget_step_refl].
  - apply env_settle_budget.
Qed.

Lemma apply_ops_budget (ops : list op) (w : world) :
  budget_step no_slack w (apply_ops ops w).
Proof.
  revert w. induction ops as [|o ops IH]; intros w; [apply budget_step_refl|].
  change (apply_ops (o :: ops) w) with (apply_ops ops (apply_op o w)).
  eapply budget_step_trans; [apply apply_op_budget|apply IH].
Qed.

(** In every world reached from a new container, the [define] of each
    module record has been invoked at most once, and not at all while the
    record is in state [registered]; at most one callback of line 211 is
    still waiting for it, and none once [define] has run. *)
Lemma define_at_most_once (opts : Options) (objs : list object) (ops : list op) (m : nat) :
  let w := apply_ops ops (world_init opts objs) in
  pending_define m w + calls_of m w ≤ 1
  ∧ (∀ md, modules w !! m = Some md → state md = registered →
           pending_define m w = 0 ∧ calls_of m w = 0).
Proof.
  intros w. pose proof (apply_ops_budget ops (world_init opts objs) m) as Hb.
  fold w in Hb. unfold no_slack in Hb.
  assert (H0 : budget m (world_init opts objs) = 1) by reflexivity.
  unfold budget in Hb at 1. split; [lia|].
  intros md Hm Hs. assert (unstarted m w = 1); [|lia].
  unfold unstarted. rewrite Hm, Hs. done.
Qed.

(** ** Resolving again (claims C1 and C2) *)

(** A resolved record is answered from the cache (lines 155-158): the
    returned promise carries [exported], and nothing but that promise is
    made. *)
Lemma resolve_cache_hit (fuel : nat) (n : string) (partial : bool) (w : world)
    (m : nat) (md : Module) :
  module_at (registry partial w) n w = Some (m, md) →
  state md = resolved →
  ∃ r w', resolve (S fuel) n partial w = Some (Ret r, w')
          ∧ same_registry w w' ∧ queue w' = queue w
          ∧ outcome_of w' r = outcome_of_value w (exported md).
Proof.
  intros Hm Hs. rewrite (resolve_cached fuel n partial w m md Hm Hs).
  eexists _, _. split; [reflexivity|]. split; [apply Promise_resolve_frame|].
  destruct (exported md); simpl; try (split; [done|]); try done.
  all: by rewrite lookup_app_r, Nat.sub_diag by done.
Qed.

(** C2.  When [resolve] is called for a module in state [resolving] and
    passes the two checks that precede the test of the state (every
    declared dependency is registered, no cycle is detected), it returns the
    module's in-flight promise and starts nothing: no module record, no
    promise, no queued reaction and no [define] invocation is added.  So in
    every world reached from a new container, each module record has at
    most one callback of line 211 waiting to invoke its [define], and none
    once its [define] has run.  In the diamond [a -> {b, c}], [b -> d],
    [c -> d], resolving [a] succeeds and invokes the [define] of [d] exactly
    once. *)
Theorem in_flight_resolution_is_shared :
  (∀ (fuel : nat) (n : string) (partial : bool) (w : world) (m : nat) (md : Module),
     module_at (registry partial w) n w = Some (m, md) →
     state md = resolving →
     first_missing w (dependencies md) = None →
     (ensure_cycles w).1 = inr [] →
     ∃ w', resolve (S fuel) n partial w = Some (Ret (resolvingPromise md), w')
           ∧ nothing_started w w' ∧ promises w' = promises w)
  ∧ (∀ (opts : Options) (objs : list object) (ops : list op) (m : nat),
       let w := apply_ops ops (world_init opts objs) in
       pending_define m w + calls_of m w ≤ 1)
  ∧ (∀ fa fb fc fd : list value → string,
       outcome_after "a" (diamond_world fa fb fc fd)
       = Some (Fulfilled (VStr (fa [VStr (fb [VStr (fd [])]); VStr (fc [VStr (fd [])])])))
       ∧ calls_of 0 (world_after "a" (diamond_world fa fb fc fd)) = 1).
Proof.
  split; [|split].
  - intros fuel n partial w m md Hm Hs Hd Hc. eexists. split; [by eapply resolve_in_flight|].
    split; [apply nothing_started_ensure|]. by destruct (ensure_cycles_frame w) as (_ & ? & _).
  - intros opts objs ops m. apply define_at_most_once.
  - intros fa fb fc fd. split; [apply diamond_world_resolves|apply diamond_defines_d_once].
Qed.

Lemma in_flight_witness :
  ∃ md w',
    module_at (registry false diamond_started) "d" diamond_started = Some (0, md)
    ∧ state md = resolving
    ∧ resolve 1 "d" false diamond_started = Some (Ret (resolvingPromise md), w')
    ∧ trace w' = trace diamond_started.
Proof.
  destruct in_flight_resolution_is_shared as [H _].
  pose (md := default (new_Module "" [] (mkFun [] (λ _, DAwait))) (modules diamond_started !! 0)).
  destruct (H 0 "d" false diamond_started 0 md) as (w' & Hr & Hn & _).
  - by vm_compute.
  - by vm_compute.
  - by vm_compute.
  - by vm_compute.
  - exists md, w'. split; [by vm_compute|]. split; [by vm_compute|]. split; [done|].
    by destruct Hn as (_ & _ & ? & _).
Defined.

(** C1.  In every world reached from a new container, the [define] of each
    module record has been invoked at most once.  A [resolve] that finds
    the record of the name in state [resolved] takes the cache branch: it
    returns a promise that carries the record's [exported], and changes
    neither module records nor registries, queues nothing and invokes no
    [define].  The value is not always the one the first resolution
    yielded, though.  In the test's partial-mock container,
    [resolve("foo")] yields the real object (number 1) overlaid with the
    mock's [get_x]; the callback of the shadow resolution then stores the
    shadow record under [this._modules["foo"]], so a second
    [resolve("foo")] yields the mock object (number 0), which has no
    [get_y]. *)
Theorem second_resolve_after_first :
  (∀ (opts : Options) (objs : list object) (ops : list op) (m : nat),
     calls_of m (apply_ops ops (world_init opts objs)) ≤ 1)
  ∧ (∀ (fuel : nat) (n : string) (partial : bool) (w : world) (m : nat) (md : Module),
       module_at (registry partial w) n w = Some (m, md) →
       state md = resolved →
       ∃ r w', resolve (S fuel) n partial w = Some (Ret r, w')
               ∧ same_registry w w' ∧ queue w' = queue w
               ∧ outcome_of w' r = outcome_of_value w (exported md))
  ∧ (let w1 := world_after "foo" partial_mock_world in
     let w2 := world_after "foo" w1 in
     outcome_after "foo" partial_mock_world = Some (Fulfilled (VObj 1))
     ∧ outcome_after "foo" w1 = Some (Fulfilled (VObj 0))
     ∧ get_prop w2 (VObj 1) "get_y" = Some (VFun 2)
     ∧ get_prop w2 (VObj 0) "get_y" = Some VUndef
     ∧ _modules (container partial_mock_world) !! "foo" = Some 1
     ∧ _modules (container w1) !! "foo" = Some 0
     ∧ trace w2 = trace w1).
Proof.
  split; [|split].
  - intros opts objs ops m.
    pose proof (define_at_most_once opts objs ops m) as [H _]. cbv zeta in H. lia.
  - apply resolve_cache_hit.
  - vm_compute. by repeat split.
Qed.

Lemma second_resolve_witness :
  ∃ r w',
    resolve 1 "first" false (world_after "first" mock_world) = Some (Ret r, w')
    ∧ outcome_of w' r = Some (Fulfilled (VStr "mock")).
Proof.
  destruct second_resolve_after_first as (_ & H & _).
  edestruct (H 0 "first" false (world_after "first" mock_world))
    as (r & w' & Hr & _ & _ & Ho).
  - vm_compute. reflexivity.
  - vm_compute. reflexivity.
  - exists r, w'. split; [exact Hr|]. rewrite Ho. vm_compute. reflexivity.
Defined.

(** ** Successful registrations (container.js:108-124) *)

Lemma register_fresh (n : string) (deps : decl) (fn : jsfun) (w : world) :
  n ≠ "" → callable_of deps = Some fn →
  _modules (container w) !! n = None →
  register (VStr n) deps w
  = Some (Ret tt, install n (extractDependencies deps).1 fn (invalidate w)).
Proof.
  intros Hn Hc Hnew. unfold register. unfold_M. simpl.
  destruct (decide (n = "")) as [|_]; [done|].
  unfold callable_of in Hc.
  destruct deps as [|f|names [f|]]; simpl in *; try done;
    rewrite Hnew; by simplify_eq.
Qed.

Lemma register_partial_mock (n : string) (deps : decl) (fn : jsfun) (old : nat) (w : world) :
  n ≠ "" → callable_of deps = Some fn →
  _modules (container w) !! n = Some old →
  n ∉ mock_modules (options (container w)) →
  n ∈ partial_mock_modules (options (container w)) →
  register (VStr n) deps w
  = Some (Ret tt, install n (extractDependencies deps).1 fn (shadow n old (invalidate w))).
Proof.
  intros Hn Hc Hold Hm Hp. unfold register. unfold_M. simpl.
  destruct (decide (n = "")) as [|_]; [done|].
  unfold callable_of in Hc. unfold in_names.
  destruct deps as [|f|names [f|]]; simpl in *; try done;
    rewrite Hold; rewrite bool_decide_eq_false_2 by done;
    rewrite bool_decide_eq_true_2 by done; by simplify_eq.
Qed.

(** What [install] leaves as it was. *)
Lemma install_frame (n : string) (ds : list string) (fn : jsfun) (w : world) :
  let w' := install n ds fn w in
  module_at (_modules (container w')) n w' = Some (length (modules w), new_Module n ds fn)
  ∧ (∀ n', n' ≠ n → _modules (container w') !! n' = _modules (container w) !! n')
  ∧ (∀ m md, modules w !! m = Some md → modules w' !! m = Some md)
  ∧ _partial_modules (container w') = _partial_modules (container w)
  ∧ promises w' = promises w ∧ queue w' = queue w ∧ trace w' = trace w
  ∧ objects w' = objects w.
Proof.
  simpl. split; [|split; [|split]].
  - unfold module_at. simpl. rewrite lookup_insert_eq. simpl.
    by rewrite list_lookup_middle.
  - intros n' Hne. by rewrite lookup_insert_ne.
  - intros m md Hm. by apply lookup_app_l_Some.
  - done.
Qed.

(** X1.  [register] of a valid name that is not registered yet, with a
    declaration that provides a function, returns without throwing.
    Afterwards [isRegistered] holds for the name, which maps to a new
    record in state [registered] with the declared dependencies and
    function; no other name changes its registration, every earlier record
    is kept, the shadow registry, the promises, the queue and the trace stay
    as they were, and the cached cycles are forgotten. *)
Theorem register_installs_module (n : string) (deps : decl) (fn : jsfun) (w : world) :
  n ≠ "" → callable_of deps = Some fn →
  isRegistered n w = false →
  ∃ w', register (VStr n) deps w = Some (Ret tt, w')
        ∧ isRegistered n w' = true
        ∧ module_at (_modules (container w')) n w'
          = Some (length (modules w),
                  mkModule n (extractDependencies deps).1 fn registered VNull VUndef)
        ∧ (∀ n', n' ≠ n → isRegistered n' w' = isRegistered n' w)
        ∧ (∀ m md, modules w !! m = Some md → modules w' !! m = Some md)
        ∧ _partial_modules (container w') = _partial_modules (container w)
        ∧ promises w' = promises w ∧ queue w' = queue w ∧ trace w' = trace w
        ∧ _cycles (container w') = None.
Proof.
  intros Hn Hc Hnew. unfold isRegistered in Hnew.
  apply bool_decide_eq_false in Hnew. rewrite <- eq_None_not_Some in Hnew.
  eexists. split; [by apply register_fresh|].
  destruct (install_frame n (extractDependencies deps).1 fn (invalidate w))
    as (Hat & Hother & Hold & Hp & Hpr & Hq & Ht & _).
  split; [|split; [exact Hat|split; [|split; [exact Hold|done]]]].
  - unfold isRegistered. apply bool_decide_eq_true. simpl. by rewrite lookup_insert_eq.
  - intros n' Hne. unfold isRegistered. by rewrite (Hother n' Hne).
Qed.

Lemma register_installs_witness :
  ∃ w', register (VStr "a") (DeclArr ["b"; "c"] (Some (mkFun ["x"; "y"] (λ _, DReturn VNull))))
          empty_world = Some (Ret tt, w')
        ∧ isRegistered "a" w' = true
        ∧ (dependencies <$> modules w' !! 0) = Some ["b"; "c"].
Proof.
  destruct (register_installs_module "a"
              (DeclArr ["b"; "c"] (Some (mkFun ["x"; "y"] (λ _, DReturn VNull))))
              (mkFun ["x"; "y"] (λ _, DReturn VNull)) empty_world)
    as (w' & Hr & Hreg & Hat & _).
  - discriminate.
  - reflexivity.
  - reflexivity.
  - exists w'. split; [exact Hr|]. split; [exact Hreg|].
    apply module_at_lookup in Hat as [_ Hat]. simpl in Hat. by rewrite Hat.
Defined.

(** X2.  [register] of a name that is registered and in the partial-mock
    set (and not in the full-mock set) returns without throwing: the record
    that was active becomes the shadow of the name, replacing any earlier
    shadow, and a new record in state [registered] becomes the active one.
    The earlier records themselves and all other names are left as they
    were. *)
Theorem register_shadows_previous (n : string) (deps : decl) (fn : jsfun) (old : nat)
    (w : world) :
  n ≠ "" → callable_of deps = Some fn →
  _modules (container w) !! n = Some old →
  n ∉ mock_modules (options (container w)) →
  n ∈ partial_mock_modules (options (container w)) →
  ∃ w', register (VStr n) deps w = Some (Ret tt, w')
        ∧ _partial_modules (container w') !! n = Some old
        ∧ module_at (_modules (container w')) n w'
          = Some (length (modules w),
                  mkModule n (extractDependencies deps).1 fn registered VNull VUndef)
        ∧ (∀ m md, modules w !! m = Some md → modules w' !! m = Some md)
        ∧ (∀ n', n' ≠ n →
             _modules (container w') !! n' = _modules (container w) !! n'
             ∧ _partial_modules (container w') !! n' = _partial_modules (container w) !! n').
Proof.
  intros Hn Hc Hold Hm Hp.
  eexists. split; [by apply register_partial_mock|].
  destruct (install_frame n (extractDependencies deps).1 fn (shadow n old (invalidate w)))
    as (Hat & Hother & Hrec & Hpm & _).
  split; [|split; [exact Hat|split; [exact Hrec|]]].
  - rewrite Hpm. simpl. by rewrite lookup_insert_eq.
  - intros n' Hne. split; [by rewrite (Hother n' Hne)|].
    rewrite Hpm. simpl. by rewrite lookup_insert_ne.
Qed.

Lemma register_shadows_witness :
  ∃ w', register (VStr "foo") (DeclFn (mkFun [] (λ _, DReturn (VObj 1))))
          (apply_ops [OpRegister (VStr "foo") (DeclFn (mkFun [] (λ _, DReturn (VObj 0))))]
             (world_init (mkOptions [] ["foo"]) []))
        = Some (Ret tt, w')
        ∧ _partial_modules (container w') !! "foo" = Some 0
        ∧ _modules (container w') !! "foo" = Some 1.
Proof.
  destruct (register_shadows_previous "foo" (DeclFn (mkFun [] (λ _, DReturn (VObj 1))))
              (mkFun [] (λ _, DReturn (VObj 1))) 0
              (apply_ops [OpRegister (VStr "foo") (DeclFn (mkFun [] (λ _, DReturn (VObj 0))))]
                 (world_init (mkOptions [] ["foo"]) [])))
    as (w' & Hr & Hsh & Hat & _).
  - discriminate.
  - reflexivity.
  - reflexivity.
  - vm_compute. apply not_elem_of_nil.
  - vm_compute. apply list_elem_of_here.
  - exists w'. split; [exact Hr|]. split; [exact Hsh|].
    by apply module_at_lookup in Hat as [Hat _].
Defined.

(** ** Names stay registered *)

Lemma registrations_kept_refl (w : world) : registrations_kept w w.
Proof. by split. Qed.

Lemma registrations_kept_trans (w1 w2 w3 : world) :
  registrations_kept w1 w2 → registrations_kept w2 w3 → registrations_kept w1 w3.
Proof.
  intros (H1 & H1' & Ho1) (H2 & H2' & Ho2).
  split; [|split]; [intros n Hn; auto..|congruence].
Qed.

Lemma registrations_kept_eq (w w' : world) :
  _modules (container w') = _modules (container w) →
  _partial_modules (container w') = _partial_modules (container w) →
  options (container w') = options (container w) →
  registrations_kept w w'.
Proof. intros Hm Hp Ho. unfold registrations_kept. by rewrite Hm, Hp. Qed.

Lemma same_registry_kept (w w' : world) : same_registry w w' → registrations_kept w w'.
Proof. intros (_ & _ & Hm & Hp & Ho). by apply registrations_kept_eq. Qed.

Lemma registrations_kept_insert (n : string) (m : nat) (w w' : world) :
  _modules (container w') = <[n := m]> (_modules (container w)) →
  _partial_modules (container w') = _partial_modules (container w) →
  options (container w') = options (container w) →
  registrations_kept w w'.
Proof.
  intros Hm Hp Ho. unfold registrations_kept. rewrite Hm, Hp. split; [|done].
  intros n' Hn'. destruct (decide (n' = n)) as [->|Hne].
  - by rewrite lookup_insert_eq.
  - by rewrite lookup_insert_ne.
Qed.

Lemma Promise_try_registry (m : nat) (fn : jsfun) (deps : value) (w : world) :
  _modules (container (Promise_try m fn deps w).2) = _modules (container w)
  ∧ _partial_modules (container (Promise_try m fn deps w).2)
    = _partial_modules (container w)
  ∧ options (container (Promise_try m fn deps w).2) = options (container w).
Proof.
  unfold Promise_try. destruct (body fn (call_args deps w)) as [x|err|]; simpl.
  - match goal with
    | |- context [resolve_with ?t ?x ?w0] =>
        destruct (resolve_with_frame t x w0) as (_ & _ & -> & -> & ->)
    end. done.
  - done.
  - match goal with
    | |- context [subscribe ?p ?r ?w0] =>
        destruct (subscribe_frame p r w0) as (_ & _ & -> & -> & ->)
    end. done.
Qed.

Lemma run_callback_kept (cb : callback) (v : value) (tgt : nat) (w : world) :
  registrations_kept w (run_callback cb v tgt w).
Proof.
  destruct cb as [m nm|m cell|cell]; simpl.
  - destruct (modules w !! m) as [md|]; [|apply registrations_kept_refl].
    destruct (Promise_try_registry m (define md) v w) as (Hm & Hp & Ho).
    destruct (Promise_try m (define md) v w) as [x w1]. simpl in *.
    eapply registrations_kept_trans; [|apply same_registry_kept, resolve_with_frame].
    apply (registrations_kept_insert nm m); simpl; [by rewrite Hm|by rewrite Hp|done].
  - destruct (Promise_resolve _ _) as [x w2] eqn:Hx.
    pose proof (Promise_resolve_frame
                  (match modules w !! m with
                   | Some module => resolvingPromise module
                   | None => VUndef
                   end) (set_cells (<[cell:=v]> (cells w)) w)) as Hf.
    rewrite Hx in Hf. simpl in Hf.
    eapply registrations_kept_trans; [|apply same_registry_kept, resolve_with_frame].
    eapply registrations_kept_trans; [|apply same_registry_kept, Hf].
    by apply registrations_kept_eq.
  - destruct (performPartialMock _ _ _) as [w1|] eqn:Hp.
    + eapply registrations_kept_trans; [|apply same_registry_kept, resolve_with_frame].
      unfold performPartialMock in Hp. destruct (own_keys w v) as [keys|]; [|done].
      simpl in Hp. apply overlay_keys_only_objects in Hp. rewrite Hp.
      by apply registrations_kept_eq.
    + apply same_registry_kept, settle_frame.
Qed.

Lemma run_job_kept (j : reaction * outcome) (w : world) :
  registrations_kept w (run_job j w).
Proof.
  destruct j as [[cb tgt|tgt|tgt i] [v|e]]; simpl;
    try apply run_callback_kept; try apply same_registry_kept, settle_frame.
  eapply registrations_kept_trans; [|apply same_registry_kept, finish_all_frame].
  apply registrations_kept_eq; unfold fill_slot; by destruct (promises w !! tgt).
Qed.

Lemma register_kept (name : value) (deps : decl) (w : world) (r : res unit) (w' : world) :
  register name deps w = Some (r, w') → registrations_kept w w'.
Proof.
  unfold register. unfold_M. simpl.
  destruct name as [| | |n| | | |]; try (intros [= <- <-]; by apply registrations_kept_eq).
  destruct (decide (n = "")); [intros [= <- <-]; by apply registrations_kept_eq|].
  destruct deps as [|f|names [f|]]; simpl;
    try (intros [= <- <-]; by apply registrations_kept_eq).
  all: destruct (_modules (container w) !! n) as [old|] eqn:Hold.
  all: try destruct (in_names n (mock_modules (options (container w)))).
  all: try destruct (in_names n (partial_mock_modules (options (container w)))).
  all: intros [= <- <-]; try by apply registrations_kept_eq.
  all: try by apply (registrations_kept_insert n (length (modules w))).
  all: split; [|split; [|done]]; simpl; intros n' Hn';
         (destruct (decide (n' = n)) as [->|Hne];
          [by rewrite lookup_insert_eq|by rewrite lookup_insert_ne]).
Qed.

Lemma registerAndExport_kept (name obj : value) (w : world) (r : res value) (w' : world) :
  registerAndExport name obj w = Some (r, w') → registrations_kept w w'.
Proof.
  unfold registerAndExport. unfold bindM at 1.
  destruct (register name _ w) as [[[[]|e] w1]|] eqn:Hreg; [| |done].
  - apply register_kept in Hreg. destruct name; try by intros [= <- <-].
    unfold_M. destruct (_modules (container w1) !! s); intros [= <- <-]; [|done].
    eapply registrations_kept_trans; [exact Hreg|]. by apply registrations_kept_eq.
  - apply register_kept in Hreg. by intros [= <- <-].
Qed.

Lemma apply_op_kept (o : op) (w : world) : registrations_kept w (apply_op o w).
Proof.
  destruct o as [n d|n obj|n| |p o]; unfold apply_op, exec.
  - destruct (register n d w) as [[r w']|] eqn:Hr; [|apply registrations_kept_refl].
    by eapply register_kept.
  - destruct (registerAndExport n obj w) as [[r w']|] eqn:Hr; [|apply registrations_kept_refl].
    by eapply registerAndExport_kept.
  - destruct (resolve_total n false w) as (r & w' & -> & _ & _ & _ & Hm & Hp & Ho).
    by apply registrations_kept_eq.
  - unfold tick. destruct (queue w) as [|j q]; [apply registrations_kept_refl|].
    eapply registrations_kept_trans; [|apply run_job_kept]. by apply registrations_kept_eq.
  - unfold env_settle. destruct (promises w !! p) as [pr|]; [|apply registrations_kept_refl].
    destruct o as [[]|]; try apply registrations_kept_refl;
      destruct (external pr); try apply registrations_kept_refl;
      apply same_registry_kept, settle_frame.
Qed.

Lemma apply_ops_kept (ops : list op) (w : world) : registrations_kept w (apply_ops ops w).
Proof.
  revert w. induction ops as [|o ops IH]; intros w; [apply registrations_kept_refl|].
  change (apply_ops (o :: ops) w) with (apply_ops ops (apply_op o w)).
  eapply registrations_kept_trans; [apply apply_op_kept|apply IH].
Qed.

(** X3.  No operation unregisters a name: once [isRegistered] holds for a
    name it holds after every further sequence of registrations,
    resolutions, turns of the event loop and settlements; likewise a name
    that has a shadow module keeps one. *)
Theorem registered_names_stay (ops : list op) (w : world) (n : string) :
  (isRegistered n w = true → isRegistered n (apply_ops ops w) = true)
  ∧ (is_Some (_partial_modules (container w) !! n) →
     is_Some (_partial_modules (container (apply_ops ops w)) !! n)).
Proof.
  destruct (apply_ops_kept ops w) as (Hm & Hp & _). split; [|apply Hp].
  unfold isRegistered. rewrite !bool_decide_eq_true. apply Hm.
Qed.

Lemma registered_names_witness :
  isRegistered "a"
    (apply_ops [OpResolve "a"; OpTick; OpRegister (VStr "b") DeclNone; OpTick]
       (apply_ops [OpRegister (VStr "a") (DeclFn (mkFun [] (λ _, DReturn VNull)))]
          (world_init (mkOptions [] []) []))) = true.
Proof.
  apply (registered_names_stay
           [OpResolve "a"; OpTick; OpRegister (VStr "b") DeclNone; OpTick]
           (apply_ops [OpRegister (VStr "a") (DeclFn (mkFun [] (λ _, DReturn VNull)))]
              (world_init (mkOptions [] []) [])) "a").
  reflexivity.
Defined.


(** ** [registerAndExport] (container.js:135-140) *)

Lemma registerAndExport_fresh (n : string) (obj : value) (w : world) :
  n ≠ "" → _modules (container w) !! n = None →
  registerAndExport (VStr n) obj w
  = Some (Ret obj,
          mark_resolved (length (modules w)) obj
            (install n [] (constant_fn obj) (invalidate w))).
Proof.
  intros Hn Hnew. unfold registerAndExport. unfold bindM at 1.
  pose proof (register_fresh n (DeclFn (constant_fn obj)) (constant_fn obj) w Hn eq_refl Hnew)
    as Hreg.
  unfold constant_fn in Hreg at 1. rewrite Hreg.
  unfold_M. simpl. by rewrite lookup_insert_eq.
Qed.

Lemma mark_resolved_installed (n : string) (obj : value) (w : world) :
  let w' := mark_resolved (length (modules w)) obj (install n [] (constant_fn obj) w) in
  module_at (_modules (container w')) n w'
  = Some (length (modules w), mkModule n [] (constant_fn obj) resolved obj VUndef)
  ∧ (∀ m md, modules w !! m = Some md → modules w' !! m = Some md).
Proof.
  simpl. split.
  - unfold module_at. simpl. rewrite lookup_insert_eq. simpl.
    rewrite !list_lookup_alter_eq, list_lookup_middle by done. done.
  - intros m md Hm. pose proof (lookup_lt_Some _ _ _ Hm) as Hlt.
    rewrite !list_lookup_alter_ne by lia. by apply lookup_app_l_Some.
Qed.

(** X5.  [registerAndExport] of a valid name that is not registered yet
    returns the object and registers a record that is resolved from the
    start, with the object as [exported] and no dependencies; it invokes
    nothing and touches neither promises nor queue.  A [resolve] of the name
    then takes the cache branch: it returns a promise for the object
    without invoking any [define]. *)
Theorem registerAndExport_caches_object (n : string) (obj : value) (w : world) :
  n ≠ "" → isRegistered n w = false →
  ∃ w', registerAndExport (VStr n) obj w = Some (Ret obj, w')
        ∧ module_at (_modules (container w')) n w'
          = Some (length (modules w), mkModule n [] (constant_fn obj) resolved obj VUndef)
        ∧ (∀ m md, modules w !! m = Some md → modules w' !! m = Some md)
        ∧ trace w' = trace w ∧ promises w' = promises w ∧ queue w' = queue w
        ∧ ∀ fuel, ∃ r w'', resolve (S fuel) n false w' = Some (Ret r, w'')
                            ∧ outcome_of w'' r = outcome_of_value w' obj
                            ∧ trace w'' = trace w ∧ queue w'' = queue w.
Proof.
  intros Hn Hnew. unfold isRegistered in Hnew.
  apply bool_decide_eq_false in Hnew. rewrite <- eq_None_not_Some in Hnew.
  eexists. split; [by apply registerAndExport_fresh|].
  destruct (mark_resolved_installed n obj (invalidate w)) as [Hat Hrec].
  split; [exact Hat|]. split; [exact Hrec|]. split; [done|]. split; [done|].
  split; [done|]. intros fuel.
  destruct (resolve_cache_hit fuel n false _ _ _ Hat eq_refl)
    as (r & w'' & Hr & (_ & Ht & _) & Hq & Ho).
  exists r, w''. split; [exact Hr|]. split; [exact Ho|]. split; [by rewrite Ht|by rewrite Hq].
Qed.

Lemma registerAndExport_caches_witness :
  ∃ w' r w'',
    registerAndExport (VStr "fs") (VObj 0) empty_world = Some (Ret (VObj 0), w')
    ∧ resolve 1 "fs" false w' = Some (Ret r, w'')
    ∧ outcome_of w'' r = Some (Fulfilled (VObj 0)).
Proof.
  destruct (registerAndExport_caches_object "fs" (VObj 0) empty_world)
    as (w' & Hr & _ & _ & _ & _ & _ & Hres).
  - discriminate.
  - reflexivity.
  - destruct (Hres 0) as (r & w'' & Hr' & Ho & _).
    exists w', r, w''. split; [exact Hr|]. split; [exact Hr'|exact Ho].
Defined.

(** X6.  In a world reached from a new container, the function that
    [registerAndExport] registers for a new name is never invoked, whatever
    operations follow: the object is always served from the cache. *)
Theorem registerAndExport_never_invoked (opts : Options) (objs : list object)
    (ops ops' : list op) (n : string) (obj : value) :
  let w := apply_ops ops (world_init opts objs) in
  n ≠ "" → isRegistered n w = false →
  calls_of (length (modules w))
    (apply_ops ops' (apply_op (OpRegisterAndExport (VStr n) obj) w)) = 0.
Proof.
  intros w Hn Hnew. unfold isRegistered in Hnew.
  apply bool_decide_eq_false in Hnew. rewrite <- eq_None_not_Some in Hnew.
  set (m := length (modules w)).
  pose proof (apply_ops_budget ops (world_init opts objs) m) as Hb. fold w in Hb.
  assert (H0 : budget m (world_init opts objs) = 1) by reflexivity.
  assert (Hu : unstarted m w = 1).
  { unfold unstarted, m. by rewrite lookup_ge_None_2. }
  set (w1 := apply_op (OpRegisterAndExport (VStr n) obj) w).
  assert (Hw1 : w1 = mark_resolved m obj (install n [] (constant_fn obj) (invalidate w))).
  { unfold w1, apply_op, exec. by rewrite (registerAndExport_fresh n obj w Hn Hnew). }
  assert (Hb1 : budget m w1 = 0).
  { unfold budget in *. unfold no_slack in Hb.
    assert (Hp : pending_define m w1 = pending_define m w) by (by rewrite Hw1).
    assert (Hc : calls_of m w1 = calls_of m w) by (by rewrite Hw1).
    assert (Hu1 : unstarted m w1 = 0).
    { destruct (mark_resolved_installed n obj (invalidate w)) as [Hat _].
      apply module_at_lookup in Hat as [_ Hat]. unfold unstarted. rewrite Hw1.
      unfold m. change (length (modules w)) with (length (modules (invalidate w))).
      by rewrite Hat. }
    lia. }
  pose proof (apply_ops_budget ops' w1 m) as Hb'. unfold no_slack, budget in Hb'.
  unfold budget in Hb1. lia.
Qed.

Lemma registerAndExport_never_invoked_witness :
  calls_of 0
    (apply_ops [OpResolve "fs"; OpTick; OpResolve "fs"; OpTick]
       (apply_op (OpRegisterAndExport (VStr "fs") (VObj 0)) empty_world)) = 0.
Proof.
  apply (registerAndExport_never_invoked (mkOptions [] []) [] []
           [OpResolve "fs"; OpTick; OpResolve "fs"; OpTick] "fs" (VObj 0)).
  - discriminate.
  - reflexivity.
Defined.

(** X7.  [registerAndExport] fails as [register] does, before it marks
    anything: with a name that is not a non-empty string it throws "Must
    have a name"; with a name that is registered and in neither mock set it
    throws "name already registered".  In both cases only the cached cycles
    are forgotten: the record registered under the name keeps its state and
    its [exported]. *)
Theorem registerAndExport_errors (name obj : value) (w : world) :
  (¬ valid_name name →
   registerAndExport name obj w = Some (Thrown (VErr "Must have a name"), invalidate w))
  ∧ (∀ n old, name = VStr n → n ≠ "" →
       _modules (container w) !! n = Some old →
       n ∉ mock_modules (options (container w)) →
       n ∉ partial_mock_modules (options (container w)) →
       registerAndExport name obj w
       = Some (Thrown (VErr (n +:+ " already registered")), invalidate w)
       ∧ modules (invalidate w) = modules w
       ∧ _modules (container (invalidate w)) = _modules (container w)).
Proof.
  split.
  - intros Hn. unfold registerAndExport. unfold bindM at 1.
    pose proof (register_no_name name (DeclFn (constant_fn obj)) w Hn) as Hreg.
    unfold constant_fn in Hreg. by rewrite Hreg.
  - intros n old -> Hn Hold Hm Hp. split; [|done].
    unfold registerAndExport. unfold bindM at 1.
    pose proof (register_duplicate n (DeclFn (constant_fn obj)) (constant_fn obj) old w
                  Hn eq_refl Hold Hm Hp) as Hreg.
    unfold constant_fn in Hreg. by rewrite Hreg.
Qed.

Lemma registerAndExport_errors_witness :
  registerAndExport (VStr "") (VObj 0) empty_world
  = Some (Thrown (VErr "Must have a name"), invalidate empty_world).
Proof.
  destruct (registerAndExport_errors (VStr "") (VObj 0) empty_world) as [H _].
  apply H. intros (n & [= <-] & Hn). by apply Hn.
Defined.

Lemma registerAndExport_mocked (n : string) (obj : value) (old : nat) (w : world) :
  n ≠ "" → _modules (container w) !! n = Some old →
  n ∈ mock_modules (options (container w)) →
  registerAndExport (VStr n) obj w = Some (Ret obj, mark_resolved old obj (invalidate w)).
Proof.
  intros Hn Hold Hm. unfold registerAndExport. unfold bindM at 1.
  pose proof (register_mocked n (DeclFn (constant_fn obj)) (constant_fn obj) old w
                Hn eq_refl Hold Hm) as Hreg.
  unfold constant_fn in Hreg. rewrite Hreg.
  unfold_M. simpl. by rewrite Hold.
Qed.

Lemma registerAndExport_partial_mock (n : string) (obj : value) (old : nat) (w : world) :
  n ≠ "" → _modules (container w) !! n = Some old →
  n ∉ mock_modules (options (container w)) →
  n ∈ partial_mock_modules (options (container w)) →
  registerAndExport (VStr n) obj w
  = Some (Ret obj,
          mark_resolved (length (modules w)) obj
            (install n [] (constant_fn obj) (shadow n old (invalidate w)))).
Proof.
  intros Hn Hold Hm Hp. unfold registerAndExport. unfold bindM at 1.
  pose proof (register_partial_mock n (DeclFn (constant_fn obj)) (constant_fn obj) old w
                Hn eq_refl Hold Hm Hp) as Hreg.
  unfold constant_fn in Hreg at 1. rewrite Hreg.
  unfold_M. simpl. by rewrite lookup_insert_eq.
Qed.

(** X8.  [registerAndExport] of a name that is already registered and in a
    mock set returns the object.  For a name in the full-mock set it adds
    no record: the record of the first registration is marked [resolved]
    with the object as [exported], whatever its state and its [define]
    were.  For a name in the partial-mock set only, the record that was
    active becomes the shadow and a new resolved record holding the object
    becomes active; a [resolve] of the name then returns a promise for the
    object from the cache, with no overlay: nothing is queued and no record
    changes. *)
Theorem registerAndExport_over_mock (n : string) (obj : value) (old : nat) (w : world) :
  n ≠ "" → _modules (container w) !! n = Some old →
  (n ∈ mock_modules (options (container w)) →
   ∃ w', registerAndExport (VStr n) obj w = Some (Ret obj, w')
         ∧ _modules (container w') = _modules (container w)
         ∧ length (modules w') = length (modules w)
         ∧ (∀ md, modules w !! old = Some md →
                  modules w' !! old
                  = Some (mkModule (name md) (dependencies md) (define md) resolved obj
                            (resolvingPromise md)))
         ∧ (∀ m, m ≠ old → modules w' !! m = modules w !! m))
  ∧ (n ∉ mock_modules (options (container w)) →
     n ∈ partial_mock_modules (options (container w)) →
     ∃ w', registerAndExport (VStr n) obj w = Some (Ret obj, w')
           ∧ _partial_modules (container w') !! n = Some old
           ∧ module_at (_modules (container w')) n w'
             = Some (length (modules w), mkModule n [] (constant_fn obj) resolved obj VUndef)
           ∧ ∀ fuel, ∃ r w'', resolve (S fuel) n false w' = Some (Ret r, w'')
                               ∧ outcome_of w'' r = outcome_of_value w' obj
                               ∧ modules w'' = modules w' ∧ queue w'' = queue w'
                               ∧ trace w'' = trace w').
Proof.
  intros Hn Hold. split.
  - intros Hm. eexists. split; [by apply registerAndExport_mocked|].
    split; [done|]. unfold mark_resolved, update_module. simpl.
    split; [by rewrite !length_alter|]. split.
    + intros md Hmd. by rewrite !list_lookup_alter_eq, Hmd.
    + intros m Hne. by rewrite !list_lookup_alter_ne.
  - intros Hm Hp. eexists. split; [by apply registerAndExport_partial_mock|].
    destruct (mark_resolved_installed n obj (shadow n old (invalidate w))) as [Hat _].
    split; [simpl; by rewrite lookup_insert_eq|]. split; [exact Hat|].
    intros fuel.
    destruct (resolve_cache_hit fuel n false _ _ _ Hat eq_refl)
      as (r & w'' & Hr & (Hmods & Ht & _) & Hq & Ho).
    by exists r, w''.
Qed.

Lemma registerAndExport_over_mock_witness :
  ∃ w', registerAndExport (VStr "first") (VStr "late")
          (apply_ops [OpRegister (VStr "first") (DeclFn (str_fun [] (λ _, "mock")))]
             (world_init (mkOptions ["first"] []) []))
        = Some (Ret (VStr "late"), w')
        ∧ (exported <$> modules w' !! 0) = Some (VStr "late")
        ∧ length (modules w') = 1.
Proof.
  destruct (registerAndExport_over_mock "first" (VStr "late") 0
              (apply_ops [OpRegister (VStr "first") (DeclFn (str_fun [] (λ _, "mock")))]
                 (world_init (mkOptions ["first"] []) [])))
    as [H _].
  - discriminate.
  - reflexivity.
  - destruct H as (w' & Hr & _ & Hlen & Hrec & _).
    + vm_compute. apply list_elem_of_here.
    + exists w'. split; [exact Hr|]. split; [|exact Hlen].
      by rewrite (Hrec _ eq_refl).
Defined.

(** ** More on the overlay (container.js:235-241) *)

Lemma reads_other_object (w : world) (o p : nat) (ob' : object) (k : string) :
  o ≠ p → reads (set_objects (<[o := ob']> (objects w)) w) p k = reads w p k.
Proof. intros Hne. unfold reads. by rewrite get_prop_other_object. Qed.

Lemma overlay_value_idem (G : string → value) (k : string) (v : value) :
  overlay_value G k (overlay_value G k v) = overlay_value G k v.
Proof. unfold overlay_value. by destruct (not_undefined (G k)). Qed.

Lemma overlay_table_idem (G : string → value) (ps : list (string * value)) :
  overlay_table G (overlay_table G ps) = overlay_table G ps.
Proof.
  unfold overlay_table. rewrite <- list_fmap_compose. apply list_fmap_ext.
  intros i [k v] _. simpl. by rewrite overlay_value_idem.
Qed.

Lemma overlay_table_ext (G G' : string → value) (ps : list (string * value)) :
  (∀ k, G k = G' k) → overlay_table G ps = overlay_table G' ps.
Proof.
  intros HG. unfold overlay_table, overlay_value. apply list_fmap_ext.
  intros i [k v] _. simpl. by rewrite HG.
Qed.

(** X9.  The overlay is idempotent: for an active object [o] and a distinct
    shadow object [p], running [performPartialMock] a second time changes
    nothing. *)
Theorem performPartialMock_idempotent (o p : nat) (ob : object) (w : world) :
  o ≠ p → objects w !! o = Some ob → NoDup (props ob).*1 →
  ∃ w1, performPartialMock (VObj o) (VObj p) w = Some w1
        ∧ performPartialMock (VObj o) (VObj p) w1 = Some w1.
Proof.
  intros Hne Hob Hnd. eexists. split; [by apply performPartialMock_objects|].
  set (ob1 := mkObject (is_array ob) (overlay_table (reads w p) (props ob))).
  rewrite (performPartialMock_objects o p ob1).
  - simpl. rewrite list_insert_insert_eq.
    rewrite (overlay_table_ext _ (reads w p)) by (intros k; by apply reads_other_object).
    by rewrite overlay_table_idem.
  - done.
  - simpl. apply list_lookup_insert_eq. by eapply lookup_lt_Some.
  - simpl. by rewrite overlay_table_keys.
Qed.

Lemma performPartialMock_idempotent_witness :
  ∃ w1,
    performPartialMock (VObj 1) (VObj 0)
      (world_init (mkOptions [] [])
         [mkObject false [("get_x", VFun 150)];
          mkObject false [("get_x", VFun 1); ("get_y", VFun 2)]]) = Some w1
    ∧ performPartialMock (VObj 1) (VObj 0) w1 = Some w1.
Proof.
  apply (performPartialMock_idempotent 1 0
           (mkObject false [("get_x", VFun 1); ("get_y", VFun 2)])).
  - discriminate.
  - reflexivity.
  - simpl. apply NoDup_cons. split; [|apply NoDup_singleton].
    intros Hin. apply list_elem_of_singleton in Hin. discriminate Hin.
Defined.

(** X10.  Edge cases of the overlay.  It throws (a [TypeError]) when the
    active value is [undefined] or [null], and when the shadow value is
    [undefined] or [null] while the active object has a property.  It
    changes nothing when the active object has no property, whatever the
    shadow value is.  When it throws in the callback of line 226, the
    promise that [resolve] returned is rejected and neither a module record
    nor an object changes. *)
Theorem performPartialMock_edge_cases :
  (∀ part w, performPartialMock VUndef part w = None
             ∧ performPartialMock VNull part w = None)
  ∧ (∀ o ob part w,
       objects w !! o = Some ob → props ob ≠ [] →
       part = VUndef ∨ part = VNull →
       performPartialMock (VObj o) part w = None)
  ∧ (∀ o ob part w,
       objects w !! o = Some ob → props ob = [] →
       performPartialMock (VObj o) part w = Some w)
  ∧ (∀ cell tgt v w pr,
       promises w !! tgt = Some pr → settled pr = None →
       performPartialMock v (default VUndef (cells w !! cell)) w = None →
       let w' := run_job (RThen (CbOverlay cell) tgt, Fulfilled v) w in
       outcome_of w' (VPromise tgt) = Some (Rejected (VErr "TypeError"))
       ∧ modules w' = modules w ∧ objects w' = objects w).
Proof.
  split; [done|]. split; [|split].
  - intros o ob part w Hob Hne Hpart. unfold performPartialMock, own_keys. rewrite Hob.
    simpl. destruct (props ob) as [|[k v] ps]; [done|].
    rewrite fmap_cons, overlay_keys_cons. by destruct Hpart as [-> | ->].
  - intros o ob part w Hob Hnil. unfold performPartialMock, own_keys.
    by rewrite Hob, Hnil.
  - intros cell tgt v w pr Ht Hs Hfail. simpl. rewrite Hfail.
    split; [by eapply settle_pending|].
    destruct (settle_frame tgt (Rejected (VErr "TypeError")) w) as (Hm & _).
    split; [exact Hm|]. unfold settle. by repeat case_match.
Qed.

Lemma performPartialMock_edge_witness :
  performPartialMock (VObj 0) VNull
    (world_init (mkOptions [] []) [mkObject false [("get_x", VFun 1)]]) = None.
Proof.
  destruct performPartialMock_edge_cases as (_ & H & _).
  apply (H 0 (mkObject false [("get_x", VFun 1)])).
  - reflexivity.
  - discriminate.
  - by right.
Defined.

(** ** The text of the dependency graph *)

Lemma name_le_trans : Transitive name_le.
Proof. intros a b c. unfold name_le. apply transitivity. Qed.

Lemma name_le_total : Total name_le.
Proof. intros a b. unfold name_le. apply total, _. Qed.

Lemma sortBy_name_sorted (ms : list Module) : StronglySorted name_le (sortBy_name ms).
Proof.
  apply (@StronglySorted_merge_sort Module name_le name_le_dec name_le_trans name_le_total).
Qed.

Lemma sortBy_name_perm (ms : list Module) : sortBy_name ms ≡ₚ ms.
Proof. apply merge_sort_Permutation. Qed.

(** Sorting lists with the same records gives the same list, when no two
    of the records share a name. *)
Lemma sortBy_name_canonical (ms ms' : list Module) :
  ms ≡ₚ ms' → NoDup (name <$> ms) → sortBy_name ms = sortBy_name ms'.
Proof.
  intros Hp Hnd. apply (StronglySorted_unique_strong name_le).
  - intros x1 x2 H1 H2 H12 H21.
    assert (Hn : name x1 = name x2) by (by apply (anti_symm String.le)).
    rewrite sortBy_name_perm in H1. rewrite sortBy_name_perm, <- Hp in H2.
    apply list_elem_of_lookup in H1 as [i1 H1]. apply list_elem_of_lookup in H2 as [i2 H2].
    assert (i1 = i2).
    { eapply NoDup_lookup; [exact Hnd| |]; rewrite list_lookup_fmap.
      - by rewrite H1.
      - by rewrite H2, Hn. }
    congruence.
  - apply sortBy_name_sorted.
  - apply sortBy_name_sorted.
  - by rewrite !sortBy_name_perm.
Qed.



(** X11.  The text of the graph depends only on which modules are
    registered, not on the order of their registration: two containers
    whose registered records are the same up to order, no two of them
    sharing a name, give [fs.writeFile] the same arguments. *)
Theorem graph_text_canonical (path : string) (ignoreList : option (list string))
    (w w' : world) :
  registered_modules w ≡ₚ registered_modules w' →
  NoDup (name <$> registered_modules w) →
  saveGraphToFile path ignoreList w = saveGraphToFile path ignoreList w'.
Proof.
  intros Hp Hnd. unfold saveGraphToFile, dotGraphSource.
  by rewrite (sortBy_name_canonical _ _ Hp Hnd).
Qed.


Lemma graph_text_canonical_witness :
  saveGraphToFile "di.dot" (Some ["z"]) (graph_world "a" "b")
  = saveGraphToFile "di.dot" (Some ["z"]) (graph_world "b" "a").
Proof.
  apply graph_text_canonical.
  - vm_compute. reflexivity.
  - apply (bool_decide_unpack _). vm_compute. exact I.
Defined.

(** ** What the waiting callbacks refer to *)

Lemma quiet_step_refl (w : world) : quiet_step w w.
Proof. by repeat split. Qed.

Lemma quiet_step_trans (w1 w2 w3 : world) :
  quiet_step w1 w2 → quiet_step w2 w3 → quiet_step w1 w3.
Proof.
  intros (Hc & Hm & Hw) (Hc' & Hm' & Hw'). split; [congruence|]. split; [congruence|auto].
Qed.

Lemma waiting_settle (p : nat) (o : outcome) (w : world) (r : reaction) :
  waiting (settle p o w) r → waiting w r.
Proof.
  unfold settle. destruct (promises w !! p) as [pr|] eqn:Hp; [|done].
  destruct (settled pr); [done|]. intros [(q & pq & Hq & Hr)|[o' Hr]]; simpl in *.
  - destruct (decide (q = p)) as [->|Hne].
    + rewrite list_lookup_insert_eq in Hq by (by eapply lookup_lt_Some).
      injection Hq as <-. simpl in Hr. by apply elem_of_nil in Hr.
    + rewrite list_lookup_insert_ne in Hq by done. left. by exists q, pq.
  - apply elem_of_app in Hr as [Hr|Hr]; [right; by exists o'|].
    apply list_elem_of_fmap in Hr as (r' & [= <- <-] & Hr'). left. by exists p, pr.
Qed.

Lemma waiting_subscribe (p : nat) (r0 : reaction) (w : world) (r : reaction) :
  waiting (subscribe p r0 w) r → r = r0 ∨ waiting w r.
Proof.
  unfold subscribe. destruct (promises w !! p) as [pr|] eqn:Hp; [|by right].
  destruct (settled pr) as [o|].
  - intros [(q & pq & Hq & Hr)|[o' Hr]]; simpl in *.
    + right. left. by exists q, pq.
    + apply elem_of_app in Hr as [Hr|Hr]; [right; right; by exists o'|].
      apply list_elem_of_singleton in Hr as [= -> ->]. by left.
  - intros [(q & pq & Hq & Hr)|[o' Hr]]; simpl in *.
    + destruct (decide (q = p)) as [->|Hne].
      * rewrite list_lookup_insert_eq in Hq by (by eapply lookup_lt_Some).
        injection Hq as <-. simpl in Hr. apply elem_of_app in Hr as [Hr|Hr].
        -- right. left. by exists p, pr.
        -- apply list_elem_of_singleton in Hr. by left.
      * rewrite list_lookup_insert_ne in Hq by done. right. left. by exists q, pq.
    + right. right. by exists o'.
Qed.

Lemma waiting_new_promise (pr : promise) (w : world) (r : reaction) :
  reactions pr = [] → waiting (new_promise pr w).2 r → waiting w r.
Proof.
  intros Hnil [(q & pq & Hq & Hr)|[o' Hr]]; simpl in *.
  - apply lookup_app_Some in Hq as [Hq|[_ Hq]]; [left; by exists q, pq|].
    apply list_lookup_singleton_Some in Hq as [_ <-]. rewrite Hnil in Hr.
    by apply elem_of_nil in Hr.
  - right. by exists o'.
Qed.

Lemma waiting_fill_slot (t i : nat) (v : value) (w : world) (r : reaction) :
  waiting (fill_slot t i v w) r → waiting w r.
Proof.
  unfold fill_slot. destruct (promises w !! t) as [pr|] eqn:Hp; [|done].
  intros [(q & pq & Hq & Hr)|[o' Hr]]; simpl in *.
  - destruct (decide (q = t)) as [->|Hne].
    + rewrite list_lookup_insert_eq in Hq by (by eapply lookup_lt_Some).
      injection Hq as <-. left. by exists t, pr.
    + rewrite list_lookup_insert_ne in Hq by done. left. by exists q, pq.
  - right. by exists o'.
Qed.

Lemma quiet_step_by (w w' : world) :
  container w' = container w → modules w' = modules w →
  (∀ r, waiting w' r → waiting w r) → quiet_step w w'.
Proof.
  intros Hc Hm Hw. split; [done|]. split; [done|]. intros m n [t Ht]. exists t. auto.
Qed.

Lemma settle_quiet (p : nat) (o : outcome) (w : world) : quiet_step w (settle p o w).
Proof.
  apply quiet_step_by; [| |apply waiting_settle]; unfold settle; by repeat case_match.
Qed.

Lemma subscribe_quiet (p : nat) (r0 : reaction) (w : world) :
  other_reaction r0 → quiet_step w (subscribe p r0 w).
Proof.
  intros Hr0. split; [unfold subscribe; by repeat case_match|].
  split; [unfold subscribe; by repeat case_match|].
  intros m n [t Ht]. apply waiting_subscribe in Ht as [<-|Ht]; [done|by exists t].
Qed.

Lemma new_promise_quiet (pr : promise) (w : world) :
  reactions pr = [] → quiet_step w (new_promise pr w).2.
Proof.
  intros Hnil. apply quiet_step_by; [reflexivity|reflexivity|].
  intros r. by apply waiting_new_promise.
Qed.

Lemma resolve_with_quiet (t : nat) (x : value) (w : world) :
  quiet_step w (resolve_with t x w).
Proof.
  unfold resolve_with. destruct x; try apply settle_quiet. by apply subscribe_quiet.
Qed.

Lemma Promise_resolve_quiet (x : value) (w : world) : quiet_step w (Promise_resolve x w).2.
Proof.
  unfold Promise_resolve. destruct x; try apply quiet_step_refl.
  all: by apply (new_promise_quiet (mkPromise _ [] [] false)).
Qed.

Lemma Promise_reject_quiet (e : value) (w : world) : quiet_step w (Promise_reject e w).2.
Proof. by apply (new_promise_quiet (mkPromise _ [] [] false)). Qed.

Lemma set_objects_quiet (os : list object) (w : world) : quiet_step w (set_objects os w).
Proof. apply quiet_step_by; [reflexivity|reflexivity|done]. Qed.

Lemma finish_all_quiet (t : nat) (w : world) : quiet_step w (finish_all t w).
Proof.
  unfold finish_all. destruct (promises w !! t) as [pr|]; [|apply quiet_step_refl].
  destruct (mapM id (slots pr)); [|apply quiet_step_refl].
  eapply quiet_step_trans; [apply set_objects_quiet|apply settle_quiet].
Qed.

Lemma subscribe_all_quiet (t i : nat) (arr : list value) (w : world) :
  quiet_step w (subscribe_all t i arr w).
Proof.
  revert i w. induction arr as [|x arr IH]; intros i w; simpl.
  - apply quiet_step_refl.
  - destruct x; try apply IH.
    eapply quiet_step_trans; [|apply IH]. by apply subscribe_quiet.
Qed.

Lemma Promise_all_quiet (arr : list value) (w : world) : quiet_step w (Promise_all arr w).2.
Proof.
  unfold Promise_all.
  pose proof (new_promise_quiet (mkPromise None [] (slot_of <$> arr) false) w eq_refl) as Hn.
  destruct (new_promise _ w) as [t w1]. simpl in *.
  eapply quiet_step_trans; [exact Hn|].
  eapply quiet_step_trans; [apply subscribe_all_quiet|apply finish_all_quiet].
Qed.

Lemma Promise_bind_quiet (p : value) (w : world) : quiet_step w (Promise_bind p w).2.
Proof.
  unfold Promise_bind.
  pose proof (new_promise_quiet pending_promise w eq_refl) as Hn.
  destruct (new_promise _ w) as [t w1]. simpl in *.
  eapply quiet_step_trans; [exact Hn|apply resolve_with_quiet].
Qed.

(** [.then(cb)]: the only reaction it may add is the one for [cb]. *)
Lemma Promise_then_adds (p : value) (cb : callback) (w : world) (r : res value)
    (w' : world) :
  Promise_then p cb w = Some (r, w') →
  container w' = container w ∧ modules w' = modules w
  ∧ ∀ m n, define_waiting w' m n → cb = CbDefine m n ∨ define_waiting w m n.
Proof.
  unfold Promise_then. destruct p; try (intros [= <- <-]; by auto).
  pose proof (new_promise_quiet pending_promise w eq_refl) as (Hc & Hm & Hw).
  destruct (new_promise _ w) as [t w1]. simpl in *. intros [= <- <-].
  split; [rewrite <- Hc; unfold subscribe; by repeat case_match|].
  split; [rewrite <- Hm; unfold subscribe; by repeat case_match|].
  intros m n' [t' Ht']. apply waiting_subscribe in Ht' as [[= Hcb _]|Ht']; [by left|].
  right. apply Hw. by exists t'.
Qed.

Lemma Promise_then_quiet (p : value) (cb : callback) (w : world) (r : res value)
    (w' : world) :
  (∀ m n, cb ≠ CbDefine m n) → Promise_then p cb w = Some (r, w') → quiet_step w w'.
Proof.
  intros Hcb Hr. destruct (Promise_then_adds p cb w r w' Hr) as (Hc & Hm & Hw).
  split; [done|]. split; [done|]. intros m n Hmn.
  destruct (Hw m n Hmn) as [?|?]; [by destruct (Hcb m n)|done].
Qed.

Lemma fill_slot_quiet (t i : nat) (v : value) (w : world) : quiet_step w (fill_slot t i v w).
Proof.
  apply quiet_step_by; [| |apply waiting_fill_slot];
    unfold fill_slot; by destruct (promises w !! t).
Qed.

(** *** The detector reads the graph only *)

Lemma visit_ext (g g' : string → option (list string)) (fuel : nat)
    (path seen : list string) (n : string) :
  (∀ x, g x = g' x) → visit g fuel path seen n = visit g' fuel path seen n.
Proof.
  intros Hg. revert path seen n. induction fuel as [|fuel IH]; intros path seen n; [done|].
  simpl. destruct (decide (n ∈ path)); [done|]. destruct (decide (n ∈ seen)); [done|].
  rewrite <- Hg. destruct (g n) as [deps|]; [|done].
  assert (Hfold : ∀ acc,
    foldl (λ acc dep, let '(c, d) := visit g fuel (path ++ [n]) acc.2 dep in (acc.1 ++ c, d))
      acc deps
    = foldl (λ acc dep, let '(c, d) := visit g' fuel (path ++ [n]) acc.2 dep in (acc.1 ++ c, d))
        acc deps).
  { induction deps as [|d deps IHd]; intros acc; [done|]. simpl. by rewrite IH, IHd. }
  by rewrite Hfold.
Qed.

Lemma find_cycles_ext (g g' : string → option (list string)) (names : list string) :
  (∀ x, g x = g' x) → find_cycles g names = find_cycles g' names.
Proof.
  intros Hg. unfold find_cycles, traverse. f_equal. f_equal.
  generalize (@nil (list string), @nil string).
  generalize (S (length names)). intros fuel.
  induction names as [|n names IH]; intros acc; [done|]. simpl.
  by rewrite (visit_ext g g' fuel [] acc.2 n Hg), IH.
Qed.

Lemma detectCycle_ext (w w' : world) :
  _modules (container w') = _modules (container w) →
  (∀ n, graph_of w' n = graph_of w n) →
  detectCycle w' = detectCycle w.
Proof.
  intros Hm Hg. unfold detectCycle. rewrite Hm.
  by rewrite (find_cycles_ext (graph_of w') (graph_of w) _ Hg).
Qed.

Lemma cycles_coherent_ext (w w' : world) :
  _modules (container w') = _modules (container w) →
  _cycles (container w') = _cycles (container w) →
  (∀ n, graph_of w' n = graph_of w n) →
  cycles_coherent w → cycles_coherent w'.
Proof.
  intros Hm Hc Hg. unfold cycles_coherent, ensure_cycles.
  rewrite Hc, (detectCycle_ext w w' Hm Hg).
  destruct (_cycles (container w)); [done|]. by destruct (detectCycle w).
Qed.

(** *** The invariants *)

Lemma graph_of_by_modules (w w' : world) (n : string) :
  _modules (container w') = _modules (container w) → modules w' = modules w →
  graph_of w' n = graph_of w n.
Proof. intros Hc Hm. unfold graph_of, module_at. by rewrite Hc, Hm. Qed.

Lemma quiet_step_inv (w w' : world) : quiet_step w w' → container_inv w → container_inv w'.
Proof.
  intros (Hc & Hm & Hw) [(N1 & N2 & N3) HP]. split.
  - unfold well_named, named. rewrite Hc, Hm. split; [done|]. split; [done|].
    intros m n Hd. apply (N3 m n), Hw, Hd.
  - unfold no_partial_mocks, cache_fresh. rewrite Hc. intros Hno.
    destruct (HP Hno) as (P1 & P2 & P3). split; [done|].
    split; [intros m n Hd; apply P2, Hw, Hd|].
    apply (cycles_coherent_ext w w'); [by rewrite Hc..| |done].
    intros n. apply graph_of_by_modules; by rewrite ?Hc.
Qed.

(** An update of record [m] that keeps its name and dependencies. *)
Lemma update_module_inv (m : nat) (f : Module → Module) (w : world) :
  (∀ md, name (f md) = name md ∧ dependencies (f md) = dependencies md) →
  container_inv w → container_inv (update_module m f w).
Proof.
  intros Hf [(N1 & N2 & N3) HP].
  assert (Hnamed : ∀ m' n, named w m' n → named (update_module m f w) m' n).
  { intros m' n (md & Hmd & Hn). unfold named, update_module. simpl.
    destruct (decide (m' = m)) as [->|Hne].
    - exists (f md). rewrite list_lookup_alter_eq, Hmd. split; [done|].
      by destruct (Hf md) as [-> _].
    - exists md. by rewrite list_lookup_alter_ne. }
  split.
  - split; [|split]; intros; apply Hnamed; auto.
  - intros Hno. destruct (HP Hno) as (P1 & P2 & P3). split; [done|]. split; [exact P2|].
    apply (cycles_coherent_ext w); [done..| |done].
    intros n. unfold graph_of, module_at, update_module. simpl.
    destruct (_modules (container w) !! n) as [m'|]; [|done]. simpl.
    destruct (decide (m' = m)) as [->|Hne].
    + rewrite list_lookup_alter_eq. destruct (modules w !! m) as [md|]; [|done]. simpl.
      by destruct (Hf md) as [_ ->].
    + by rewrite list_lookup_alter_ne.
Qed.

Lemma ensure_cycles_inv (w : world) : container_inv w → container_inv (ensure_cycles w).2.
Proof.
  intros [(N1 & N2 & N3) HP]. unfold ensure_cycles.
  destruct (_cycles (container w)) as [c|] eqn:Hc; [done|].
  destruct (detectCycle w) as [err|cycles] eqn:Hd; [done|].
  split; [done|]. intros Hno. destruct (HP Hno) as (P1 & P2 & P3).
  split; [done|]. split; [done|]. unfold cycles_coherent, ensure_cycles. simpl.
  symmetry. exact Hd.
Qed.

Lemma invalidate_inv (w : world) : container_inv w → container_inv (invalidate w).
Proof.
  intros [(N1 & N2 & N3) HP]. split; [done|]. intros Hno.
  destruct (HP Hno) as (P1 & P2 & P3). split; [done|]. split; [done|].
  by apply cycles_coherent_fresh.
Qed.

Lemma named_append (w : world) (md : Module) (m : nat) (n : string) :
  named w m n → named (set_modules (modules w ++ [md]) w) m n.
Proof. intros (md' & Hm & Hn). exists md'. split; [by apply lookup_app_l_Some|done]. Qed.

(** Lines 119-123 for a name that is not registered, right after the cache
    was dropped. *)
Lemma install_new_inv (n : string) (ds : list string) (fn : jsfun) (w : world) :
  _modules (container w) !! n = None → _cycles (container w) = None →
  container_inv w →
  container_inv
    (set_container
       (set__modules (<[n := length (modules w)]> (_modules (container w))) (container w))
       (set_modules (modules w ++ [new_Module n ds fn]) w)).
Proof.
  intros Hnew Hc [(N1 & N2 & N3) HP]. split.
  - split; [|split].
    + intros n' m. simpl. destruct (decide (n' = n)) as [->|Hne].
      * rewrite lookup_insert_eq. intros [= <-]. eexists. split; [by apply list_lookup_middle|done].
      * rewrite lookup_insert_ne by done. intros Hm. by apply named_append, N1.
    + intros n' m Hm. by apply named_append, N2.
    + intros m n' Hd. by apply named_append, N3.
  - intros Hno. destruct (HP Hno) as (P1 & P2 & P3). split; [done|]. split.
    + intros m n' Hd. simpl. specialize (P2 m n' Hd).
      rewrite lookup_insert_ne; [done|]. intros ->. congruence.
    + by apply cycles_coherent_fresh.
Qed.

(** Lines 111-112 and 119-123 for a name in the partial-mock set. *)
Lemma install_shadow_inv (n : string) (ds : list string) (fn : jsfun) (old : nat)
    (w : world) :
  _modules (container w) !! n = Some old →
  n ∈ partial_mock_modules (options (container w)) →
  container_inv w →
  container_inv
    (set_container
       (set__modules (<[n := length (modules w)]> (_modules (container w)))
          (set__partial_modules (<[n := old]> (_partial_modules (container w)))
             (container w)))
       (set_modules (modules w ++ [new_Module n ds fn]) w)).
Proof.
  intros Hold Hin [(N1 & N2 & N3) HP]. split.
  - split; [|split].
    + intros n' m. simpl. destruct (decide (n' = n)) as [->|Hne].
      * rewrite lookup_insert_eq. intros [= <-]. eexists. split; [by apply list_lookup_middle|done].
      * rewrite lookup_insert_ne by done. intros Hm. by apply named_append, N1.
    + intros n' m. simpl. destruct (decide (n' = n)) as [->|Hne].
      * rewrite lookup_insert_eq. intros [= <-]. by apply named_append, N1.
      * rewrite lookup_insert_ne by done. intros Hm. by apply named_append, N2.
    + intros m n' Hd. by apply named_append, N3.
  - intros Hno. unfold no_partial_mocks in Hno. simpl in Hno. rewrite Hno in Hin.
    by apply elem_of_nil in Hin.
Qed.

Lemma register_inv (name : value) (deps : decl) (w : world) (r : res unit) (w' : world) :
  register name deps w = Some (r, w') → container_inv w → container_inv w'.
Proof.
  intros Hr Hinv. apply invalidate_inv in Hinv. revert Hr.
  unfold register. unfold_M. simpl.
  destruct name as [| | |n| | | |]; try by intros [= <- <-].
  destruct (decide (n = "")); [by intros [= <- <-]|].
  destruct deps as [|f|names [f|]]; simpl; try by intros [= <- <-].
  all: destruct (_modules (container w) !! n) as [old|] eqn:Hold.
  all: try destruct (in_names n (mock_modules (options (container w)))).
  all: try (destruct (in_names n (partial_mock_modules (options (container w)))) eqn:Hp;
            [apply bool_decide_eq_true in Hp|]).
  all: intros [= <- <-]; try done.
  all: try by apply (install_new_inv n _ _ (invalidate w)).
  all: by apply (install_shadow_inv n _ _ old (invalidate w)).
Qed.

Lemma registerAndExport_inv (name obj : value) (w : world) (r : res value) (w' : world) :
  registerAndExport name obj w = Some (r, w') → container_inv w → container_inv w'.
Proof.
  unfold registerAndExport. unfold bindM at 1.
  destruct (register name _ w) as [[[[]|e] w1]|] eqn:Hreg; [| |done].
  - intros Hr Hinv. apply (register_inv _ _ _ _ _ Hreg) in Hinv. revert Hr.
    destruct name; try by intros [= <- <-].
    unfold_M. destruct (_modules (container w1) !! s); intros [= <- <-]; [|done].
    apply update_module_inv; [by intros md|]. by apply update_module_inv; [intros md|].
  - intros [= <- <-] Hinv. by apply (register_inv _ _ _ _ _ Hreg).
Qed.

Lemma Promise_try_quiet (m : nat) (fn : jsfun) (deps : value) (w : world) :
  quiet_step w (Promise_try m fn deps w).2.
Proof.
  unfold Promise_try.
  set (w0 := set_trace (Called m (call_args deps w) :: trace w) w).
  assert (H0 : quiet_step w w0) by (apply quiet_step_by; [reflexivity|reflexivity|done]).
  destruct (body fn (call_args deps w)) as [x|err|].
  - pose proof (new_promise_quiet pending_promise w0 eq_refl) as Hn.
    destruct (new_promise pending_promise w0) as [e w1]. simpl in *.
    eapply quiet_step_trans; [exact H0|].
    eapply quiet_step_trans; [exact Hn|apply resolve_with_quiet].
  - eapply quiet_step_trans; [exact H0|apply Promise_reject_quiet].
  - pose proof (new_promise_quiet (mkPromise None [] [] true) w0 eq_refl) as Hn.
    destruct (new_promise (mkPromise None [] [] true) w0) as [x w1]. simpl in Hn.
    pose proof (new_promise_quiet pending_promise w1 eq_refl) as Hn'.
    destruct (new_promise pending_promise w1) as [e w2]. simpl in *.
    eapply quiet_step_trans; [exact H0|].
    eapply quiet_step_trans; [exact Hn|].
    eapply quiet_step_trans; [exact Hn'|]. by apply subscribe_quiet.
Qed.

(** Line 214, [this._modules[name] = module], for a record of that name. *)
Lemma remap_inv (nm : string) (m : nat) (w : world) :
  named w m nm → (no_partial_mocks w → _modules (container w) !! nm = Some m) →
  container_inv w →
  container_inv
    (set_container (set__modules (<[nm := m]> (_modules (container w))) (container w)) w).
Proof.
  intros Hnamed Hsame [(N1 & N2 & N3) HP]. split.
  - split; [|split]; [|done..].
    intros n' m'. simpl. destruct (decide (n' = nm)) as [->|Hne].
    + rewrite lookup_insert_eq. by intros [= <-].
    + rewrite lookup_insert_ne by done. apply N1.
  - intros Hno. destruct (HP Hno) as (P1 & P2 & P3).
    assert (Hid : <[nm := m]> (_modules (container w)) = _modules (container w))
      by (apply insert_id, Hsame, Hno).
    split; [done|]. split.
    + intros m' n' Hd. simpl. rewrite Hid. by apply P2.
    + apply (cycles_coherent_ext w); [by simpl|done| |done].
      intros n. unfold graph_of, module_at. simpl. by rewrite Hid.
Qed.

Lemma run_callback_inv (cb : callback) (v : value) (tgt : nat) (w : world) :
  (∀ m n, cb = CbDefine m n →
          named w m n ∧ (no_partial_mocks w → _modules (container w) !! n = Some m)) →
  container_inv w → container_inv (run_callback cb v tgt w).
Proof.
  intros Hcb Hinv. destruct cb as [m nm|m cell|cell]; simpl.
  - destruct (Hcb m nm eq_refl) as [(md & Hmd & Hname) Hsame]. rewrite Hmd.
    pose proof (Promise_try_quiet m (define md) v w) as Hq.
    destruct (Promise_try m (define md) v w) as [x w1]. simpl in Hq.
    destruct Hq as (Hc & Hm & Hw).
    apply (quiet_step_inv _ _ (resolve_with_quiet tgt x _)).
    apply (remap_inv nm m (update_module m (set_exported x)
                             (update_module m (set_state resolved) w1))).
    + unfold named, update_module. simpl. rewrite !list_lookup_alter_eq, Hm, Hmd.
      by eexists.
    + unfold no_partial_mocks. simpl. rewrite Hc. exact Hsame.
    + apply update_module_inv; [by intros ?|]. apply update_module_inv; [by intros ?|].
      by apply (quiet_step_inv w).
  - destruct (Promise_resolve _ _) as [x w2] eqn:Hx.
    apply (quiet_step_inv _ _ (resolve_with_quiet tgt x _)).
    pose proof (Promise_resolve_quiet
                  (match modules w !! m with
                   | Some module => resolvingPromise module
                   | None => VUndef
                   end) (set_cells (<[cell:=v]> (cells w)) w)) as Hq.
    rewrite Hx in Hq. simpl in Hq. apply (quiet_step_inv _ _ Hq).
    apply (quiet_step_inv w); [|done]. apply quiet_step_by; [reflexivity|reflexivity|done].
  - destruct (performPartialMock _ _ _) as [w1|] eqn:Hp.
    + apply (quiet_step_inv _ _ (resolve_with_quiet tgt v _)).
      unfold performPartialMock in Hp. destruct (own_keys w v) as [keys|]; [|done].
      simpl in Hp. apply overlay_keys_only_objects in Hp. rewrite Hp.
      by apply (quiet_step_inv _ _ (set_objects_quiet _ w)).
    + by apply (quiet_step_inv _ _ (settle_quiet _ _ w)).
Qed.

Lemma tick_inv (w w' : world) : tick w = Some w' → container_inv w → container_inv w'.
Proof.
  unfold tick. destruct (queue w) as [|j q] eqn:Hq; [done|]. intros [= <-] Hinv.
  assert (Hquiet : quiet_step w (set_queue q w)).
  { apply quiet_step_by; [reflexivity|reflexivity|].
    intros r [Hr|[o Hr]]; [by left|]. right. exists o. simpl in Hr. rewrite Hq.
    by apply list_elem_of_further. }
  pose proof (quiet_step_inv _ _ Hquiet Hinv) as Hinv'.
  destruct j as [[cb tgt|tgt|tgt i] [v|e]]; simpl.
  - apply run_callback_inv; [|done]. intros m n ->.
    assert (Hd : define_waiting w m n).
    { exists tgt. right. exists (Fulfilled v). rewrite Hq. apply list_elem_of_here. }
    destruct Hinv as [(_ & _ & N3) HP]. split; [by apply N3|].
    intros Hno. by apply (HP Hno).
  - by apply (quiet_step_inv _ _ (settle_quiet _ _ _)).
  - by apply (quiet_step_inv _ _ (settle_quiet _ _ _)).
  - by apply (quiet_step_inv _ _ (settle_quiet _ _ _)).
  - apply (quiet_step_inv _ _ (finish_all_quiet _ _)).
    by apply (quiet_step_inv _ _ (fill_slot_quiet _ _ _ _)).
  - by apply (quiet_step_inv _ _ (settle_quiet _ _ _)).
Qed.

Lemma env_settle_inv (p : nat) (o : outcome) (w : world) :
  container_inv w → container_inv (env_settle p o w).
Proof.
  intros Hinv. unfold env_settle. destruct (promises w !! p) as [pr|]; [|done].
  destruct o as [[]|]; try done; destruct (external pr); try done;
    by apply (quiet_step_inv _ _ (settle_quiet _ _ _)).
Qed.

(** *** [resolve] keeps the invariants *)

Lemma bindM_Some {A B} (c : M A) (k : A → M B) (w : world) (r : res B) (w' : world) :
  bindM c k w = Some (r, w') →
  (∃ a w1, c w = Some (Ret a, w1) ∧ k a w1 = Some (r, w'))
  ∨ (∃ e, c w = Some (Thrown e, w') ∧ r = Thrown e).
Proof.
  unfold bindM. destruct (c w) as [[[a|e] w1]|]; [| |done].
  - intros Hk. left. by exists a, w1.
  - intros [= <- <-]. right. by exists e.
Qed.

Lemma mapM_M_inv {A B} (f : A → M B) (J : world → Prop) (l : list A) (w : world)
    (r : res (list B)) (w' : world) :
  (∀ x w1 r1 w1', J w1 → f x w1 = Some (r1, w1') → J w1') →
  J w → mapM_M f l w = Some (r, w') → J w'.
Proof.
  intros Hf. revert w r. induction l as [|x l IH]; intros w r HJ; simpl.
  - by intros [= <- <-].
  - intros H. apply bindM_Some in H as [(y & w1 & Hx & H)|(e & Hx & _)]; [|by eapply Hf].
    apply bindM_Some in H as [(ys & w2 & Hl & H)|(e & Hl & _)].
    + injection H as <- <-. eapply IH; [|exact Hl]. by eapply Hf.
    + eapply IH; [|exact Hl]. by eapply Hf.
Qed.

Lemma sync_det (k : nat) {A} (c : M A) (w : world) (r : res A) (w' : world) :
  sync k c → count_registered w < k → c w = Some (r, w') → sync_step w w'.
Proof. intros Hc Hk Hr. destruct (Hc w Hk) as (r0 & w0 & Hr0 & Hs). congruence. Qed.

Lemma sync_step_named (w w' : world) (m : nat) (n : string) :
  sync_step w w' → named w m n → named w' m n.
Proof.
  intros ((Ha & _) & _) (md & Hmd & Hn).
  destruct (Ha m md Hmd) as (md' & Hmd' & _ & Hn' & _). exists md'. split; [done|congruence].
Qed.

Lemma then_define_inv (p : value) (m : nat) (n : string) (w : world) (r : res value)
    (w' : world) :
  Promise_then p (CbDefine m n) w = Some (r, w') →
  named w m n → (no_partial_mocks w → _modules (container w) !! n = Some m) →
  container_inv w → container_inv w'.
Proof.
  intros Hr Hnamed Hsame [(N1 & N2 & N3) HP].
  destruct (Promise_then_adds _ _ _ _ _ Hr) as (Hc & Hm & Hw). split.
  - unfold well_named, named. rewrite Hc, Hm. split; [done|]. split; [done|].
    intros m' n' Hd. destruct (Hw m' n' Hd) as [[= <- <-]|Hd']; [done|by apply N3].
  - unfold no_partial_mocks, cache_fresh. rewrite Hc. intros Hno.
    destruct (HP Hno) as (P1 & P2 & P3). split; [done|]. split.
    + intros m' n' Hd. destruct (Hw m' n' Hd) as [[= <- <-]|Hd']; [by apply Hsame|by apply P2].
    + apply (cycles_coherent_ext w w'); [by rewrite Hc..| |done].
      intros x. apply graph_of_by_modules; by rewrite ?Hc.
Qed.

Lemma resolve_started_inv (k : nat) (rec : string → bool → M value) (m : nat)
    (module : Module) (nm : string) (partial : bool) (this : Container) (w : world)
    (r : res value) (w' : world) :
  (∀ n p, sync k (rec n p)) →
  (∀ n p w r w', count_registered w < k → container_inv w →
                 rec n p w = Some (r, w') → container_inv w') →
  count_registered w < k → container_inv w →
  named w m nm → (no_partial_mocks w → _modules (container w) !! nm = Some m) →
  resolve_started rec m module nm partial this w = Some (r, w') →
  container_inv w'.
Proof.
  intros Hsync Hrec Hk Hinv Hnamed Hsame. unfold resolve_started.
  set (J := λ w1, sync_step w w1 ∧ container_inv w1).
  assert (HJk : ∀ w1, J w1 → count_registered w1 < k).
  { intros w1 [(_ & Hle & _) _]. lia. }
  assert (HJ0 : J w) by (split; [apply sync_step_refl|done]).
  intros H. apply bindM_Some in H as [(ds & w3 & Hmap & H)|(e & Hmap & _)].
  2:{ eapply (mapM_M_inv _ J) in Hmap; [by destruct Hmap|..|exact HJ0].
      intros x w1 r1 w1' HJ1 Hx. change (rec (name_of w1 x) false w1 = Some (r1, w1')) in Hx.
      destruct HJ1 as [Hs1 Hi1]. split.
      - eapply sync_step_trans; [exact Hs1|]. eapply sync_det; [apply Hsync| |exact Hx].
        apply HJk. by split.
      - eapply Hrec; [|exact Hi1|exact Hx]. apply HJk. by split. }
  assert (HJ3 : J w3).
  { eapply (mapM_M_inv _ J) in Hmap; [done|..|exact HJ0].
    intros x w1 r1 w1' HJ1 Hx. change (rec (name_of w1 x) false w1 = Some (r1, w1')) in Hx.
    destruct HJ1 as [Hs1 Hi1]. split.
    - eapply sync_step_trans; [exact Hs1|]. eapply sync_det; [apply Hsync| |exact Hx].
      apply HJk. by split.
    - eapply Hrec; [|exact Hi1|exact Hx]. apply HJk. by split. }
  clear Hmap.
  (* Promise.all *)
  unfold bindM at 1, liftM at 1 in H.
  pose proof (Promise_all_frame ds w3) as Hf4. pose proof (Promise_all_quiet ds w3) as Hq4.
  destruct (Promise_all ds w3) as [all w4]. simpl in Hf4, Hq4.
  assert (HJ4 : J w4).
  { destruct HJ3 as [Hs3 Hi3]. split; [|by eapply quiet_step_inv].
    eapply sync_step_trans; [exact Hs3|by apply same_registry_sync]. }
  clear HJ3 Hf4 Hq4.
  (* .bind(this) *)
  unfold bindM at 1, liftM at 1 in H.
  pose proof (Promise_bind_frame all w4) as Hf5. pose proof (Promise_bind_quiet all w4) as Hq5.
  destruct (Promise_bind all w4) as [bound w5]. simpl in Hf5, Hq5.
  assert (HJ5 : J w5).
  { destruct HJ4 as [Hs4 Hi4]. split; [|by eapply quiet_step_inv].
    eapply sync_step_trans; [exact Hs4|by apply same_registry_sync]. }
  clear HJ4 Hf5 Hq5.
  (* .then(callback of line 211) *)
  assert (Hthen : ∀ r6 w6, Promise_then bound (CbDefine m nm) w5 = Some (r6, w6) → J w6).
  { intros r6 w6 Hr6. destruct HJ5 as [Hs5 Hi5]. split.
    - eapply sync_step_trans; [exact Hs5|].
      eapply sync_det; [apply (sync_then k)| |exact Hr6]. apply HJk. by split.
    - eapply then_define_inv; [exact Hr6| | |exact Hi5].
      + by eapply sync_step_named.
      + destruct Hs5 as (_ & _ & _ & Hms & _ & Ho). unfold no_partial_mocks.
        rewrite Hms, Ho. exact Hsame. }
  apply bindM_Some in H as [(handle & w6 & Hr6 & H)|(e & Hr6 & _)];
    [|by destruct (Hthen _ _ Hr6)].
  pose proof (Hthen _ _ Hr6) as HJ6. clear Hthen HJ5 Hr6.
  (* module.resolvingPromise = ... *)
  unfold bindM at 1, modifyM at 1 in H.
  set (w7 := update_module m (set_resolvingPromise handle) w6) in H.
  assert (HJ7 : J w7).
  { destruct HJ6 as [Hs6 Hi6]. split.
    - eapply sync_step_trans; [exact Hs6|apply set_resolvingPromise_step].
    - by apply update_module_inv. }
  clearbody w7. clear HJ6.
  unfold bindM at 1, getM at 1 in H.
  destruct (_ && _); [|injection H as <- <-; by destruct HJ7].
  (* the shadow resolution *)
  unfold bindM at 1, liftM at 1 in H. simpl in H.
  set (w8 := set_cells (cells w7 ++ [VUndef]) w7) in H.
  assert (HJ8 : J w8).
  { destruct HJ7 as [Hs7 Hi7]. split.
    - eapply sync_step_trans; [exact Hs7|]. apply same_registry_sync, (new_cell_frame w7).
    - apply (quiet_step_inv w7); [|done]. apply quiet_step_by; [reflexivity|reflexivity|done]. }
  clearbody w8. clear HJ7.
  apply bindM_Some in H as [(sh & w9 & Hr9 & H)|(e & Hr9 & _)].
  2:{ destruct HJ8 as [Hs8 Hi8]. eapply Hrec; [|exact Hi8|exact Hr9]. apply HJk. by split. }
  assert (Hi9 : container_inv w9).
  { destruct HJ8 as [Hs8 Hi8]. eapply Hrec; [|exact Hi8|exact Hr9]. apply HJk. by split. }
  apply bindM_Some in H as [(first & w10 & Hr10 & H)|(e & Hr10 & _)].
  2:{ eapply quiet_step_inv; [|exact Hi9]. eapply Promise_then_quiet; [|exact Hr10]. done. }
  assert (Hi10 : container_inv w10).
  { eapply quiet_step_inv; [|exact Hi9]. eapply Promise_then_quiet; [|exact Hr10]. done. }
  eapply quiet_step_inv; [|exact Hi10]. eapply Promise_then_quiet; [|exact H]. done.
Qed.

Lemma liftM_inv {A} (f : world → A * world) (w : world) (r : res A) (w' : world) :
  quiet_step w (f w).2 → container_inv w → liftM f w = Some (r, w') → container_inv w'.
Proof.
  unfold liftM. destruct (f w) as [a w1]. simpl. intros Hq Hinv [= <- <-].
  by apply (quiet_step_inv w).
Qed.

Lemma resolve_inv (k : nat) (n : string) (partial : bool) (w : world) (r : res value)
    (w' : world) :
  count_registered w < k → container_inv w →
  resolve k n partial w = Some (r, w') → container_inv w'.
Proof.
  revert n partial w r w'. induction k as [|k IH]; intros n partial w r w' Hk Hinv; [lia|].
  rewrite resolve_S. unfold bindM at 1, getM at 1. cbv zeta.
  destruct (module_at _ n w) as [[m md]|] eqn:Hmod.
  2:{ apply liftM_inv; [apply Promise_reject_quiet|done]. }
  assert (Hnamed : named w m n).
  { destruct Hinv as [(N1 & N2 & _) _]. apply module_at_lookup in Hmod as [Hreg _].
    destruct partial; [by apply N2|by apply N1]. }
  assert (Hsame : no_partial_mocks w → _modules (container w) !! n = Some m).
  { intros Hno. destruct Hinv as [_ HP]. destruct (HP Hno) as (P1 & _).
    apply module_at_lookup in Hmod as [Hreg _]. destruct partial; [|done].
    rewrite P1 in Hreg. by rewrite lookup_empty in Hreg. }
  apply module_at_lookup in Hmod as [_ Hmd].
  destruct (state md) eqn:Hst.
  3:{ apply liftM_inv; [apply Promise_resolve_quiet|done]. }
  all: destruct (first_missing w (dependencies md)).
  all: try (apply liftM_inv; [apply Promise_reject_quiet|done]).
  all: unfold bindM at 1, liftM at 1.
  all: pose proof (ensure_cycles_inv w Hinv) as Hinv1.
  all: destruct (ensure_cycles_frame w) as (Hmods & _ & _ & _ & _ & _ & Hms & _ & Hopt).
  all: destruct (ensure_cycles w) as [[err|[|c cycles]] w1]; simpl in *.
  all: try (apply liftM_inv; [apply Promise_reject_quiet|done]).
  all: try (unfold bindM at 1, getM at 1;
            apply liftM_inv; [apply Promise_reject_quiet|done]).
  - (* registered: the resolution starts *)
    unfold bindM at 1, modifyM at 1.
    destruct (set_resolving_step m md w1) as [Hstep Hcount]; [by rewrite Hmods|done|].
    assert (Hk1 : count_registered w1 = count_registered w)
      by (unfold count_registered; by rewrite Hmods).
    apply (resolve_started_inv k (resolve k) m md n partial (container w)).
    + intros n' p'. apply resolve_sync.
    + intros n' p' w0 r0 w0'. apply IH.
    + lia.
    + by apply update_module_inv.
    + apply (sync_step_named w1); [done|]. unfold named. by rewrite Hmods.
    + unfold no_partial_mocks. simpl. rewrite Hopt, Hms. exact Hsame.
  - by intros [= <- <-].
Qed.

Lemma apply_op_inv (o : op) (w : world) : container_inv w → container_inv (apply_op o w).
Proof.
  intros Hinv. destruct o as [n d|n obj|n| |p o]; unfold apply_op, exec.
  - destruct (register n d w) as [[r w']|] eqn:Hr; [|done]. by eapply register_inv.
  - destruct (registerAndExport n obj w) as [[r w']|] eqn:Hr; [|done].
    by eapply registerAndExport_inv.
  - destruct (resolve (resolve_fuel w) n false w) as [[r w']|] eqn:Hr; [|done].
    eapply resolve_inv; [apply count_registered_bound|exact Hinv|exact Hr].
  - destruct (tick w) as [w'|] eqn:Ht; [|done]. by eapply tick_inv.
  - by apply env_settle_inv.
Qed.

Lemma apply_ops_inv (ops : list op) (w : world) :
  container_inv w → container_inv (apply_ops ops w).
Proof.
  revert w. induction ops as [|o ops IH]; intros w Hinv; [done|].
  change (apply_ops (o :: ops) w) with (apply_ops ops (apply_op o w)).
  by apply IH, apply_op_inv.
Qed.

Lemma world_init_inv (opts : Options) (objs : list object) :
  container_inv (world_init opts objs).
Proof.
  split.
  - split; [|split].
    + intros n m Hm. simpl in Hm. by rewrite lookup_empty in Hm.
    + intros n m Hm. simpl in Hm. by rewrite lookup_empty in Hm.
    + intros m n [t [(p & pr & Hp & _)|[o Ho]]]; simpl in *.
      * by rewrite lookup_nil in Hp.
      * by apply elem_of_nil in Ho.
  - intros _. split; [done|]. split.
    + intros m n [t [(p & pr & Hp & _)|[o Ho]]]; simpl in *.
      * by rewrite lookup_nil in Hp.
      * by apply elem_of_nil in Ho.
    + by apply cycles_coherent_fresh.
Qed.

(** ** The registries and the cycle cache in reachable worlds *)

Lemma names_of_records (w : world) (l : list (string * nat)) :
  (∀ n m, (n, m) ∈ l → named w m n) →
  name <$> omap (λ kv : string * nat, modules w !! kv.2) l = l.*1.
Proof.
  induction l as [|[n m] l IH]; intros Hl; [done|].
  destruct (Hl n m) as (md & Hmd & Hn); [apply list_elem_of_here|].
  csimpl. rewrite Hmd. csimpl. f_equal; [done|]. apply IH.
  intros n' m' Hin. apply Hl. by apply list_elem_of_further.
Qed.

(** X13.  In every world reached from a new container, each registry maps
    a name to an existing module record whose [name] is that name.  So no
    two registered records share a name, and the graph text has one
    clause for every registered name. *)
Theorem registry_names_match (opts : Options) (objs : list object) (ops : list op) :
  let w := apply_ops ops (world_init opts objs) in
  (∀ n m, _modules (container w) !! n = Some m →
          ∃ md, modules w !! m = Some md ∧ name md = n)
  ∧ (∀ n m, _partial_modules (container w) !! n = Some m →
            ∃ md, modules w !! m = Some md ∧ name md = n)
  ∧ NoDup (name <$> registered_modules w)
  ∧ length (sortBy_name (registered_modules w)) = size (_modules (container w)).
Proof.
  intros w.
  destruct (apply_ops_inv ops _ (world_init_inv opts objs)) as [(N1 & N2 & _) _].
  fold w in N1, N2. split; [exact N1|]. split; [exact N2|].
  assert (Hnames : name <$> registered_modules w = (map_to_list (_modules (container w))).*1).
  { apply names_of_records. intros n m Hin. apply N1. by apply elem_of_map_to_list. }
  split.
  - rewrite Hnames. apply NoDup_fst_map_to_list.
  - rewrite sortBy_name_perm. rewrite <- (length_fmap name), Hnames, length_fmap.
    apply length_map_to_list.
Qed.

Lemma apply_ops_options (ops : list op) (w : world) :
  options (container (apply_ops ops w)) = options (container w).
Proof. by destruct (apply_ops_kept ops w) as (_ & _ & ?). Qed.

(** X14.  In a container without partial-mock names the cached result of
    the cycle detection is never stale: in every world reached from a new
    container, [this._cycles], when set, is what [detectCycle] returns on
    the current registry, and there is no shadow module.  So when the
    graph has a cycle, [resolve] of a registered module that is not
    resolved and whose dependencies are registered is rejected, whenever
    the cycle was registered. *)
Theorem cycle_cache_never_stale (mocks : list string) (objs : list object) (ops : list op) :
  let w := apply_ops ops (world_init (mkOptions mocks []) objs) in
  cycles_coherent w
  ∧ _partial_modules (container w) = ∅
  ∧ (∀ n m md,
       has_cycle (graph_of w) →
       module_at (_modules (container w)) n w = Some (m, md) →
       state md ≠ resolved →
       first_missing w (dependencies md) = None →
       ∃ c cycles p w',
         detectCycle w = inr (c :: cycles)
         ∧ resolve (resolve_fuel w) n false w = Some (Ret (VPromise p), w')
         ∧ outcome_of w' (VPromise p)
           = Some (Rejected (VErr (msg_circular w n (c :: cycles))))
         ∧ trace w' = trace w).
Proof.
  intros w.
  destruct (apply_ops_inv ops _ (world_init_inv (mkOptions mocks []) objs)) as [_ HP].
  fold w in HP. destruct HP as (P1 & _ & P3).
  { unfold no_partial_mocks, w. by rewrite apply_ops_options. }
  split; [exact P3|]. split; [exact P1|].
  intros n m md Hc Hm Hs Hd.
  destruct (detectCycle_complete w Hc) as (c & cycles & Hdet).
  exists c, cycles. eexists _, _. split; [done|].
  assert (He : (ensure_cycles w).1 = inr (c :: cycles)) by (by rewrite P3).
  split; [by apply (resolve_circular _ n false w m md c cycles)|].
  destruct (ensure_cycles_frame w) as (Hmods & _ & _ & _ & _ & Ht & _).
  split; [|exact Ht].
  rewrite outcome_of_new. simpl. do 3 f_equal.
  by rewrite (msg_circular_frame w _ n (c :: cycles) Hmods).
Qed.

Lemma cycle_cache_witness :
  ∃ c cycles p w',
    detectCycle (apply_ops late_cycle_ops empty_world) = inr (c :: cycles)
    ∧ resolve 4 "a" false (apply_ops late_cycle_ops empty_world)
      = Some (Ret (VPromise p), w')
    ∧ outcome_of w' (VPromise p)
      = Some (Rejected (VErr (msg_circular (apply_ops late_cycle_ops empty_world) "a"
                                (c :: cycles)))).
Proof.
  destruct (cycle_cache_never_stale [] [] late_cycle_ops) as (_ & _ & H).
  edestruct (H "a") as (c & cycles & p & w' & Hd & Hr & Ho & _).
  - exists "a". eapply tc_l; [|apply tc_once].
    + split; [exists ["b"]; split; [by vm_compute|apply list_elem_of_here]|].
      exists ["a"]. by vm_compute.
    + split; [exists ["a"]; split; [by vm_compute|apply list_elem_of_here]|].
      exists ["b"]. by vm_compute.
  - vm_compute. reflexivity.
  - vm_compute. discriminate.
  - vm_compute. reflexivity.
  - exists c, cycles, p, w'. split; [exact Hd|]. split; [exact Hr|exact Ho].
Defined.

(** ** A module without dependencies, from [resolve] to its value *)

Lemma Promise_all_nil (w : world) :
  Promise_all [] w
  = (VPromise (length (promises w)),
     set_promises
       (promises w ++ [mkPromise (Some (Fulfilled (VObj (length (objects w))))) [] [] false])
       (set_objects (objects w ++ [mk_array []]) w)).
Proof.
  unfold Promise_all, new_promise, finish_all. simpl.
  rewrite list_lookup_middle by done. simpl.
  unfold settle. simpl. rewrite list_lookup_middle by done. simpl.
  rewrite insert_app_r_alt, Nat.sub_diag by done. simpl.
  rewrite app_nil_r. by destruct w.
Qed.

Lemma Promise_bind_settled (p : nat) (pr : promise) (o : outcome) (w : world) :
  promises w !! p = Some pr → settled pr = Some o →
  Promise_bind (VPromise p) w
  = (VPromise (length (promises w)),
     set_queue (queue w ++ [(RFollow (length (promises w)), o)])
       (set_promises (promises w ++ [pending_promise]) w)).
Proof.
  intros Hp Hs. unfold Promise_bind, new_promise, resolve_with, subscribe. simpl.
  by rewrite (lookup_app_l_Some _ _ _ _ Hp), Hs.
Qed.

Lemma Promise_then_pending (q : nat) (pr : promise) (cb : callback) (w : world) :
  promises w !! q = Some pr → settled pr = None →
  Promise_then (VPromise q) cb w
  = Some (Ret (VPromise (length (promises w))),
          set_promises
            (<[q := mkPromise None (reactions pr ++ [RThen cb (length (promises w))])
                      (slots pr) (external pr)]> (promises w ++ [pending_promise])) w).
Proof.
  intros Hq Hs. unfold Promise_then, new_promise, subscribe. simpl.
  by rewrite (lookup_app_l_Some _ _ _ _ Hq), Hs.
Qed.

Lemma lookup_app_add {A} (l k : list A) (i : nat) : (l ++ k) !! (length l + i) = k !! i.
Proof. rewrite lookup_app_r by lia. f_equal. lia. Qed.

Lemma resolve_no_dependencies (fuel : nat) (n : string) (w : world) (m : nat) (md : Module) :
  module_at (_modules (container w)) n w = Some (m, md) →
  state md = registered → dependencies md = [] →
  (ensure_cycles w).1 = inr [] →
  _partial_modules (container w) !! n = None →
  resolve (S fuel) n false w
  = Some (Ret (VPromise (length (promises w) + 2)), started m n (ensure_cycles w).2).
Proof.
  intros Hmod Hst Hdeps Hcyc Hshadow.
  rewrite resolve_S. unfold bindM at 1, getM at 1. cbv zeta. rewrite Hmod, Hst, Hdeps.
  change (first_missing w []) with (@None string). cbv iota.
  unfold bindM at 1, liftM at 1.
  destruct (ensure_cycles_frame w) as (Hmods & Hps & Hos & Hcs & Hq & Ht & Hms & Hpm & Hopt).
  destruct (ensure_cycles w) as [found w0]. simpl in *. subst found.
  unfold bindM at 1, modifyM at 1.
  unfold resolve_started. rewrite Hdeps. simpl omap. simpl mapM_M.
  unfold bindM at 1, retM at 1.
  unfold bindM at 1, liftM at 1. rewrite Promise_all_nil.
  unfold bindM at 1, liftM at 1.
  erewrite Promise_bind_settled; [|simpl; by apply list_lookup_middle|reflexivity].
  unfold bindM at 1.
  erewrite Promise_then_pending; [|simpl; by apply list_lookup_middle|reflexivity].
  unfold bindM at 1, modifyM at 1. unfold bindM at 1, getM at 1.
  simpl. rewrite Hpm, Hshadow. simpl. unfold retM, started, update_module. simpl.
  rewrite !length_app. simpl. rewrite <- !Nat.add_assoc. simpl.
  rewrite <- !app_assoc. simpl.
  rewrite (insert_app_r (promises w0) _ 1). simpl. by rewrite Hps.
Qed.

Lemma resolve_with_plain (t : nat) (x : value) (w : world) :
  plain x → resolve_with t x w = settle t (Fulfilled x) w.
Proof. intros Hx. destruct x; try done. by destruct (Hx p). Qed.

Lemma run_S_tick (k : nat) (w w' : world) : tick w = Some w' → run (S k) w = run k w'.
Proof. intros Ht. simpl. by rewrite Ht. Qed.

Ltac wsimpl :=
  unfold set_queue, set_promises, set_objects, set_trace, set_container, set_modules, set_cells,
    update_module;
  cbn [container modules promises objects cells queue trace].

Lemma started_runs (m : nat) (n : string) (w : world) (md : Module) (x : value) :
  modules w !! m = Some md → queue w = [] →
  body (define md) [] = DReturn x → plain x →
  run 3 (started m n w) = finished m n x w.
Proof.
  intros Hmd Hq Hbody Hx. unfold started. rewrite Hq. cbn [app].
  (* first turn: the follower adopts the empty array *)
  erewrite (run_S_tick 2).
  2:{ unfold tick. cbn [queue]. cbn [run_job]. unfold settle. wsimpl.
      rewrite (lookup_app_add _ _ 1). cbn [lookup list_lookup settled reactions].
      cbn [fmap list_fmap app slots external].
      rewrite (insert_app_r _ _ 1). cbn [insert list_insert]. reflexivity. }
  (* second turn: the callback of line 211 *)
  erewrite (run_S_tick 1).
  2:{ unfold tick. cbn [queue]. cbn [run_job run_callback]. wsimpl.
      rewrite !list_lookup_alter_eq, Hmd. cbn [fmap option_fmap option_map].
      unfold Promise_try. cbn [define set_resolvingPromise set_state].
      unfold call_args. cbn [objects]. rewrite list_lookup_middle by done.
      cbn [is_array mk_array array_values props zip_with snd index_keys fmap list_fmap seq].
      change ((zip (index_keys (length [])) []).*2) with (@nil value).
      rewrite Hbody. unfold new_promise. wsimpl. rewrite (resolve_with_plain _ x) by exact Hx.
      unfold settle. wsimpl. rewrite <- !app_assoc. cbn [app]. rewrite length_app. cbn [length].
      rewrite (lookup_app_add _ _ 3). cbn [lookup list_lookup settled reactions pending_promise].
      cbn [fmap list_fmap app slots external]. wsimpl.
      rewrite (insert_app_r _ _ 3). cbn [insert list_insert].
      cbn [resolve_with]. unfold subscribe. wsimpl.
      rewrite (lookup_app_add _ _ 3). cbn [lookup list_lookup settled reactions].
      wsimpl. cbn [app]. reflexivity. }
  erewrite (run_S_tick 0).
  2:{ unfold tick. cbn [queue]. cbn [run_job]. unfold settle. wsimpl.
      rewrite (lookup_app_add _ _ 2). cbn [lookup list_lookup settled reactions pending_promise].
      cbn [fmap list_fmap app slots external]. wsimpl.
      rewrite (insert_app_r _ _ 2). cbn [insert list_insert]. reflexivity. }
  reflexivity.
Qed.

(** X15.  Resolving a registered module without dependencies, when no
    cycle is found, the name has no shadow record and the event loop is
    idle, returns a pending promise and runs nothing at once.  Three turns
    of the event loop later [define] has been invoked once, with no
    argument; when it returned a value that is not a promise, the promise
    [resolve] returned is fulfilled with that value, the record is
    resolved, its [exported] is a promise fulfilled with that value, and
    the queue is empty again. *)
Theorem leaf_module_resolves (n : string) (m : nat) (md : Module) (x : value) (w : world) :
  module_at (_modules (container w)) n w = Some (m, md) →
  state md = registered → dependencies md = [] →
  (ensure_cycles w).1 = inr [] →
  _partial_modules (container w) !! n = None →
  queue w = [] →
  body (define md) [] = DReturn x → plain x →
  ∃ p w1,
    resolve (resolve_fuel w) n false w = Some (Ret (VPromise p), w1)
    ∧ outcome_of w1 (VPromise p) = None
    ∧ trace w1 = trace w
    ∧ outcome_of (run 3 w1) (VPromise p) = Some (Fulfilled x)
    ∧ trace (run 3 w1) = Called m [] :: trace w
    ∧ queue (run 3 w1) = []
    ∧ ∃ md', module_at (_modules (container (run 3 w1))) n (run 3 w1) = Some (m, md')
        ∧ state md' = resolved
        ∧ outcome_of (run 3 w1) (exported md') = Some (Fulfilled x)
        ∧ name md' = name md ∧ define md' = define md.
Proof.
  intros Hmod Hst Hdeps Hcyc Hshadow Hq Hbody Hx.
  destruct (ensure_cycles_frame w) as (Hmods & Hps & Hos & Hcs & Hq' & Ht & Hms & Hpm & Hopt).
  pose proof Hmod as Hat. unfold module_at in Hat.
  destruct (_modules (container w) !! n) as [m'|] eqn:Hn; [|done]. simpl in Hat.
  destruct (modules w !! m') as [md0|] eqn:Hm; [|done]. simpl in Hat.
  injection Hat as -> ->.
  exists (length (promises w) + 2), (started m n (ensure_cycles w).2).
  split. { by apply (resolve_no_dependencies (length (modules w)) n w m md). }
  rewrite (started_runs m n _ md x); [|by rewrite Hmods|by rewrite Hq'|done|done].
  split. { unfold started. simpl. rewrite Hps, (lookup_app_add _ _ 2). done. }
  split. { done. }
  split. { unfold finished. simpl. rewrite Hps, (lookup_app_add _ _ 2). done. }
  split. { unfold finished. simpl. by rewrite Ht. }
  split. { done. }
  exists (set_exported (VPromise (length (promises w) + 3))
            (set_state resolved
               (set_resolvingPromise (VPromise (length (promises w) + 2))
                  (set_state resolving md)))).
  split.
  { unfold module_at, finished. simpl. rewrite lookup_insert_eq. simpl.
    rewrite !list_lookup_alter_eq, Hmods, Hm, Hps. done. }
  split; [done|]. split; [|done].
  unfold finished. simpl. rewrite Hps, (lookup_app_add _ _ 3). done.
Qed.

Lemma leaf_module_witness :
  let w := apply_ops [OpRegister (VStr "a") (DeclFn (mkFun [] (λ _, DReturn (VNum 1))))]
             (world_init (mkOptions [] []) []) in
  ∃ p w1, resolve (resolve_fuel w) "a" false w = Some (Ret (VPromise p), w1)
          ∧ outcome_of (run 3 w1) (VPromise p) = Some (Fulfilled (VNum 1))
          ∧ calls_of 0 (run 3 w1) = 1.
Proof.
  intros w.
  destruct (leaf_module_resolves "a" 0
              (mkModule "a" [] (mkFun [] (λ _, DReturn (VNum 1))) registered VNull VUndef)
              (VNum 1) w)
    as (p & w1 & Hr & _ & _ & Ho & Ht & _).
  - reflexivity.
  - reflexivity.
  - reflexivity.
  - reflexivity.
  - reflexivity.
  - reflexivity.
  - reflexivity.
  - intros q. discriminate.
  - exists p, w1. split; [exact Hr|]. split; [exact Ho|].
    unfold calls_of. rewrite Ht. reflexivity.
Defined.
